(** * The realtime collaboration client of exo-alt

    A shallow embedding of [src/lib/realtime/types.ts],
    [src/lib/realtime/RealtimeClient.ts] (the connection manager) and of the
    React provider built on it ([RealtimeContext], the projection layer),
    followed by the properties of the specification that concern them.

    The client is event driven.  Its fields, the sockets it created, the timers
    it armed and the state of the application it calls back into form one
    [World]; every method and every platform callback (socket open, message,
    error, close, timeout, interval) is a computation in a small state and
    exception monad over that world. *)

From Stdlib Require Import ZArith Lia.
From stdpp Require Import base option list strings gmap fin_maps pretty.

Local Open Scope string_scope.
Local Open Scope Z_scope.
Local Open Scope list_scope.

(** ** [types.ts]: the wire vocabulary *)

Abbreviation UserId := string.
Abbreviation RoomId := string.
Abbreviation PlanetId := string.

(** A JavaScript [number].  The client stores, copies and compares numbers; the
    only arithmetic it performs is on the reconnect delay, on integers far below
    2^53, where doubles are exact. *)
Abbreviation number := Z.

Record UserPresence := {
  user_id : UserId;
  user_name : string;
  user_color : string;
  joinedAt : number;
  lastSeen : number;
  selectedPlanetId : option PlanetId;
  isViewingPlanet : option PlanetId;
}.

Record CameraState := {
  position : number * number * number;
  target : number * number * number;
  zoom : number;
  timestamp : number;
}.

(** Client -> server messages, one constructor per [type] tag. *)
Inductive RealtimeClientMessage :=
  | JoinRoomMessage (roomId : string) (user : UserPresence)
  | LeaveRoomMessage (userId : string)
  | SelectPlanetMessage (planetId userId : string)
  | UnselectPlanetMessage (planetId userId : string)
  | JoinViewerMessage (planetId userId : string)
  | LeaveViewerMessage (planetId userId : string)
  | CameraUpdateMessage (planetId : string) (camera : CameraState) (userId : string)
  | PresenceHeartbeatMessage (userId : string) (ts : number).

(** Server -> client messages. *)
Inductive RealtimeServerMessage :=
  | PresenceUpdateMessage (users : list UserPresence)
  | ConflictMessage (planetId lockedBy : string) (reason : option string)
  | AckMessage (op : string) (ts : option number)
  | ErrorMessage (op code : option string) (message : string)
  | SelectionStateMessage (selected : gmap string (list string))
  | ViewerCamerasMessage (planetId : string) (cameras : gmap string CameraState)
  | ServerCameraUpdateMessage (planetId : string) (camera : CameraState) (userId : string).

(** [RealtimeServerMessage['type']]: the tags [subscribe] accepts. *)
Inductive ServerTag :=
  | presence | conflict | ack | error | selection_state | viewer_cameras | camera.

Global Instance ServerTag_eq_dec : EqDecision ServerTag.
Proof. solve_decision. Defined.

Definition tag_name (t : ServerTag) : string :=
  match t with
  | presence => "presence"
  | conflict => "conflict"
  | ack => "ack"
  | error => "error"
  | selection_state => "selection_state"
  | viewer_cameras => "viewer_cameras"
  | camera => "camera"
  end.

Definition server_tag (m : RealtimeServerMessage) : ServerTag :=
  match m with
  | PresenceUpdateMessage _ => presence
  | ConflictMessage _ _ _ => conflict
  | AckMessage _ _ => ack
  | ErrorMessage _ _ _ => error
  | SelectionStateMessage _ => selection_state
  | ViewerCamerasMessage _ _ => viewer_cameras
  | ServerCameraUpdateMessage _ _ _ => camera
  end.

Record ConflictInfo := {
  conflict_planetId : PlanetId;
  conflict_lockedBy : string;
  conflict_reason : option string;
}.

(** [Partial<UserPresence>]: [None] is an absent property.  The two optional
    fields can also be present with the value [undefined], which the object
    spread of [updatePresence] copies over the old value. *)
Record PartialPresence := {
  p_id : option UserId;
  p_name : option string;
  p_color : option string;
  p_joinedAt : option number;
  p_selectedPlanetId : option (option PlanetId);
  p_isViewingPlanet : option (option PlanetId);
}.

Definition no_change : PartialPresence :=
  {| p_id := None; p_name := None; p_color := None; p_joinedAt := None;
     p_selectedPlanetId := None; p_isViewingPlanet := None |}.

(** ** JavaScript truthiness of strings *)

Definition truthy (s : string) : bool := bool_decide (s ≠ "").

(** [a || b] where [a] is [string | null | undefined]. *)
Definition or_else (a : option string) (b : string) : string :=
  match a with
  | Some s => if truthy s then s else b
  | None => b
  end.

(** [!x] for [x : string | null]. *)
Definition falsy (a : option string) : bool :=
  match a with
  | Some s => negb (truthy s)
  | None => true
  end.

(** ** The world the client runs in *)

(** What the client is parametric in: the identity of the function objects
    registered with [subscribe] and [on] (JavaScript compares them by
    reference), the state of the application behind those callbacks, and the
    values [JSON.parse] produces. *)
Class Sig := {
  Hid : Type;
  Hid_eq_dec :: EqDecision Hid;
  App : Type;
  Msg : Type;
}.

Inductive ReadyState := CONNECTING | OPEN | CLOSING | CLOSED.

Global Instance ReadyState_eq_dec : EqDecision ReadyState.
Proof. solve_decision. Defined.

(** The promise an [async] method returns, as its caller finds it when the
    call returns: pending on the socket [openSocket] has just created,
    fulfilled already, or rejected already. *)
Inductive Promise := Pending | Fulfilled | Rejected.

(** What is chained on the promise returned by [openSocket]. *)
Inductive Continuation :=
  | AwaitConnect (roomId : string)  (* the rest of [connect] *)
  | AwaitReconnect                  (* the rest of [reconnect] *)
  | ThenScheduled.                  (* [.then]/[.catch] in [scheduleReconnect] *)

(** A [WebSocket] created by [openSocket]: its state, the frames handed to the
    network so far, and the pending continuation of the promise. *)
Record Socket := {
  readyState : ReadyState;
  sent : list string;
  on_resolve : Continuation;
}.

Inductive LifecycleEvent := connected | disconnected | failed.

Section World.
Context `{Sig}.

(** What a callback is called with. *)
Inductive Trigger :=
  | OnMessage (msg : Msg)
  | OnConnected
  | OnDisconnected
  | OnError (message : string).

Record EventHandlers := {
  on_connected : list Hid;
  on_disconnected : list Hid;
  on_error : list Hid;
}.

(** The private fields of [class RealtimeClient].  A [Set] is the list of its
    elements in insertion order; timer handles are positive, as the platform
    guarantees, so that [if (this.reconnectTimer)] tests for [Some]. *)
Record Client := {
  ws : option nat;
  url : string;
  roomId : option string;
  user : option UserPresence;
  messageQueue : list RealtimeClientMessage;
  handlers : gmap string (list Hid);
  heartbeatTimer : option positive;
  reconnectTimer : option positive;
  reconnectAttempts : nat;
  storage : gmap string string;
  eventHandlers : EventHandlers;
}.

Record World := {
  client : Client;
  sockets : list Socket;              (* every WebSocket constructed so far *)
  timeouts : list (positive * Z);     (* pending setTimeout: handle, delay *)
  intervals : list (positive * Z);    (* active setInterval: handle, period *)
  next_handle : positive;
  clock : Z;                          (* Date.now() *)
  app : App;
  invoked : list (Hid * Trigger);     (* ghost: callbacks called so far *)
}.

(** *** Field updates *)

Definition with_client (f : Client → Client) (w : World) : World :=
  {| client := f (client w); sockets := sockets w; timeouts := timeouts w;
     intervals := intervals w; next_handle := next_handle w; clock := clock w;
     app := app w; invoked := invoked w |}.

Definition with_sockets (f : list Socket → list Socket) (w : World) : World :=
  {| client := client w; sockets := f (sockets w); timeouts := timeouts w;
     intervals := intervals w; next_handle := next_handle w; clock := clock w;
     app := app w; invoked := invoked w |}.

Definition with_timeouts (f : list (positive * Z) → list (positive * Z)) (w : World) : World :=
  {| client := client w; sockets := sockets w; timeouts := f (timeouts w);
     intervals := intervals w; next_handle := next_handle w; clock := clock w;
     app := app w; invoked := invoked w |}.

Definition with_intervals (f : list (positive * Z) → list (positive * Z)) (w : World) : World :=
  {| client := client w; sockets := sockets w; timeouts := timeouts w;
     intervals := f (intervals w); next_handle := next_handle w; clock := clock w;
     app := app w; invoked := invoked w |}.

Definition with_next_handle (h : positive) (w : World) : World :=
  {| client := client w; sockets := sockets w; timeouts := timeouts w;
     intervals := intervals w; next_handle := h; clock := clock w;
     app := app w; invoked := invoked w |}.

Definition with_clock (t : Z) (w : World) : World :=
  {| client := client w; sockets := sockets w; timeouts := timeouts w;
     intervals := intervals w; next_handle := next_handle w; clock := t;
     app := app w; invoked := invoked w |}.

Definition with_app (a : App) (w : World) : World :=
  {| client := client w; sockets := sockets w; timeouts := timeouts w;
     intervals := intervals w; next_handle := next_handle w; clock := clock w;
     app := a; invoked := invoked w |}.

Definition with_invoked (f : list (Hid * Trigger) → list (Hid * Trigger)) (w : World) : World :=
  {| client := client w; sockets := sockets w; timeouts := timeouts w;
     intervals := intervals w; next_handle := next_handle w; clock := clock w;
     app := app w; invoked := f (invoked w) |}.

Definition set_ws (v : option nat) (c : Client) : Client :=
  {| ws := v; url := url c; roomId := roomId c; user := user c;
     messageQueue := messageQueue c; handlers := handlers c;
     heartbeatTimer := heartbeatTimer c; reconnectTimer := reconnectTimer c;
     reconnectAttempts := reconnectAttempts c; storage := storage c;
     eventHandlers := eventHandlers c |}.

Definition set_roomId (v : option string) (c : Client) : Client :=
  {| ws := ws c; url := url c; roomId := v; user := user c;
     messageQueue := messageQueue c; handlers := handlers c;
     heartbeatTimer := heartbeatTimer c; reconnectTimer := reconnectTimer c;
     reconnectAttempts := reconnectAttempts c; storage := storage c;
     eventHandlers := eventHandlers c |}.

Definition set_user (v : option UserPresence) (c : Client) : Client :=
  {| ws := ws c; url := url c; roomId := roomId c; user := v;
     messageQueue := messageQueue c; handlers := handlers c;
     heartbeatTimer := heartbeatTimer c; reconnectTimer := reconnectTimer c;
     reconnectAttempts := reconnectAttempts c; storage := storage c;
     eventHandlers := eventHandlers c |}.

Definition set_messageQueue (v : list RealtimeClientMessage) (c : Client) : Client :=
  {| ws := ws c; url := url c; roomId := roomId c; user := user c;
     messageQueue := v; handlers := handlers c;
     heartbeatTimer := heartbeatTimer c; reconnectTimer := reconnectTimer c;
     reconnectAttempts := reconnectAttempts c; storage := storage c;
     eventHandlers := eventHandlers c |}.

Definition set_handlers (v : gmap string (list Hid)) (c : Client) : Client :=
  {| ws := ws c; url := url c; roomId := roomId c; user := user c;
     messageQueue := messageQueue c; handlers := v;
     heartbeatTimer := heartbeatTimer c; reconnectTimer := reconnectTimer c;
     reconnectAttempts := reconnectAttempts c; storage := storage c;
     eventHandlers := eventHandlers c |}.

Definition set_heartbeatTimer (v : option positive) (c : Client) : Client :=
  {| ws := ws c; url := url c; roomId := roomId c; user := user c;
     messageQueue := messageQueue c; handlers := handlers c;
     heartbeatTimer := v; reconnectTimer := reconnectTimer c;
     reconnectAttempts := reconnectAttempts c; storage := storage c;
     eventHandlers := eventHandlers c |}.

Definition set_reconnectTimer (v : option positive) (c : Client) : Client :=
  {| ws := ws c; url := url c; roomId := roomId c; user := user c;
     messageQueue := messageQueue c; handlers := handlers c;
     heartbeatTimer := heartbeatTimer c; reconnectTimer := v;
     reconnectAttempts := reconnectAttempts c; storage := storage c;
     eventHandlers := eventHandlers c |}.

Definition set_reconnectAttempts (v : nat) (c : Client) : Client :=
  {| ws := ws c; url := url c; roomId := roomId c; user := user c;
     messageQueue := messageQueue c; handlers := handlers c;
     heartbeatTimer := heartbeatTimer c; reconnectTimer := reconnectTimer c;
     reconnectAttempts := v; storage := storage c;
     eventHandlers := eventHandlers c |}.

Definition set_storage (v : gmap string string) (c : Client) : Client :=
  {| ws := ws c; url := url c; roomId := roomId c; user := user c;
     messageQueue := messageQueue c; handlers := handlers c;
     heartbeatTimer := heartbeatTimer c; reconnectTimer := reconnectTimer c;
     reconnectAttempts := reconnectAttempts c; storage := v;
     eventHandlers := eventHandlers c |}.

Definition set_eventHandlers (v : EventHandlers) (c : Client) : Client :=
  {| ws := ws c; url := url c; roomId := roomId c; user := user c;
     messageQueue := messageQueue c; handlers := handlers c;
     heartbeatTimer := heartbeatTimer c; reconnectTimer := reconnectTimer c;
     reconnectAttempts := reconnectAttempts c; storage := storage c;
     eventHandlers := v |}.

(** *** The monad: state passing with JavaScript exceptions

    No [catch] in the client inspects what was thrown, so an abrupt
    completion carries no value. *)
Inductive Completion (X : Type) :=
  | Normal (x : X)
  | Abrupt.
Global Arguments Normal {X} x.
Global Arguments Abrupt {X}.

Definition Js (X : Type) : Type := World → Completion X * World.

Definition ret {X} (x : X) : Js X := λ w, (Normal x, w).

Definition bind {X Y} (m : Js X) (k : X → Js Y) : Js Y :=
  λ w, match m w with
       | (Normal x, w') => k x w'
       | (Abrupt, w') => (Abrupt, w')
       end.

Definition throw {X} : Js X := λ w, (Abrupt, w).

(** [try { m } catch { h }] *)
Definition try_catch {X} (m h : Js X) : Js X :=
  λ w, match m w with
       | (Normal x, w') => (Normal x, w')
       | (Abrupt, w') => h w'
       end.

Definition gets {X} (f : World → X) : Js X := λ w, (Normal (f w), w).

Definition modify (f : World → World) : Js unit := λ w, (Normal tt, f w).

(** [this.field = v] *)
Definition assign (f : Client → Client) : Js unit := modify (with_client f).

Definition exec {X} (m : Js X) (w : World) : World := snd (m w).

Definition completes {X} (m : Js X) (w : World) : Prop :=
  ∃ x, fst (m w) = Normal x.
End World.

Declare Scope js_scope.
Delimit Scope js_scope with js.
Notation "x <- m ;; k" := (bind m (λ x, k))
  (at level 100, m at next level, k at level 200, right associativity) : js_scope.
Notation "m ;; k" := (bind m (λ _, k))
  (at level 100, k at level 200, right associativity) : js_scope.
Notation "'try' m 'catch' h" := (try_catch m h)
  (at level 100, m at level 99, h at level 99) : js_scope.
Bind Scope js_scope with Js.

Local Open Scope js_scope.

(** ** The host: platform functions and the callbacks of the application *)

(** The calls a callback can make on the client while it runs.  No callback of
    the repository registers or removes a subscriber from inside a dispatch,
    and the model does not let one: the loops of [dispatch] and of the
    lifecycle notifications then visit exactly the members the [Set] had when
    the loop started. *)
Inductive ApiCall :=
  | CallSend (message : RealtimeClientMessage)
  | CallUpdatePresence (partial : PartialPresence)
  | CallSendCamera (planetId : string) (camera : CameraState)
  | CallDisconnect
  | CallReconnect.

(** What one run of a callback does: the new state of the application, the
    calls it made on the client, and whether it ended by throwing. *)
Record Reaction `{Sig} := {
  r_app : App;
  r_calls : list ApiCall;
  r_throws : bool;
}.

Class Host `{Sig} := {
  (** [String(msg.type)], the property key [dispatch] looks up; [None] when
      reading [msg.type] throws because [msg] is [null]. *)
  msg_type : Msg → option string;
  (** [JSON.parse]; [None] is a [SyntaxError]. *)
  JSON_parse : string → option Msg;
  JSON_stringify : RealtimeClientMessage → string;
  (** Running the function object [h] on a trigger in a world. *)
  callback : Hid → Trigger → World → Reaction;
  (** Whether [socket.send(data)] throws on the open socket number [i]. *)
  send_throws : nat → string → bool;
  (** Whether [new WebSocket(url)] throws. *)
  WebSocket_throws : string → bool;
  (** Whether [storage.setItem(key, value)] throws (quota, privacy mode). *)
  setItem_throws : string → string → bool;
}.

(** Randomness read by [connect]: [crypto.randomUUID()] when it exists and does
    not throw, [Math.random().toString(36).slice(2)], and the three indices
    [Math.floor(Math.random() * ...)] picks. *)
Record Entropy := {
  randomUUID : option string;
  random36 : string;
  pick_animal : nat;
  pick_num : Z;
  pick_hue : nat;
}.

(** Constructor options and the globals the constructor consults. *)
Record RealtimeClientOptions := {
  opt_url : option string;
  opt_roomId : option string;
}.

Record Globals := {
  env_VITE_REALTIME_URL : option string;
  location : option (string * string);   (* protocol, host *)
  localStorage : gmap string string;
}.

Definition HEARTBEAT_INTERVAL_MS : Z := 30000.
Definition RECONNECT_BASE_DELAY_MS : Z := 1000.
Definition RECONNECT_MAX_DELAY_MS : Z := 15000.

(** Keys every plain object inherits from [Object.prototype]: [this.handlers]
    answers them with a value that is truthy, has no [size] and is not
    iterable. *)
Definition inherited_keys : list string :=
  [ "constructor"; "__proto__"; "hasOwnProperty"; "isPrototypeOf";
    "propertyIsEnumerable"; "toLocaleString"; "toString"; "valueOf";
    "__defineGetter__"; "__defineSetter__"; "__lookupGetter__";
    "__lookupSetter__" ].

Section RealtimeClient.
Context `{Host}.

(** [for (const x of xs) body(x)]: an exception escaping the body ends the
    loop. *)
Fixpoint for_of {X} (xs : list X) (body : X → Js unit) : Js unit :=
  match xs with
  | [] => ret tt
  | x :: rest => body x ;; for_of rest body
  end.

(** [Set.prototype.add] and [Set.prototype.delete] on insertion-ordered sets. *)
Definition Set_add (h : Hid) (s : list Hid) : list Hid :=
  if decide (h ∈ s) then s else s ++ [h].

Definition Set_delete (h : Hid) (s : list Hid) : list Hid :=
  filter (λ x, x ≠ h) s.

(** *** Platform primitives *)

Definition Date_now : Js Z := gets clock.

Definition setTimeout (delay : Z) : Js positive :=
  λ w, let h := next_handle w in
       (Normal h, with_next_handle (Pos.succ h) (with_timeouts (λ l, l ++ [(h, delay)]) w)).

Definition clearTimeout (h : positive) : Js unit :=
  modify (with_timeouts (filter (λ p, p.1 ≠ h))).

Definition setInterval (period : Z) : Js positive :=
  λ w, let h := next_handle w in
       (Normal h, with_next_handle (Pos.succ h) (with_intervals (λ l, l ++ [(h, period)]) w)).

Definition clearInterval (h : positive) : Js unit :=
  modify (with_intervals (filter (λ p, p.1 ≠ h))).

Definition set_readyState (r : ReadyState) (s : Socket) : Socket :=
  {| readyState := r; sent := sent s; on_resolve := on_resolve s |}.

Definition transmit (data : string) (s : Socket) : Socket :=
  {| readyState := readyState s; sent := sent s ++ [data]; on_resolve := on_resolve s |}.

(** [WebSocket.prototype.send]: throws while connecting, hands the frame to
    the network when open, drops it silently when closing or closed. *)
Definition WebSocket_send (i : nat) (data : string) : Js unit :=
  s <- gets (λ w, sockets w !! i) ;;
  match s with
  | Some s =>
      match readyState s with
      | CONNECTING => throw
      | OPEN =>
          if send_throws i data then throw
          else modify (with_sockets (alter (transmit data) i))
      | _ => ret tt
      end
  | None => throw
  end.

(** [WebSocket.prototype.close]: starts the closing handshake; the [close]
    event, and with it [onclose], comes later. *)
Definition WebSocket_close (i : nat) : Js unit :=
  modify (with_sockets (alter (λ s,
    match readyState s with
    | CONNECTING | OPEN => set_readyState CLOSING s
    | _ => s
    end) i)).

(** [storage.getItem] and [try { storage.setItem(k, v) } catch {}]. *)
Definition getItem (k : string) : Js (option string) :=
  gets (λ w, storage (client w) !! k).

Definition setItem (k v : string) : Js unit :=
  if setItem_throws k v then throw
  else
    items <- gets (λ w, storage (client w)) ;;
    assign (set_storage (<[k := v]> items)).

(** *** [RealtimeClient] *)

Definition new_RealtimeClient (options : RealtimeClientOptions) (g : Globals) : Client :=
  {| ws := None;
     url :=
       match opt_url options with
       | Some u => u
       | None =>
           match env_VITE_REALTIME_URL g with
           | Some u => u
           | None =>
               match location g with
               | Some (protocol, host) =>
                   (if bool_decide (protocol = "https:") then "wss://" else "ws://")
                   +:+ (if truthy host then host else "localhost:3001") +:+ "/ws"
               | None => "ws://localhost:3001/ws"
               end
           end
       end;
     roomId :=
       match opt_roomId options with
       | Some r => if truthy r then Some r else None
       | None => None
       end;
     user := None;
     messageQueue := [];
     handlers := ∅;
     heartbeatTimer := None;
     reconnectTimer := None;
     reconnectAttempts := 0;
     storage := localStorage g;
     eventHandlers := {| on_connected := []; on_disconnected := []; on_error := [] |} |}.

Definition isConnected : Js bool :=
  gets (λ w,
    match ws (client w) with
    | Some i =>
        match sockets w !! i with
        | Some s => bool_decide (readyState s = OPEN)
        | None => false
        end
    | None => false
    end).

Definition getCurrentUser : Js (option UserPresence) :=
  gets (λ w, user (client w)).

Definition subscribe (type : ServerTag) (handler : Hid) : Js unit :=
  registry <- gets (λ w, handlers (client w)) ;;
  let set := default [] (registry !! tag_name type) in
  assign (set_handlers (<[tag_name type := Set_add handler set]> registry)).

(** The function [subscribe] returns.  It exists only once [subscribe] has
    created the [Set] of its tag. *)
Definition unsubscribe (type : ServerTag) (handler : Hid) : Js unit :=
  registry <- gets (λ w, handlers (client w)) ;;
  assign (set_handlers (alter (Set_delete handler) (tag_name type) registry)).

Definition generateId (e : Entropy) : Js string :=
  match randomUUID e with
  | Some u => ret u
  | None => now <- Date_now ;; ret ("u_" +:+ random36 e +:+ "_" +:+ pretty now)
  end.

Definition generateDisplayName (e : Entropy) : string :=
  let animals := ["Orion"; "Lyra"; "Vega"; "Draco"; "Nova"; "Cosmo"; "Atlas"; "Luna"] in
  default "undefined" (animals !! pick_animal e) +:+ " " +:+ pretty (pick_num e).

Definition generateColor (e : Entropy) : string :=
  let hues : list Z := [200; 220; 260; 300; 340; 20; 45; 160] in
  "hsl(" +:+ from_option pretty "undefined" (hues !! pick_hue e) +:+ " 80% 60%)".

(** [this.messageQueue.push(message)] *)
Definition push_queue (message : RealtimeClientMessage) : Js unit :=
  queue <- gets (λ w, messageQueue (client w)) ;;
  assign (set_messageQueue (queue ++ [message])).

Definition send (message : RealtimeClientMessage) : Js unit :=
  open <- isConnected ;;
  socket <- gets (λ w, ws (client w)) ;;
  match socket with
  | Some i =>
      if open
      then try WebSocket_send i (JSON_stringify message)
           catch push_queue message
      else push_queue message
  | None => push_queue message
  end.

Definition merge_presence (u : UserPresence) (p : PartialPresence) (now : Z) : UserPresence :=
  {| user_id := default (user_id u) (p_id p);
     user_name := default (user_name u) (p_name p);
     user_color := default (user_color u) (p_color p);
     joinedAt := default (joinedAt u) (p_joinedAt p);
     lastSeen := now;
     selectedPlanetId := default (selectedPlanetId u) (p_selectedPlanetId p);
     isViewingPlanet := default (isViewingPlanet u) (p_isViewingPlanet p) |}.

Definition updatePresence (partial : PartialPresence) : Js unit :=
  u <- getCurrentUser ;;
  match u with
  | None => ret tt
  | Some u =>
      now <- Date_now ;;
      assign (set_user (Some (merge_presence u partial now)))
  end.

Definition sendCamera (planetId : string) (camera : CameraState) : Js unit :=
  u <- getCurrentUser ;;
  match u with
  | None => ret tt
  | Some u => send (CameraUpdateMessage planetId camera (user_id u))
  end.

Definition stopHeartbeat : Js unit :=
  t <- gets (λ w, heartbeatTimer (client w)) ;;
  match t with
  | Some h => clearInterval h ;; assign (set_heartbeatTimer None)
  | None => ret tt
  end.

Definition startHeartbeat : Js unit :=
  stopHeartbeat ;;
  h <- setInterval HEARTBEAT_INTERVAL_MS ;;
  assign (set_heartbeatTimer (Some h)).

(** The function [startHeartbeat] hands to [setInterval]. *)
Definition heartbeat_tick : Js unit :=
  u <- getCurrentUser ;;
  match u with
  | None => ret tt
  | Some u =>
      now <- Date_now ;;
      send (PresenceHeartbeatMessage (user_id u) now)
  end.

Definition reconnect_delay (attempt : nat) : Z :=
  Z.min (RECONNECT_BASE_DELAY_MS * 2 ^ Z.of_nat attempt) RECONNECT_MAX_DELAY_MS.

(** The timeout armed here runs [reconnect_timer_fired], defined after
    [openSocket]. *)
Definition scheduleReconnect : Js unit :=
  stopHeartbeat ;;
  t <- gets (λ w, reconnectTimer (client w)) ;;
  match t with
  | Some _ => ret tt
  | None =>
      attempt <- gets (λ w, reconnectAttempts (client w)) ;;
      assign (set_reconnectAttempts (S attempt)) ;;
      h <- setTimeout (reconnect_delay attempt) ;;
      assign (set_reconnectTimer (Some h))
  end.

Definition clearReconnect : Js unit :=
  t <- gets (λ w, reconnectTimer (client w)) ;;
  match t with
  | Some h => clearTimeout h ;; assign (set_reconnectTimer None)
  | None => ret tt
  end ;;
  assign (set_reconnectAttempts 0%nat).

(** What runs when the promise of [openSocket] rejects: [connect] and
    [reconnect] pass the rejection to their caller, the scheduled reconnect
    catches it. *)
Definition rejected (k : Continuation) : Js unit :=
  match k with
  | ThenScheduled => scheduleReconnect
  | _ => ret tt
  end.

(** [openSocket], with the continuation its caller chains on the promise.
    The four handlers are those of [onopen], [onmessage], [onerror] and
    [onclose] below: every socket in [sockets] carries them. *)
Definition openSocket (k : Continuation) : Js Promise :=
  u <- gets (λ w, url (client w)) ;;
  if WebSocket_throws u then rejected k ;; ret Rejected
  else
    i <- gets (λ w, length (sockets w)) ;;
    modify (with_sockets (λ l, l ++ [{| readyState := CONNECTING; sent := []; on_resolve := k |}])) ;;
    assign (set_ws (Some i)) ;;
    ret Pending.

Definition connect (roomId : string) (userId : option string) (e : Entropy) : Js Promise :=
  assign (set_roomId (Some roomId)) ;;
  stored <- getItem "exo-user-id" ;;
  generated <- generateId e ;;
  let existingId := or_else userId (or_else stored generated) in
  (try setItem "exo-user-id" existingId catch ret tt) ;;
  stored_name <- getItem "exo-user-name" ;;
  let name := or_else stored_name (generateDisplayName e) in
  stored_color <- getItem "exo-user-color" ;;
  let color := or_else stored_color (generateColor e) in
  (try setItem "exo-user-name" name catch ret tt) ;;
  (try setItem "exo-user-color" color catch ret tt) ;;
  now <- Date_now ;;
  assign (set_user (Some
    {| user_id := existingId; user_name := name; user_color := color;
       joinedAt := now; lastSeen := now;
       selectedPlanetId := None; isViewingPlanet := None |})) ;;
  openSocket (AwaitConnect roomId).

Definition disconnect : Js unit :=
  stopHeartbeat ;;
  socket <- gets (λ w, ws (client w)) ;;
  match socket with
  | Some i => try WebSocket_close i catch ret tt
  | None => ret tt
  end ;;
  assign (set_ws None) ;;
  clearReconnect.

Definition reconnect : Js Promise :=
  r <- gets (λ w, roomId (client w)) ;;
  if falsy r then ret Fulfilled
  else
    open <- isConnected ;;
    if open then ret Fulfilled
    else openSocket AwaitReconnect.

(** What runs once the promise of [openSocket] resolves.  [this.user] and
    [this.roomId] are read then, not when the socket was requested.  [connect]
    assigns both before it awaits and nothing resets them to [null], so the
    [None] branches of the first two cases are never taken. *)
Definition resolved (k : Continuation) : Js unit :=
  match k with
  | AwaitConnect roomId =>
      startHeartbeat ;;
      u <- getCurrentUser ;;
      match u with
      | Some u => send (JoinRoomMessage roomId u)
      | None => ret tt
      end
  | AwaitReconnect =>
      u <- getCurrentUser ;;
      r <- gets (λ w, roomId (client w)) ;;
      match u, r with
      | Some u, Some r => send (JoinRoomMessage r u)
      | _, _ => ret tt
      end
  | ThenScheduled =>
      u <- getCurrentUser ;;
      r <- gets (λ w, roomId (client w)) ;;
      match u, r with
      | Some u, Some r =>
          if truthy r
          then send (JoinRoomMessage r u) ;; startHeartbeat
          else ret tt
      | _, _ => ret tt
      end
  end.

Definition api_call (c : ApiCall) : Js unit :=
  match c with
  | CallSend m => send m
  | CallUpdatePresence p => updatePresence p
  | CallSendCamera planetId cam => sendCamera planetId cam
  | CallDisconnect => disconnect
  | CallReconnect => reconnect ;; ret tt
  end.

(** Calling the function object [h]: the call is recorded, the application
    state and the client calls it made take effect, and it may throw. *)
Definition invoke (h : Hid) (t : Trigger) : Js unit :=
  r <- gets (callback h t) ;;
  modify (with_invoked (λ l, l ++ [(h, t)])) ;;
  modify (with_app (r_app r)) ;;
  for_of (r_calls r) api_call ;;
  if r_throws r then throw else ret tt.

(** [for (const h of set) { try { h(...) } catch {} }] *)
Definition notify (set : list Hid) (t : Trigger) : Js unit :=
  for_of set (λ h, try invoke h t catch ret tt).

Definition dispatch (msg : Msg) : Js unit :=
  match msg_type msg with
  | None => throw
  | Some key =>
      setForType <- gets (λ w, handlers (client w) !! key) ;;
      match setForType with
      | Some set =>
          if bool_decide (length set = 0%nat) then ret tt
          else notify set (OnMessage msg)
      | None =>
          if bool_decide (key ∈ inherited_keys) then throw else ret tt
      end
  end.

Definition lifecycle_set (ev : LifecycleEvent) (e : EventHandlers) : list Hid :=
  match ev with
  | connected => on_connected e
  | disconnected => on_disconnected e
  | failed => on_error e
  end.

Definition set_lifecycle_set (ev : LifecycleEvent) (s : list Hid) (e : EventHandlers) : EventHandlers :=
  match ev with
  | connected =>
      {| on_connected := s; on_disconnected := on_disconnected e; on_error := on_error e |}
  | disconnected =>
      {| on_connected := on_connected e; on_disconnected := s; on_error := on_error e |}
  | failed =>
      {| on_connected := on_connected e; on_disconnected := on_disconnected e; on_error := s |}
  end.

(** [on(event, handler)] and the function it returns. *)
Definition on (ev : LifecycleEvent) (handler : Hid) : Js unit :=
  e <- gets (λ w, eventHandlers (client w)) ;;
  assign (set_eventHandlers (set_lifecycle_set ev (Set_add handler (lifecycle_set ev e)) e)).

Definition off (ev : LifecycleEvent) (handler : Hid) : Js unit :=
  e <- gets (λ w, eventHandlers (client w)) ;;
  assign (set_eventHandlers (set_lifecycle_set ev (Set_delete handler (lifecycle_set ev e)) e)).

(** *** The handlers [openSocket] installs on the socket it creates

    [onopen] closes over the [resolve] of its promise: [k] is the
    continuation chained on that promise. *)

Definition onopen (k : Continuation) : Js unit :=
  assign (set_reconnectAttempts 0%nat) ;;
  queue <- gets (λ w, messageQueue (client w)) ;;
  assign (set_messageQueue []) ;;
  for_of queue send ;;
  listeners <- gets (λ w, on_connected (eventHandlers (client w))) ;;
  notify listeners OnConnected ;;
  resolved k.

Definition onmessage (data : string) : Js unit :=
  try
    match JSON_parse data with
    | Some msg => dispatch msg
    | None => throw
    end
  catch ret tt.

Definition onerror : Js unit :=
  listeners <- gets (λ w, on_error (eventHandlers (client w))) ;;
  notify listeners (OnError "socket error").

Definition onclose : Js unit :=
  listeners <- gets (λ w, on_disconnected (eventHandlers (client w))) ;;
  notify listeners OnDisconnected ;;
  scheduleReconnect.

(** The function [scheduleReconnect] hands to [setTimeout]. *)
Definition reconnect_timer_fired : Js unit :=
  assign (set_reconnectTimer None) ;;
  r <- gets (λ w, roomId (client w)) ;;
  if falsy r then ret tt
  else openSocket ThenScheduled ;; ret tt.

End RealtimeClient.

(** ** The event loop

    One turn of the JavaScript event loop: a call of the application on the
    public interface, or the platform running a handler of a socket or of a
    timer.  Promise continuations run as microtasks at the end of the turn that
    settles the promise, before any other event, so [onopen] runs them
    itself. *)
Section EventLoop.
Context `{Host}.

Inductive Event :=
  | EConnect (roomId : string) (userId : option string) (e : Entropy)
  | EDisconnect
  | EReconnect
  | ESend (message : RealtimeClientMessage)
  | EUpdatePresence (partial : PartialPresence)
  | ESendCamera (planetId : string) (camera : CameraState)
  | ESubscribe (type : ServerTag) (handler : Hid)
  | EUnsubscribe (type : ServerTag) (handler : Hid)
  | EOn (ev : LifecycleEvent) (handler : Hid)
  | EOff (ev : LifecycleEvent) (handler : Hid)
  | ESockOpen (i : nat)
  | ESockMessage (i : nat) (data : string)
  | ESockError (i : nat)
  | ESockClose (i : nat)
  | ETimeout (h : positive)
  | EInterval (h : positive)
  | EClock (now : Z).

Definition socket_is (P : ReadyState → bool) (i : nat) (w : World) : bool :=
  match sockets w !! i with
  | Some s => P (readyState s)
  | None => false
  end.

(** [step e w] is [None] when the platform cannot deliver [e] in [w]: a socket
    opens once, while connecting; it receives only while open; it closes once;
    a timer fires only while armed. *)
Definition step (e : Event) (w : World) : option World :=
  match e with
  | EConnect r u en => Some (exec (connect r u en) w)
  | EDisconnect => Some (exec disconnect w)
  | EReconnect => Some (exec reconnect w)
  | ESend m => Some (exec (send m) w)
  | EUpdatePresence p => Some (exec (updatePresence p) w)
  | ESendCamera p c => Some (exec (sendCamera p c) w)
  | ESubscribe t h => Some (exec (subscribe t h) w)
  | EUnsubscribe t h => Some (exec (unsubscribe t h) w)
  | EOn ev h => Some (exec (on ev h) w)
  | EOff ev h => Some (exec (off ev h) w)
  | ESockOpen i =>
      match sockets w !! i with
      | Some s =>
          if bool_decide (readyState s = CONNECTING)
          then Some (exec (onopen (on_resolve s))
                       (with_sockets (alter (set_readyState OPEN) i) w))
          else None
      | None => None
      end
  | ESockMessage i data =>
      if socket_is (λ r, bool_decide (r = OPEN)) i w
      then Some (exec (onmessage data) w)
      else None
  | ESockError i =>
      if socket_is (λ r, bool_decide (r ≠ CLOSED)) i w
      then Some (exec onerror w)
      else None
  | ESockClose i =>
      if socket_is (λ r, bool_decide (r ≠ CLOSED)) i w
      then Some (exec onclose (with_sockets (alter (set_readyState CLOSED) i) w))
      else None
  | ETimeout h =>
      if bool_decide (h ∈ (timeouts w).*1)
      then Some (exec reconnect_timer_fired (with_timeouts (filter (λ p, p.1 ≠ h)) w))
      else None
  | EInterval h =>
      if bool_decide (h ∈ (intervals w).*1)
      then Some (exec heartbeat_tick w)
      else None
  | EClock now => Some (with_clock now w)
  end.

Fixpoint run (es : list Event) (w : World) : option World :=
  match es with
  | [] => Some w
  | e :: es => w' ← step e w; run es w'
  end.

(** The world right after [new RealtimeClient(options)]. *)
Definition boot (options : RealtimeClientOptions) (g : Globals) (now : Z) (a : App) : World :=
  {| client := new_RealtimeClient options g;
     sockets := []; timeouts := []; intervals := [];
     next_handle := 1%positive; clock := now; app := a; invoked := [] |}.

Inductive reachable (w0 : World) : World → Prop :=
  | reachable_refl : reachable w0 w0
  | reachable_step e w w' : reachable w0 w → step e w = Some w' → reachable w0 w'.

End EventLoop.

(** ** The vocabulary of the properties

    Predicates on worlds and named traces, used to state what the client
    does. *)
Section Vocabulary.
Context `{Host}.

Definition keeps (P : World → Prop) {X} (m : Js X) : Prop :=
  ∀ w, P w → P (exec m w).

(** Properties of the world that the bookkeeping of sockets, queue and
    heartbeat cannot disturb. *)
Record Frame (P : World → Prop) : Prop := {
  frame_sockets : ∀ f w, P w → P (with_sockets f w);
  frame_intervals : ∀ f w, P w → P (with_intervals f w);
  frame_next_handle : ∀ h w, P w → P (with_next_handle h w);
  frame_ws : ∀ v w, P w → P (with_client (set_ws v) w);
  frame_queue : ∀ v w, P w → P (with_client (set_messageQueue v) w);
  frame_heartbeatTimer : ∀ v w, P w → P (with_client (set_heartbeatTimer v) w);
}.

(** ... nor the reconnect bookkeeping, nor [updatePresence] on arguments
    that are [ok]: what holds for every method that runs no callback. *)
Record Steady (P : World → Prop) (ok : PartialPresence → Prop) : Prop := {
  steady_frame : Frame P;
  steady_attempts0 : ∀ w, P w → P (with_client (set_reconnectAttempts 0) w);
  steady_presence : ∀ p, ok p → keeps P (updatePresence p);
  steady_schedule : keeps P scheduleReconnect;
  steady_clear : keeps P clearReconnect;
}.

(** The calls of a callback whose [updatePresence] arguments are [ok]. *)
Definition ok_call (ok : PartialPresence → Prop) (c : ApiCall) : Prop :=
  match c with
  | CallUpdatePresence p => ok p
  | _ => True
  end.

(** ... nor the callbacks the client runs, as long as it only runs function
    objects on triggers that are [allowed]. *)
Record Invariant (P : World → Prop) (ok : PartialPresence → Prop)
    (allowed : Hid → Trigger → Prop) : Prop := {
  inv_steady : Steady P ok;
  inv_calls : ∀ h t w, P w → allowed h t → Forall (ok_call ok) (r_calls (callback h t w));
  inv_invoke : ∀ h t a w,
    allowed h t → P w → P (with_app a (with_invoked (λ l, l ++ [(h, t)]) w));
  inv_lifecycle : ∀ h,
    allowed h OnConnected ∧ allowed h OnDisconnected ∧ ∀ s, allowed h (OnError s);
  inv_registry : ∀ w key set msg h,
    P w → handlers (client w) !! key = Some set → msg_type msg = Some key →
    h ∈ set → allowed h (OnMessage msg);
}.

(** Events whose effect on an invariant is settled case by case: they write
    fields no other event writes. *)
Definition special (e : Event) : bool :=
  match e with
  | EConnect _ _ _ | ESubscribe _ _ | EUnsubscribe _ _ | EOn _ _ | EOff _ _
  | ETimeout _ | EClock _ => true
  | _ => false
  end.

(** The pending timeouts are exactly the handle held in [reconnectTimer]. *)
Definition timer_inv (w : World) : Prop :=
  (timeouts w).*1 = match reconnectTimer (client w) with Some h => [h] | None => [] end.

(** *** Properties of the registries and of the application only

    A property that reads nothing but the subscriber registry, the lifecycle
    listeners, the application state and the record of callbacks run. *)
Record Bystander (P : World → Prop) : Prop := {
  by_frame : Frame P;
  by_timeouts : ∀ f w, P w → P (with_timeouts f w);
  by_clock : ∀ t w, P w → P (with_clock t w);
  by_roomId : ∀ v w, P w → P (with_client (set_roomId v) w);
  by_user : ∀ v w, P w → P (with_client (set_user v) w);
  by_reconnectTimer : ∀ v w, P w → P (with_client (set_reconnectTimer v) w);
  by_reconnectAttempts : ∀ v w, P w → P (with_client (set_reconnectAttempts v) w);
  by_storage : ∀ v w, P w → P (with_client (set_storage v) w);
}.

(** The trace of [n] automatic retries that all fail: the timer of retry [k]
    has handle [k], the socket it opens is socket number [k], and that socket
    closes without having opened. *)
Definition retries (n : nat) : list Event :=
  flat_map (λ k, [ETimeout (Pos.of_nat k); ESockClose k]) (seq 1 n).

(** [connect], whose socket closes without having opened, then [n - 1]
    failed retries: [n] consecutive failures to open. *)
Definition failures (room : string) (userId : option string) (e : Entropy) (n : nat) : list Event :=
  EConnect room userId e :: ESockClose 0 :: retries (n - 1).

(** The world after [k] consecutive failures of a client with no listener. *)
Record failing (room : string) (u : UserPresence) (k : nat) (w : World) : Prop := {
  fl_room : roomId (client w) = Some room;
  fl_user : user (client w) = Some u;
  fl_url : WebSocket_throws (url (client w)) = false;
  fl_queue : messageQueue (client w) = [];
  fl_listeners : eventHandlers (client w) = {| on_connected := []; on_disconnected := []; on_error := [] |};
  fl_heartbeat : heartbeatTimer (client w) = None;
  fl_intervals : intervals w = [];
  fl_timer : reconnectTimer (client w) = Some (Pos.of_nat k);
  fl_attempts : reconnectAttempts (client w) = k;
  fl_timeouts : timeouts w = [(Pos.of_nat k, reconnect_delay (k - 1))];
  fl_next : next_handle w = Pos.of_nat (S k);
  fl_sockets : length (sockets w) = k;
}.

(** The same client while retry [k] is in flight. *)
Record retrying (room : string) (u : UserPresence) (k : nat) (w : World) : Prop := {
  rt_room : roomId (client w) = Some room;
  rt_user : user (client w) = Some u;
  rt_url : WebSocket_throws (url (client w)) = false;
  rt_queue : messageQueue (client w) = [];
  rt_listeners : eventHandlers (client w) = {| on_connected := []; on_disconnected := []; on_error := [] |};
  rt_heartbeat : heartbeatTimer (client w) = None;
  rt_intervals : intervals w = [];
  rt_timer : reconnectTimer (client w) = None;
  rt_attempts : reconnectAttempts (client w) = k;
  rt_timeouts : timeouts w = [];
  rt_next : next_handle w = Pos.of_nat (S k);
  rt_ws : ws (client w) = Some k;
  rt_socket : ∃ cont, sockets w !! k = Some {| readyState := CONNECTING; sent := []; on_resolve := cont |};
  rt_sockets : length (sockets w) = S k;
}.

(** What [connect] resolves and stores, read off a world. *)
Definition persist (k v : string) (items : gmap string string) : gmap string string :=
  if setItem_throws k v then items else <[k := v]> items.

Definition generated_id (w : World) (e : Entropy) : string :=
  match randomUUID e with
  | Some uuid => uuid
  | None => "u_" +:+ random36 e +:+ "_" +:+ pretty (clock w)
  end.

Definition identity (w : World) (userId : option string) (e : Entropy) : UserPresence :=
  let items := storage (client w) in
  let existingId := or_else userId (or_else (items !! "exo-user-id") (generated_id w e)) in
  let items1 := persist "exo-user-id" existingId items in
  {| user_id := existingId;
     user_name := or_else (items1 !! "exo-user-name") (generateDisplayName e);
     user_color := or_else (items1 !! "exo-user-color") (generateColor e);
     joinedAt := clock w; lastSeen := clock w;
     selectedPlanetId := None; isViewingPlanet := None |}.

Definition persisted (w : World) (userId : option string) (e : Entropy) : gmap string string :=
  let u := identity w userId e in
  persist "exo-user-color" (user_color u)
    (persist "exo-user-name" (user_name u)
       (persist "exo-user-id" (user_id u) (storage (client w)))).

(** What matters of a world right after [new RealtimeClient]. *)
Record pristine (w : World) : Prop := {
  pr_queue : messageQueue (client w) = [];
  pr_listeners : eventHandlers (client w) = {| on_connected := []; on_disconnected := []; on_error := [] |};
  pr_heartbeat : heartbeatTimer (client w) = None;
  pr_timer : reconnectTimer (client w) = None;
  pr_attempts : reconnectAttempts (client w) = 0%nat;
  pr_sockets : sockets w = [];
  pr_timeouts : timeouts w = [];
  pr_intervals : intervals w = [];
  pr_next : next_handle w = 1%positive;
}.

(** The transport is open: [this.ws] is set and its [readyState] is [OPEN]. *)
Definition transport_open (w : World) : option nat :=
  i ← ws (client w);
  s ← sockets w !! i;
  if bool_decide (readyState s = OPEN) then Some i else None.

(** Every frame handed to the network so far, on any socket. *)
Definition frames (w : World) : list string :=
  concat (sent <$> sockets w).

(** The frames still waiting in the outbound queue. *)
Definition waiting (w : World) : list string :=
  JSON_stringify <$> messageQueue (client w).

Definition queued_by (message : RealtimeClientMessage) (w : World) : World :=
  with_client (set_messageQueue (messageQueue (client w) ++ [message])) w.

Definition transmitted_by (message : RealtimeClientMessage) (i : nat) (w : World) : World :=
  with_sockets (alter (transmit (JSON_stringify message)) i) w.

(** A payload the client has nothing to do with: it does not parse, it is
    [null], or no subscriber is registered under its tag. *)
Definition unhandled (w : World) (data : string) : bool :=
  match JSON_parse data with
  | None => true
  | Some msg =>
      match msg_type msg with
      | None => true
      | Some key => bool_decide (default [] (handlers (client w) !! key) = [])
      end
  end.

(** A call of [h] with a message whose tag is [type]. *)
Definition delivery (type : ServerTag) (h : Hid) (c : Hid * Trigger) : Prop :=
  c.1 = h ∧ ∃ m, c.2 = OnMessage m ∧ msg_type m = Some (tag_name type).

(** [h] is not subscribed to [type], and since the record of calls was [L] it
    has received no message of that tag. *)
Definition silenced (type : ServerTag) (h : Hid) (L : list (Hid * Trigger)) (w : World) : Prop :=
  (h ∉ default [] (handlers (client w) !! tag_name type))
  ∧ (∃ new, invoked w = L ++ new ∧ Forall (λ c, ¬ delivery type h c) new).

Definition transmits (data : list string) (s : Socket) : Socket :=
  {| readyState := readyState s; sent := sent s ++ data; on_resolve := on_resolve s |}.

(** The messages of a queue that socket [i] refuses, and those it takes. *)
Definition refused (i : nat) (queue : list RealtimeClientMessage) : list RealtimeClientMessage :=
  filter (λ m, send_throws i (JSON_stringify m) = true) queue.

Definition accepted (i : nat) (queue : list RealtimeClientMessage) : list RealtimeClientMessage :=
  filter (λ m, send_throws i (JSON_stringify m) = false) queue.

Definition flushed (i : nat) (queue : list RealtimeClientMessage) (w : World) : World :=
  with_client (set_messageQueue (messageQueue (client w) ++ refused i queue))
    (with_sockets (alter (transmits (JSON_stringify <$> accepted i queue)) i) w).

(** The world in which [onopen] calls [resolve]: counter reset, queue
    flushed, [connected] listeners notified. *)
Definition before_resolve (w : World) : World :=
  let w1 := with_client (set_messageQueue []) (with_client (set_reconnectAttempts 0) w) in
  let w2 := exec (for_of (messageQueue (client w)) send) w1 in
  exec (notify (on_connected (eventHandlers (client w2))) OnConnected) w2.






(** A property of the world that may depend on the heartbeat and on which
    listeners are registered: what it has to survive is listed method by
    method, and the callbacks that must be [allowed] are only those the
    client finds registered. *)
Record Custody (P : World → Prop) (ok : PartialPresence → Prop)
    (allowed : Hid → Trigger → Prop) : Prop := {
  cu_sockets : ∀ f w, P w → P (with_sockets f w);
  cu_ws : ∀ v w, P w → P (with_client (set_ws v) w);
  cu_queue : ∀ v w, P w → P (with_client (set_messageQueue v) w);
  cu_attempts0 : ∀ w, P w → P (with_client (set_reconnectAttempts 0) w);
  cu_stop : keeps P stopHeartbeat;
  cu_start : keeps P startHeartbeat;
  cu_presence : ∀ p, ok p → keeps P (updatePresence p);
  cu_schedule : keeps P scheduleReconnect;
  cu_clear : keeps P clearReconnect;
  cu_calls : ∀ h t w, P w → allowed h t → Forall (ok_call ok) (r_calls (callback h t w));
  cu_invoke : ∀ h t a w,
    allowed h t → P w → P (with_app a (with_invoked (λ l, l ++ [(h, t)]) w));
  cu_connected : ∀ w h,
    P w → h ∈ on_connected (eventHandlers (client w)) → allowed h OnConnected;
  cu_disconnected : ∀ w h,
    P w → h ∈ on_disconnected (eventHandlers (client w)) → allowed h OnDisconnected;
  cu_error : ∀ w h,
    P w → h ∈ on_error (eventHandlers (client w)) → allowed h (OnError "socket error");
  cu_registry : ∀ w key set msg h,
    P w → handlers (client w) !! key = Some set → msg_type msg = Some key →
    h ∈ set → allowed h (OnMessage msg);
}.

(** The active intervals are exactly the one held in [heartbeatTimer], at
    the heartbeat period. *)
Definition heartbeat_inv (w : World) : Prop :=
  intervals w = match heartbeatTimer (client w) with
                | Some h => [(h, HEARTBEAT_INTERVAL_MS)]
                | None => []
                end.

(** Every pending timeout waits between one and fifteen seconds. *)
Definition delays_bounded (w : World) : Prop :=
  Forall (λ p : positive * Z, 1000 ≤ p.2 ≤ 15000) (timeouts w).

(** The room is [r], the url is [u], and a user is present if [b] says so. *)
Definition anchored (r : option string) (u : string) (b : bool) (w : World) : Prop :=
  roomId (client w) = r ∧ url (client w) = u ∧ (b = true → is_Some (user (client w))).

(** Events other than a call of [connect]. *)
Definition not_connect (e : Event) : Prop :=
  match e with
  | EConnect _ _ _ => False
  | _ => True
  end.

Definition never_throws {X} (m : Js X) : Prop := ∀ w, completes m w.

(** The record of calls and the listeners are [L] and [E]. *)
Definition logged (L : list (Hid * Trigger)) (E : EventHandlers) (w : World) : Prop :=
  invoked w = L ∧ eventHandlers (client w) = E.

(** The [join] the continuation [k] of an open sends, read off the world in
    which the socket opens. *)
Definition rejoin (k : Continuation) (w : World) : list RealtimeClientMessage :=
  match k, user (client w), roomId (client w) with
  | AwaitConnect room, Some u, _ => [JoinRoomMessage room u]
  | AwaitReconnect, Some u, Some r => [JoinRoomMessage r u]
  | ThenScheduled, Some u, Some r => if truthy r then [JoinRoomMessage r u] else []
  | _, _, _ => []
  end.

(** The same world for the client: only the application state and the record
    of calls may differ. *)
Definition same_machine (w0 w : World) : Prop :=
  ∃ a L, w = with_app a (with_invoked (λ _, L) w0).

(** The fields the continuation of an open reads and writes. *)
Definition wired (ss : list Socket) (c : Client) (w : World) : Prop :=
  sockets w = ss ∧ ws (client w) = ws c ∧ messageQueue (client w) = messageQueue c
  ∧ reconnectAttempts (client w) = reconnectAttempts c
  ∧ user (client w) = user c ∧ roomId (client w) = roomId c.

(** The socket event that notifies the listeners of [ev]. *)
Definition socket_event (ev : LifecycleEvent) (i : nat) : Event :=
  match ev with
  | connected => ESockOpen i
  | disconnected => ESockClose i
  | failed => ESockError i
  end.

(** What the listeners of [ev] are called with. *)
Definition lifecycle_trigger (ev : LifecycleEvent) : Trigger :=
  match ev with
  | connected => OnConnected
  | disconnected => OnDisconnected
  | failed => OnError "socket error"
  end.

(** The heartbeat is in the state [hb], with the intervals [ints]. *)
Definition beating (hb : option positive) (ints : list (positive * Z)) (w : World) : Prop :=
  heartbeatTimer (client w) = hb ∧ intervals w = ints.




End Vocabulary.

(** ** A host to run the client on concrete inputs

    Function objects are numbered; each one appends its number to the
    application state, and the odd ones throw afterwards.  A payload is the
    text [null], a tag written after [type:], or malformed. *)
Module Probe.

#[local] Instance sig : Sig := {| Hid := nat; App := list nat; Msg := option string |}.

Definition parse (data : string) : option (option string) :=
  if bool_decide (data = "null") then Some None
  else if String.prefix "type:" data then Some (Some (String.substring 5 (String.length data - 5) data))
  else None.

Definition stringify (m : RealtimeClientMessage) : string :=
  match m with
  | JoinRoomMessage r u => "join " +:+ r +:+ " " +:+ user_id u
  | LeaveRoomMessage u => "leave " +:+ u
  | SelectPlanetMessage p u => "select " +:+ p +:+ " " +:+ u
  | UnselectPlanetMessage p u => "unselect " +:+ p +:+ " " +:+ u
  | JoinViewerMessage p u => "join_viewer " +:+ p +:+ " " +:+ u
  | LeaveViewerMessage p u => "leave_viewer " +:+ p +:+ " " +:+ u
  | CameraUpdateMessage p _ u => "camera " +:+ p +:+ " " +:+ u
  | PresenceHeartbeatMessage u ts => "heartbeat " +:+ u +:+ " " +:+ pretty ts
  end.

#[local] Instance host : Host := {|
  msg_type := λ m, m;
  JSON_parse := parse;
  JSON_stringify := stringify;
  callback := λ h _ w, {| r_app := app w ++ [h]; r_calls := []; r_throws := Nat.odd h |};
  send_throws := λ _ _, false;
  WebSocket_throws := λ _, false;
  setItem_throws := λ _ _, false;
|}.

Definition entropy : Entropy :=
  {| randomUUID := Some "3b241101-e2bb-4255-8caf-4136c566a962"; random36 := "k3x9";
     pick_animal := 2; pick_num := 417; pick_hue := 5 |}.

Definition globals : Globals :=
  {| env_VITE_REALTIME_URL := None; location := Some ("https:", "exo.example");
     localStorage := ∅ |}.

Definition fresh : World :=
  boot {| opt_url := None; opt_roomId := None |} globals 1700000000000 [].

End Probe.

(** Worlds of the probe host. *)
Section ProbeWorlds.
#[local] Existing Instance Probe.sig.
#[local] Existing Instance Probe.host.

Definition probe_join : string := "join R1 3b241101-e2bb-4255-8caf-4136c566a962".

Definition probe_options : RealtimeClientOptions := {| opt_url := None; opt_roomId := None |}.

(** A session in progress, and the same with three subscribers to [presence]. *)
Definition probe_session : World :=
  default Probe.fresh (run [EConnect "R1" None Probe.entropy; ESockOpen 0] Probe.fresh).

Definition probe_audience : World :=
  exec (for_of [1; 2; 3]%nat (subscribe presence)) probe_session.

Definition probe_after_unsubscribe : World :=
  default probe_audience
    (run [ESockMessage 0 "type:presence"] (exec (unsubscribe presence 2%nat) probe_audience)).

(** [connect] has been called and its socket is connecting. *)
Definition probe_connecting : World :=
  exec (connect "R1" None Probe.entropy) Probe.fresh.

(** The session after [disconnect], the close of its socket and the timer
    that close armed. *)
Definition probe_after_disconnect : World :=
  default Probe.fresh
    (run [ESockOpen 0; EDisconnect; ESockClose 0; ETimeout 2] probe_connecting).

Definition probe_closed : World :=
  default Probe.fresh (run [ESockClose 0] probe_session).

Definition probe_select : RealtimeClientMessage := SelectPlanetMessage "Kepler-22b" "u1".

Definition probe_unselect : RealtimeClientMessage := UnselectPlanetMessage "Kepler-22b" "u1".

(** Two messages sent while the socket of [connect] is connecting. *)
Definition probe_queued : World :=
  default Probe.fresh (run [ESend probe_select; ESend probe_unselect] probe_connecting).

(** The session with the listeners 4, 7 and 9 registered for errors, in that
    order. *)
Definition probe_listening : World :=
  exec (on failed 9%nat) (exec (on failed 7%nat) (exec (on failed 4%nat) probe_session)).

Definition probe_after_error : World :=
  default Probe.fresh (run [ESockError 0] (exec (off failed 7%nat) probe_listening)).

(** The socket of the session has closed and the application has called
    [reconnect]: socket 1 is connecting. *)
Definition probe_reconnecting : World :=
  default Probe.fresh (run [ESockClose 0; EReconnect] probe_session).

(** The probe host on a platform where [new WebSocket] throws. *)
Definition blocked : Host :=
  {| msg_type := λ m, m;
     JSON_parse := Probe.parse;
     JSON_stringify := Probe.stringify;
     callback := λ h _ w, {| r_app := app w ++ [h]; r_calls := []; r_throws := Nat.odd h |};
     send_throws := λ _ _, false;
     WebSocket_throws := λ _, true;
     setItem_throws := λ _ _, false |}.

End ProbeWorlds.

(** ** The projection layer: [RealtimeProvider]

    The React state of the provider is the application state of the client's
    world.  A state setter called with a function applies it to the latest
    state, so setters are modelled as immediate updates. *)
Module RealtimeContext.

(** The function objects the mount effect registers, in the order of the
    source: three lifecycle listeners, then seven subscribers. *)
Inductive ProviderFn :=
  | h_connected | h_disconnected | h_error
  | h_presence | h_selection_state | h_error_message | h_ack
  | h_camera | h_viewer_cameras | h_conflict.

#[export] Instance ProviderFn_eq_dec : EqDecision ProviderFn.
Proof. solve_decision. Defined.

Record ProviderState := {
  clientRef : bool;                       (* [clientRef.current] is set *)
  connectedFlag : bool;                   (* the state cell [isConnected] *)
  currentUser : option UserPresence;
  peers : list UserPresence;
  connectionError : option string;
  selectedPlanets : gmap string (list string);
  camerasInPlanet : gmap string (gmap string CameraState);
  lastConflict : option ConflictInfo;
  lastSelectAttemptRef : option string;
}.

Definition initial_state : ProviderState :=
  {| clientRef := false; connectedFlag := false; currentUser := None; peers := [];
     connectionError := None; selectedPlanets := ∅; camerasInPlanet := ∅;
     lastConflict := None; lastSelectAttemptRef := None |}.

Definition set_clientRef (v : bool) (a : ProviderState) : ProviderState :=
  {| clientRef := v; connectedFlag := connectedFlag a;
     currentUser := currentUser a; peers := peers a;
     connectionError := connectionError a; selectedPlanets := selectedPlanets a;
     camerasInPlanet := camerasInPlanet a; lastConflict := lastConflict a;
     lastSelectAttemptRef := lastSelectAttemptRef a |}.

Definition setIsConnected (v : bool) (a : ProviderState) : ProviderState :=
  {| clientRef := clientRef a; connectedFlag := v;
     currentUser := currentUser a; peers := peers a;
     connectionError := connectionError a; selectedPlanets := selectedPlanets a;
     camerasInPlanet := camerasInPlanet a; lastConflict := lastConflict a;
     lastSelectAttemptRef := lastSelectAttemptRef a |}.

Definition setCurrentUser (v : option UserPresence) (a : ProviderState) : ProviderState :=
  {| clientRef := clientRef a; connectedFlag := connectedFlag a; currentUser := v;
     peers := peers a; connectionError := connectionError a;
     selectedPlanets := selectedPlanets a; camerasInPlanet := camerasInPlanet a;
     lastConflict := lastConflict a; lastSelectAttemptRef := lastSelectAttemptRef a |}.

Definition setPeers (v : list UserPresence) (a : ProviderState) : ProviderState :=
  {| clientRef := clientRef a; connectedFlag := connectedFlag a;
     currentUser := currentUser a; peers := v;
     connectionError := connectionError a; selectedPlanets := selectedPlanets a;
     camerasInPlanet := camerasInPlanet a; lastConflict := lastConflict a;
     lastSelectAttemptRef := lastSelectAttemptRef a |}.

Definition setConnectionError (v : option string) (a : ProviderState) : ProviderState :=
  {| clientRef := clientRef a; connectedFlag := connectedFlag a;
     currentUser := currentUser a; peers := peers a;
     connectionError := v; selectedPlanets := selectedPlanets a;
     camerasInPlanet := camerasInPlanet a; lastConflict := lastConflict a;
     lastSelectAttemptRef := lastSelectAttemptRef a |}.

Definition setSelectedPlanets (f : gmap string (list string) → gmap string (list string))
    (a : ProviderState) : ProviderState :=
  {| clientRef := clientRef a; connectedFlag := connectedFlag a;
     currentUser := currentUser a; peers := peers a;
     connectionError := connectionError a; selectedPlanets := f (selectedPlanets a);
     camerasInPlanet := camerasInPlanet a; lastConflict := lastConflict a;
     lastSelectAttemptRef := lastSelectAttemptRef a |}.

Definition setCamerasInPlanet
    (f : gmap string (gmap string CameraState) → gmap string (gmap string CameraState))
    (a : ProviderState) : ProviderState :=
  {| clientRef := clientRef a; connectedFlag := connectedFlag a;
     currentUser := currentUser a; peers := peers a;
     connectionError := connectionError a; selectedPlanets := selectedPlanets a;
     camerasInPlanet := f (camerasInPlanet a); lastConflict := lastConflict a;
     lastSelectAttemptRef := lastSelectAttemptRef a |}.

Definition setLastConflict (v : option ConflictInfo) (a : ProviderState) : ProviderState :=
  {| clientRef := clientRef a; connectedFlag := connectedFlag a;
     currentUser := currentUser a; peers := peers a;
     connectionError := connectionError a; selectedPlanets := selectedPlanets a;
     camerasInPlanet := camerasInPlanet a; lastConflict := v;
     lastSelectAttemptRef := lastSelectAttemptRef a |}.

Definition set_lastSelectAttemptRef (v : option string) (a : ProviderState) : ProviderState :=
  {| clientRef := clientRef a; connectedFlag := connectedFlag a;
     currentUser := currentUser a; peers := peers a;
     connectionError := connectionError a; selectedPlanets := selectedPlanets a;
     camerasInPlanet := camerasInPlanet a; lastConflict := lastConflict a;
     lastSelectAttemptRef := v |}.

#[export] Instance sig : Sig :=
  {| Hid := ProviderFn; App := ProviderState; Msg := RealtimeServerMessage |}.

(** [new Map()] filled by a loop over [Object.entries(record)]. *)
Definition Map_of_entries {V} (record : gmap string V) : gmap string V :=
  foldl (λ m e, <[e.1 := e.2]> m) ∅ (map_to_list record).

(** The list [selectPlanet] stores: a copy with self pushed unless included. *)
Definition with_self (me : UserId) (entry : list UserId) : list UserId :=
  if bool_decide (me ∈ entry) then entry else entry ++ [me].

(** The updater shared by the conflict handler and [unselectPlanet]: self is
    filtered out and an emptied entry is deleted. *)
Definition without_self (me : UserId) (key : PlanetId)
    (prev : gmap string (list string)) : gmap string (list string) :=
  let entry := filter (λ u, u ≠ me) (default [] (prev !! key)) in
  if bool_decide (length entry = 0%nat) then delete key prev else <[key := entry]> prev.

Definition quiet (a : ProviderState) : Reaction :=
  {| r_app := a; r_calls := []; r_throws := false |}.

(** The bodies of the ten arrow functions of the mount effect.  [subscribe<K>]
    and [on] type each of them for the trigger of its own tag; the last case
    is excluded by that typing. *)
Definition provider_callback (h : ProviderFn) (t : Trigger) (w : World) : Reaction :=
  let a := app w in
  match h, t with
  | h_connected, OnConnected =>
      quiet (setConnectionError None (setIsConnected true a))
  | h_disconnected, OnDisconnected =>
      quiet (setIsConnected false a)
  | h_error, OnError msg =>
      quiet (setConnectionError (Some (or_else (Some msg) "Realtime error")) a)
  | h_presence, OnMessage (PresenceUpdateMessage users) =>
      quiet (setPeers users a)
  | h_selection_state, OnMessage (SelectionStateMessage selected) =>
      quiet (setSelectedPlanets (λ _, Map_of_entries selected) a)
  | h_error_message, OnMessage (ErrorMessage _ _ message) =>
      quiet (setConnectionError (Some (or_else (Some message) "Realtime error")) a)
  | h_ack, OnMessage (AckMessage _ _) =>
      quiet a
  | h_camera, OnMessage (ServerCameraUpdateMessage planetId cam userId) =>
      quiet (setCamerasInPlanet (λ prev,
        <[planetId := <[userId := cam]> (default ∅ (prev !! planetId))]> prev) a)
  | h_viewer_cameras, OnMessage (ViewerCamerasMessage planetId cameras) =>
      quiet (setCamerasInPlanet (λ prev, <[planetId := Map_of_entries cameras]> prev) a)
  | h_conflict, OnMessage (ConflictMessage planetId lockedBy reason) =>
      match user (client w) with
      | None => quiet a
      | Some me =>
          match lastSelectAttemptRef a with
          | Some attempt =>
              if truthy attempt && bool_decide (planetId = attempt)
              then
                {| r_app :=
                     set_lastSelectAttemptRef None
                       (setLastConflict
                          (Some {| conflict_planetId := planetId;
                                   conflict_lockedBy := lockedBy;
                                   conflict_reason := reason |})
                          (setSelectedPlanets (without_self (user_id me) planetId) a));
                   r_calls :=
                     [CallUpdatePresence
                        {| p_id := None; p_name := None; p_color := None; p_joinedAt := None;
                           p_selectedPlanetId := Some None; p_isViewingPlanet := None |}];
                   r_throws := false |}
              else quiet a
          | None => quiet a
          end
      end
  | _, _ => quiet a
  end.

(** What the provider takes from the platform. *)
Class Platform := {
  parse : string → option RealtimeServerMessage;
  stringify : RealtimeClientMessage → string;
  socket_send_throws : nat → string → bool;
  constructor_throws : string → bool;
  quota_exceeded : string → string → bool;
}.

#[export] Instance host `{Platform} : Host := {|
  msg_type := λ m, Some (tag_name (server_tag m));
  JSON_parse := parse;
  JSON_stringify := stringify;
  callback := provider_callback;
  send_throws := socket_send_throws;
  WebSocket_throws := constructor_throws;
  setItem_throws := quota_exceeded;
|}.

Section Provider.
Context `{Platform}.

Definition setState (f : ProviderState → ProviderState) : Js unit :=
  a <- gets app ;; modify (with_app (f a)).

(** *** The promises of the provider

    [clientRef] is not part of the context value: the client is private to
    the provider, [connect] is only called by the mount effect and
    [reconnect] only by [retryConnection].  So the promise behind an
    [AwaitConnect] socket is the one the mount effect chained its [.then] and
    [.catch] on, the promise behind an [AwaitReconnect] socket is one that
    [retryConnection] chained on, and nothing of the provider is chained on a
    scheduled reconnect.  None of the [.then] functions can throw, so a
    [.catch] function runs on a rejected promise only. *)

(** [.then(() => { setCurrentUser(client.getCurrentUser()) })] *)
Definition connect_fulfilled : Js unit :=
  u <- getCurrentUser ;;
  setState (setCurrentUser u).

(** [.catch((e) => { ... })] of the mount effect. *)
Definition connect_rejected : Js unit :=
  setState (setConnectionError (Some "Failed to connect to realtime server")) ;;
  setState (setIsConnected false).

(** [.then(() => { ... })] of [retryConnection]. *)
Definition reconnect_fulfilled : Js unit :=
  open <- isConnected ;;
  setState (setIsConnected open) ;;
  setState (setConnectionError None).

(** [.catch(() => setConnectionError('Failed to reconnect'))] *)
Definition reconnect_rejected : Js unit :=
  setState (setConnectionError (Some "Failed to reconnect")).

(** [promise.then(onFulfilled).catch(onRejected)] for an [onFulfilled] that
    does not throw: the reaction of a settled promise runs at the end of the
    turn, and on a pending promise both wait for the socket. *)
Definition then_catch (promise : Promise) (onFulfilled onRejected : Js unit) : Js unit :=
  match promise with
  | Pending => ret tt
  | Fulfilled => onFulfilled
  | Rejected => onRejected
  end.

(** What the provider chained on the promise behind a socket, to run when
    the socket opens and the continuation [k] of the client has run. *)
Definition fulfilled (k : Continuation) : Js unit :=
  match k with
  | AwaitConnect _ => connect_fulfilled
  | AwaitReconnect => reconnect_fulfilled
  | ThenScheduled => ret tt
  end.

(** The mount effect, up to its [return].  The reactions chained on the
    promise of [connect] run once the effect has returned. *)
Definition mount (roomId : string) (e : Entropy) : Js unit :=
  setState (set_clientRef true) ;;
  promise <- connect roomId None e ;;
  on connected h_connected ;;
  on disconnected h_disconnected ;;
  on failed h_error ;;
  subscribe presence h_presence ;;
  subscribe selection_state h_selection_state ;;
  subscribe error h_error_message ;;
  subscribe ack h_ack ;;
  subscribe camera h_camera ;;
  subscribe viewer_cameras h_viewer_cameras ;;
  subscribe conflict h_conflict ;;
  then_catch promise connect_fulfilled connect_rejected.


Definition selectPlanet (planetId : string) : Js bool :=
  mounted <- gets (λ w, clientRef (app w)) ;;
  if negb mounted then ret false
  else
    me <- getCurrentUser ;;
    match me with
    | None => ret false
    | Some me =>
        setState (setSelectedPlanets (λ prev,
          <[planetId := with_self (user_id me) (default [] (prev !! planetId))]> prev)) ;;
        setState (set_lastSelectAttemptRef (Some planetId)) ;;
        updatePresence
          {| p_id := None; p_name := None; p_color := None; p_joinedAt := None;
             p_selectedPlanetId := Some (Some planetId); p_isViewingPlanet := None |} ;;
        send (SelectPlanetMessage planetId (user_id me)) ;;
        ret true
    end.

Definition unselectPlanet (planetId : string) : Js unit :=
  mounted <- gets (λ w, clientRef (app w)) ;;
  if negb mounted then ret tt
  else
    me <- getCurrentUser ;;
    match me with
    | None => ret tt
    | Some me =>
        setState (setSelectedPlanets (without_self (user_id me) planetId)) ;;
        updatePresence
          {| p_id := None; p_name := None; p_color := None; p_joinedAt := None;
             p_selectedPlanetId := Some None; p_isViewingPlanet := None |} ;;
        send (UnselectPlanetMessage planetId (user_id me))
    end.

Definition updateCamera (planetId : string) (cam : CameraState) : Js unit :=
  mounted <- gets (λ w, clientRef (app w)) ;;
  if negb mounted then ret tt
  else sendCamera planetId cam.

Definition joinPlanetViewer (planetId : string) : Js unit :=
  mounted <- gets (λ w, clientRef (app w)) ;;
  if negb mounted then ret tt
  else
    me <- getCurrentUser ;;
    match me with
    | None => ret tt
    | Some me =>
        updatePresence
          {| p_id := None; p_name := None; p_color := None; p_joinedAt := None;
             p_selectedPlanetId := None; p_isViewingPlanet := Some (Some planetId) |} ;;
        send (JoinViewerMessage planetId (user_id me))
    end.

(** The updater of [leavePlanetViewer]: the camera of self leaves the inner
    map of the planet, and an emptied inner map is deleted. *)
Definition without_camera (me : UserId) (key : PlanetId)
    (prev : gmap string (gmap string CameraState)) : gmap string (gmap string CameraState) :=
  let inner := delete me (default ∅ (prev !! key)) in
  if bool_decide (size inner = 0%nat) then delete key prev else <[key := inner]> prev.

(** [planetId] is [None] when the argument is left out.  [me] is read before
    [updatePresence] runs, so [me.isViewingPlanet] is the planet viewed so
    far. *)
Definition leavePlanetViewer (planetId : option string) : Js unit :=
  mounted <- gets (λ w, clientRef (app w)) ;;
  if negb mounted then ret tt
  else
    me <- getCurrentUser ;;
    match me with
    | None => ret tt
    | Some me =>
        let pid :=
          match planetId with
          | Some p => if truthy p then Some p else isViewingPlanet me
          | None => isViewingPlanet me
          end in
        updatePresence
          {| p_id := None; p_name := None; p_color := None; p_joinedAt := None;
             p_selectedPlanetId := None; p_isViewingPlanet := Some None |} ;;
        match pid with
        | Some pid =>
            if truthy pid
            then
              send (LeaveViewerMessage pid (user_id me)) ;;
              setState (setCamerasInPlanet (without_camera (user_id me) pid))
            else ret tt
        | None => ret tt
        end
    end.

Definition retryConnection : Js unit :=
  mounted <- gets (λ w, clientRef (app w)) ;;
  if negb mounted then ret tt
  else
    promise <- reconnect ;;
    then_catch promise reconnect_fulfilled reconnect_rejected.

Definition clearConflict : Js unit :=
  setState (setLastConflict None).

(** One turn of the event loop as the mounted provider sees it.  The calls on
    the client are the provider's own (the mount effect, the actions, the
    cleanup); the platform delivers the events of sockets and timers.  When a
    socket opens, [onopen] resolves its promise, and the reaction the
    provider chained on it runs in the same turn, after the continuation of
    the client. *)
Definition deliver (e : Event) (w : World) : option World :=
  match e with
  | ESockOpen i =>
      s ← sockets w !! i ;
      w' ← step e w ;
      Some (exec (fulfilled (on_resolve s)) w')
  | ESockMessage _ _ | ESockError _ | ESockClose _
  | ETimeout _ | EInterval _ | EClock _ => step e w
  | _ => None
  end.

End Provider.

Section Outcomes.
Context `{Platform}.

Definition rolled_back (me : UserId) (planetId lockedBy : string) (reason : option string)
    (a : ProviderState) : ProviderState :=
  set_lastSelectAttemptRef None
    (setLastConflict
       (Some {| conflict_planetId := planetId; conflict_lockedBy := lockedBy;
                conflict_reason := reason |})
       (setSelectedPlanets (without_self me planetId) a)).

(** What C2 promises of a conflict delivered in [w]: self is gone from the
    entry of the planet and [lastConflict] describes the conflict. *)
Definition conflict_rolls_back (me : UserId) (planetId lockedBy : string)
    (reason : option string) (w : World) : Prop :=
  let w' := exec (dispatch (ConflictMessage planetId lockedBy reason)) w in
  (me ∉ default [] (selectedPlanets (app w') !! planetId))
  ∧ lastConflict (app w') =
      Some {| conflict_planetId := planetId; conflict_lockedBy := lockedBy;
              conflict_reason := reason |}.

(** A trigger to which one function of the provider reacts, by an update
    [f] of the state that does not depend on the client, all the others
    doing nothing. *)
Definition sole_reaction (h0 : ProviderFn) (t : Trigger) (f : ProviderState → ProviderState) : Prop :=
  (∀ h w, h ≠ h0 → provider_callback h t w = quiet (app w))
  ∧ (∀ w, provider_callback h0 t w = quiet (f (app w))).

(** The provider state is [a] and the lifecycle listeners are [E]. *)
Definition showing (a : ProviderState) (E : EventHandlers) (w : World) : Prop :=
  app w = a ∧ eventHandlers (client w) = E.

(** The transport is [T]: a property [send] and the heartbeat keep. *)
Definition plugged (T : option nat) (w : World) : Prop := transport_open w = T.

Definition selecting_presence (planetId : option string) : PartialPresence :=
  {| p_id := None; p_name := None; p_color := None; p_joinedAt := None;
     p_selectedPlanetId := Some planetId; p_isViewingPlanet := None |}.

Definition viewing_presence (planetId : option string) : PartialPresence :=
  {| p_id := None; p_name := None; p_color := None; p_joinedAt := None;
     p_selectedPlanetId := None; p_isViewingPlanet := Some planetId |}.

(** The planet [leavePlanetViewer] leaves: its argument if that is a
    non-empty string, else the planet the user views. *)
Definition planet_left (planetId : option string) (me : UserPresence) : option string :=
  match planetId with
  | Some p => if truthy p then Some p else isViewingPlanet me
  | None => isViewingPlanet me
  end.







(** A select attempt for [planetId] is outstanding: the client has a user
    and the recorded attempt is that planet, a non-empty string. *)
Definition outstanding (planetId : string) (w : World) : Prop :=
  is_Some (user (client w)) ∧ lastSelectAttemptRef (app w) = Some planetId
  ∧ truthy planetId = true.

End Outcomes.

(** A platform to run the provider on concrete inputs: nothing throws, and
    the wire format is left opaque. *)
Definition quiet_platform : Platform :=
  {| parse := λ _, None; stringify := λ _, "";
     socket_send_throws := λ _ _, false; constructor_throws := λ _, false;
     quota_exceeded := λ _ _, false |}.


(** Worlds of the provider on the quiet platform. *)
Section ProviderWorlds.
#[local] Existing Instance quiet_platform.

(** The provider mounted in room R1, before its socket opens. *)
Definition mounted : World :=
  exec (mount "R1" Probe.entropy)
    (boot {| opt_url := None; opt_roomId := Some "R1" |} Probe.globals 1700000000000
       initial_state).

Definition me : UserPresence := identity mounted None Probe.entropy.

Definition selecting (planetId : string) : World := exec (selectPlanet planetId) mounted.

Definition probe_camera : CameraState :=
  {| position := (0, 0, 5); target := (0, 0, 0); zoom := 1; timestamp := 1700000000500 |}.

Definition probe_peer : UserPresence :=
  {| user_id := "u2"; user_name := "Lyra 204"; user_color := "hsl(220 80% 60%)";
     joinedAt := 1700000000100; lastSeen := 1700000000400;
     selectedPlanetId := None; isViewingPlanet := Some "Kepler-22b" |}.


(** The socket of the mount effect fails and closes, Retry is pressed, and
    the scheduled reconnect replaces the socket Retry has just created. *)
Definition overtaken : World :=
  default mounted
    (w1 ← deliver (ESockError 0) mounted;
     w2 ← deliver (ESockClose 0) w1;
     deliver (ETimeout 1) (exec retryConnection w2)).

End ProviderWorlds.

End RealtimeContext.

(** ** Components reading the projection: [PresenceBar] and
    [PlanetSelectionBadge] *)
Module Multiplayer.

Inductive Status := StatusError | StatusConnecting | StatusOnline.

(** The [status] memo of [PresenceBar]; [connectionError] is tested for
    truthiness. *)
Definition status (isConnected : bool) (connectionError : option string) : Status :=
  if negb (falsy connectionError) then StatusError
  else if negb isConnected then StatusConnecting
  else StatusOnline.

(** The Retry button of [PresenceBar] is rendered under the same test. *)
Definition retry_offered (connectionError : option string) : bool :=
  negb (falsy connectionError).

(** [xs.slice(0, end)] for an integer [end]: a negative [end] counts from the
    end of the array. *)
Definition slice0 {A} (xs : list A) (end_ : Z) : list A :=
  if bool_decide (end_ < 0)
  then take (Z.to_nat (Z.max (Z.of_nat (length xs) + end_) 0)) xs
  else take (Z.to_nat end_) xs.

(** The [usersById] memo: a [Map] filled in the order of [peers], a later
    peer replacing an earlier one with the same id. *)
Definition usersById (peers : list UserPresence) : gmap string UserPresence :=
  foldl (λ m u, <[user_id u := u]> m) ∅ peers.

(** What [PlanetSelectionBadge] renders: nothing, or the avatars of the
    visible ids that are known peers and the count shown after [+]. *)
Record Badge := {
  avatars : list UserPresence;
  more : option Z;
}.

Definition PlanetSelectionBadge (peers : list UserPresence) (selectedBy : list UserId)
    (maxVisible : Z) : option Badge :=
  let visibleIds := slice0 selectedBy maxVisible in
  let extra := Z.max 0 (Z.of_nat (length selectedBy) - Z.of_nat (length visibleIds)) in
  if bool_decide (length selectedBy = 0%nat) then None
  else Some {| avatars := omap (λ id, usersById peers !! id) visibleIds;
               more := if bool_decide (0 < extra) then Some extra else None |}.

End Multiplayer.

(** * Properties *)

Section Keeps.
Context `{Host}.

(** The value a method returns does not matter to a caller that drops it. *)
Lemma exec_then_ret {X} (m : Js X) w : exec (m ;; ret tt) w = exec m w.
Proof. unfold exec, bind, ret. by destruct (m w) as [[x|] w']. Qed.

Lemma keeps_ret P {X} (x : X) : keeps P (ret x).
Proof. by intros w. Qed.

Lemma keeps_throw P {X} : keeps P (@throw _ X).
Proof. by intros w. Qed.

Lemma keeps_gets P {X} (f : World → X) : keeps P (gets f).
Proof. by intros w. Qed.

Lemma keeps_modify (P : World → Prop) f : (∀ w, P w → P (f w)) → keeps P (modify f).
Proof. intros Hf w; apply Hf. Qed.

Lemma keeps_assign (P : World → Prop) f :
  (∀ w, P w → P (with_client f w)) → keeps P (assign f).
Proof. apply keeps_modify. Qed.

Lemma keeps_bind P {X Y} (m : Js X) (k : X → Js Y) :
  keeps P m → (∀ x, keeps P (k x)) → keeps P (bind m k).
Proof.
  intros Hm Hk w Hw. specialize (Hm w Hw).
  unfold exec, bind in *. destruct (m w) as [[x|] w']; simpl in *; [|done].
  by apply Hk.
Qed.

Lemma keeps_try P {X} (m h : Js X) : keeps P m → keeps P h → keeps P (try_catch m h).
Proof.
  intros Hm Hh w Hw. specialize (Hm w Hw).
  unfold exec, try_catch in *. destruct (m w) as [[x|] w']; simpl in *; [done|].
  by apply Hh.
Qed.

Lemma keeps_for_of P {X} (xs : list X) (body : X → Js unit) :
  (∀ x, x ∈ xs → keeps P (body x)) → keeps P (for_of xs body).
Proof.
  induction xs as [|x xs IH]; intros Hb; simpl.
  - apply keeps_ret.
  - apply keeps_bind; [apply Hb; left|intros _; apply IH].
    intros y Hy; apply Hb; by right.
Qed.

End Keeps.

Ltac keeps_by leaf :=
  repeat first
    [ solve [leaf]
    | apply keeps_ret
    | apply keeps_throw
    | apply keeps_gets
    | apply keeps_bind; [ | intros ? ]
    | apply keeps_try
    | match goal with
      | |- keeps _ (match ?t with _ => _ end) => destruct t
      end ].

Ltac keeps_structure := keeps_by fail.

Section FrameLemmas.
Context `{Host}.
Variable P : World → Prop.
Hypothesis HF : Frame P.

Lemma keeps_setInterval d : keeps P (setInterval d).
Proof.
  intros w Hw. unfold exec, setInterval; simpl.
  by apply (frame_next_handle _ HF), (frame_intervals _ HF).
Qed.

Lemma keeps_clearInterval h : keeps P (clearInterval h).
Proof. apply keeps_modify, (frame_intervals _ HF). Qed.

Lemma keeps_push_queue m : keeps P (push_queue m).
Proof.
  unfold push_queue. keeps_structure. apply keeps_assign, (frame_queue _ HF).
Qed.

Lemma keeps_WebSocket_send i d : keeps P (WebSocket_send i d).
Proof.
  unfold WebSocket_send. keeps_structure. apply keeps_modify, (frame_sockets _ HF).
Qed.

Lemma keeps_WebSocket_close i : keeps P (WebSocket_close i).
Proof. apply keeps_modify, (frame_sockets _ HF). Qed.

Lemma keeps_send m : keeps P (send m).
Proof.
  unfold send, isConnected.
  keeps_by ltac:(auto using keeps_push_queue, keeps_WebSocket_send).
Qed.

Lemma keeps_sendCamera p c : keeps P (sendCamera p c).
Proof. unfold sendCamera, getCurrentUser. keeps_by ltac:(apply keeps_send). Qed.

Lemma keeps_stopHeartbeat : keeps P stopHeartbeat.
Proof.
  unfold stopHeartbeat. keeps_by ltac:(apply keeps_clearInterval).
  apply keeps_assign, (frame_heartbeatTimer _ HF).
Qed.

Lemma keeps_startHeartbeat : keeps P startHeartbeat.
Proof.
  unfold startHeartbeat.
  keeps_by ltac:(auto using keeps_stopHeartbeat, keeps_setInterval).
  apply keeps_assign, (frame_heartbeatTimer _ HF).
Qed.

Lemma keeps_heartbeat_tick : keeps P heartbeat_tick.
Proof.
  unfold heartbeat_tick, getCurrentUser, Date_now. keeps_by ltac:(apply keeps_send).
Qed.

End FrameLemmas.

Section SteadyLemmas.
Context `{Host}.
Variable P : World → Prop.
Variable ok : PartialPresence → Prop.
Hypothesis HS : Steady P ok.

Local Abbreviation HF := (steady_frame _ _ HS).

Local Ltac leaf :=
  first
    [ apply (keeps_send _ HF) | apply (keeps_sendCamera _ HF)
    | apply (keeps_stopHeartbeat _ HF) | apply (keeps_startHeartbeat _ HF)
    | apply (keeps_WebSocket_close _ HF)
    | apply (steady_schedule _ _ HS) | apply (steady_clear _ _ HS) ].

Lemma keeps_rejected k : keeps P (rejected k).
Proof. destruct k; simpl; first [leaf | apply keeps_ret]. Qed.

Lemma keeps_openSocket k : keeps P (openSocket k).
Proof.
  unfold openSocket. keeps_by ltac:(apply keeps_rejected).
  - apply keeps_modify, (frame_sockets _ HF).
  - apply keeps_assign, (frame_ws _ HF).
Qed.

Lemma keeps_disconnect : keeps P disconnect.
Proof.
  unfold disconnect.
  keeps_by leaf.
  apply keeps_assign, (frame_ws _ HF).
Qed.

Lemma keeps_reconnect : keeps P reconnect.
Proof.
  unfold reconnect, isConnected. keeps_by ltac:(apply keeps_openSocket).
Qed.

Lemma keeps_resolved k : keeps P (resolved k).
Proof.
  unfold resolved, getCurrentUser.
  destruct k; keeps_by leaf.
Qed.

Lemma keeps_api_call c : ok_call ok c → keeps P (api_call c).
Proof.
  destruct c; simpl; intros Hok;
    first [leaf | apply keeps_disconnect
          | apply keeps_bind; [apply keeps_reconnect|intros ?; apply keeps_ret]
          | by apply (steady_presence _ _ HS)].
Qed.

Lemma keeps_api_calls cs : Forall (ok_call ok) cs → keeps P (for_of cs api_call).
Proof.
  intros Hcs. apply keeps_for_of. intros c Hc. apply keeps_api_call.
  by eapply Forall_forall.
Qed.

(** The timeout callback, from the world in which it has cleared
    [reconnectTimer]. *)
Lemma keeps_reconnect_timer_fired w :
  P (with_client (set_reconnectTimer None) w) → P (exec reconnect_timer_fired w).
Proof.
  intros Hw. unfold reconnect_timer_fired, exec, bind, assign, modify, gets; simpl.
  destruct (falsy _); [done|].
  change (P (exec (openSocket ThenScheduled ;; ret tt) (with_client (set_reconnectTimer None) w))).
  rewrite exec_then_ret. by apply keeps_openSocket.
Qed.

End SteadyLemmas.

Section InvariantLemmas.
Context `{Host}.
Variable P : World → Prop.
Variable ok : PartialPresence → Prop.
Variable allowed : Hid → Trigger → Prop.
Hypothesis HI : Invariant P ok allowed.

Local Abbreviation HS := (inv_steady _ _ _ HI).
Local Abbreviation HF := (steady_frame _ _ HS).

Lemma keeps_invoke h t : allowed h t → keeps P (invoke h t).
Proof.
  intros Ha w Hw. unfold invoke, exec, bind, modify, gets; simpl.
  set (r := callback h t w).
  pose proof (inv_invoke _ _ _ HI h t (r_app r) w Ha Hw) as Hstart.
  pose proof (keeps_api_calls _ _ HS (r_calls r) (inv_calls _ _ _ HI h t w Hw Ha) _ Hstart)
    as Hloop.
  unfold exec in Hloop.
  destruct (for_of (r_calls r) api_call _) as [[[]|] w']; simpl in *;
    by destruct (r_throws r).
Qed.

Lemma keeps_notify set t : (∀ h, h ∈ set → allowed h t) → keeps P (notify set t).
Proof.
  intros Ha. apply keeps_for_of. intros h Hh.
  apply keeps_try; [by apply keeps_invoke, Ha|apply keeps_ret].
Qed.

Lemma keeps_dispatch msg : keeps P (dispatch msg).
Proof.
  unfold dispatch. destruct (msg_type msg) as [key|] eqn:Hkey; [|apply keeps_throw].
  intros w Hw. unfold exec, bind, gets; simpl.
  destruct (handlers (client w) !! key) as [set|] eqn:Hset.
  - case_bool_decide; [done|].
    apply keeps_notify; [|done]. intros h Hh.
    by eapply (inv_registry _ _ _ HI).
  - by case_bool_decide.
Qed.

Lemma keeps_onmessage data : keeps P (onmessage data).
Proof.
  unfold onmessage. keeps_by ltac:(apply keeps_dispatch).
Qed.

Lemma keeps_onerror : keeps P onerror.
Proof.
  unfold onerror. apply keeps_bind; [apply keeps_gets|intros set].
  apply keeps_notify. intros h _. apply (inv_lifecycle _ _ _ HI).
Qed.

Lemma keeps_onclose : keeps P onclose.
Proof.
  unfold onclose. apply keeps_bind; [apply keeps_gets|intros set].
  apply keeps_bind; [|intros _; apply (steady_schedule _ _ HS)].
  apply keeps_notify. intros h _. apply (inv_lifecycle _ _ _ HI).
Qed.

Lemma keeps_onopen k : keeps P (onopen k).
Proof.
  unfold onopen.
  apply keeps_bind; [apply keeps_assign, (steady_attempts0 _ _ HS)|intros _].
  apply keeps_bind; [apply keeps_gets|intros queue].
  apply keeps_bind; [apply keeps_assign, (frame_queue _ HF)|intros _].
  apply keeps_bind; [apply keeps_for_of; intros m _; apply (keeps_send _ HF)|intros _].
  apply keeps_bind; [apply keeps_gets|intros set].
  apply keeps_bind;
    [apply keeps_notify; intros h _; apply (inv_lifecycle _ _ _ HI)|intros _].
  apply (keeps_resolved _ _ HS).
Qed.

Lemma step_keeps e w w' :
  special e = false → (∀ p, e = EUpdatePresence p → ok p) →
  P w → step e w = Some w' → P w'.
Proof.
  intros Hs Hp Hw Hstep. destruct e; try discriminate Hs; simpl in Hstep;
    repeat match type of Hstep with
           | (if ?b then _ else _) = Some _ => destruct b; [|discriminate Hstep]
           | match ?o with Some _ => _ | None => None end = Some _ =>
               destruct o; [|discriminate Hstep]
           end;
    injection Hstep as <-.
  - by apply (keeps_disconnect _ _ HS).
  - by apply (keeps_reconnect _ _ HS).
  - by apply (keeps_send _ HF).
  - by apply (steady_presence _ _ HS _ (Hp _ eq_refl)).
  - by apply (keeps_sendCamera _ HF).
  - by apply keeps_onopen, (frame_sockets _ HF).
  - by apply keeps_onmessage.
  - by apply keeps_onerror.
  - by apply keeps_onclose, (frame_sockets _ HF).
  - by apply (keeps_heartbeat_tick _ HF).
Qed.

End InvariantLemmas.

(** *** At most one reconnect timer *)

Section Timers.
Context `{Host}.

Lemma timer_inv_frame : Frame timer_inv.
Proof. by split. Qed.

Lemma timer_inv_scheduleReconnect : keeps timer_inv scheduleReconnect.
Proof.
  unfold scheduleReconnect.
  apply keeps_bind; [apply (keeps_stopHeartbeat _ timer_inv_frame)|intros _].
  intros w Hw. unfold exec, bind, gets; simpl.
  destruct (reconnectTimer (client w)) eqn:Ht; [done|].
  unfold timer_inv in *; simpl. rewrite Ht in Hw.
  rewrite fmap_app, Hw. done.
Qed.

Lemma fst_singleton_filter (l : list (positive * Z)) h :
  l.*1 = [h] → filter (λ p, p.1 ≠ h) l = [].
Proof.
  destruct l as [|[h' d] [|? ?]]; try discriminate. simpl. intros [= ->].
  rewrite filter_cons_False; [done|]. simpl. auto.
Qed.

Lemma timer_inv_clearReconnect : keeps timer_inv clearReconnect.
Proof.
  intros w Hw. unfold clearReconnect, exec, bind, gets; simpl.
  unfold timer_inv in *.
  destruct (reconnectTimer (client w)) eqn:Ht; simpl; [|by rewrite Ht].
  by rewrite (fst_singleton_filter _ _ Hw).
Qed.

Lemma timer_inv_steady : Steady timer_inv (λ _, True).
Proof.
  constructor.
  - apply timer_inv_frame.
  - done.
  - intros p _ w Hw. unfold updatePresence, getCurrentUser, exec, bind, gets; simpl.
    by destruct (user (client w)).
  - apply timer_inv_scheduleReconnect.
  - apply timer_inv_clearReconnect.
Qed.

Lemma any_call_ok cs : Forall (ok_call (λ _, True)) cs.
Proof. apply Forall_forall. by intros []. Qed.

Lemma timer_inv_invariant : Invariant timer_inv (λ _, True) (λ _ _, True).
Proof.
  constructor; [apply timer_inv_steady|intros; apply any_call_ok|done..].
Qed.

Lemma timer_inv_step e w w' : timer_inv w → step e w = Some w' → timer_inv w'.
Proof.
  intros Hw Hstep. destruct (special e) eqn:Hs;
    [|by eapply (step_keeps _ _ _ timer_inv_invariant)].
  destruct e; try discriminate Hs; simpl in Hstep.
  - injection Hstep as <-. revert w Hw. unfold connect.
    keeps_by ltac:(first
      [ apply (keeps_openSocket _ _ timer_inv_steady)
      | apply keeps_assign; by intros ]).
    all: unfold setItem, generateId, Date_now.
    all: keeps_by ltac:(apply keeps_assign; by intros).
  - by injection Hstep as <-.
  - by injection Hstep as <-.
  - by injection Hstep as <-.
  - by injection Hstep as <-.
  - case_bool_decide as Hin; [|done]. injection Hstep as <-.
    apply (keeps_reconnect_timer_fired _ _ timer_inv_steady).
    unfold timer_inv in *; simpl.
    destruct (reconnectTimer (client w)) as [h'|]; [|by rewrite Hw in Hin; inversion Hin].
    rewrite Hw in Hin. apply list_elem_of_singleton in Hin as ->.
    by rewrite (fst_singleton_filter _ _ Hw).
  - by injection Hstep as <-.
Qed.

Lemma timer_inv_reachable w0 w : timer_inv w0 → reachable w0 w → timer_inv w.
Proof. induction 2; eauto using timer_inv_step. Qed.

Lemma timer_inv_at_most_one w : timer_inv w → (length (timeouts w) ≤ 1)%nat.
Proof.
  unfold timer_inv. intros Hw. rewrite <- (length_fmap fst), Hw.
  destruct (reconnectTimer _); simpl; lia.
Qed.

End Timers.

Section BystanderLemmas.
Context `{Host}.
Variable P : World → Prop.
Hypothesis HB : Bystander P.

Local Abbreviation HF := (by_frame _ HB).

Lemma bystander_steady : Steady P (λ _, True).
Proof.
  constructor.
  - exact HF.
  - intros w. apply (by_reconnectAttempts _ HB).
  - intros p _. unfold updatePresence, getCurrentUser, Date_now.
    keeps_by ltac:(apply keeps_assign, (by_user _ HB)).
  - unfold scheduleReconnect.
    keeps_by ltac:(first
      [ apply (keeps_stopHeartbeat _ HF)
      | apply keeps_assign, (by_reconnectAttempts _ HB)
      | apply keeps_assign, (by_reconnectTimer _ HB) ]).
    intros w Hw. unfold exec, setTimeout; simpl.
    by apply (frame_next_handle _ HF), (by_timeouts _ HB).
  - unfold clearReconnect, clearTimeout.
    keeps_by ltac:(first
      [ apply keeps_modify, (by_timeouts _ HB)
      | apply keeps_assign, (by_reconnectAttempts _ HB)
      | apply keeps_assign, (by_reconnectTimer _ HB) ]).
Qed.

Lemma keeps_connect room userId e : keeps P (connect room userId e).
Proof.
  unfold connect.
  keeps_by ltac:(first
    [ apply (keeps_openSocket _ _ bystander_steady)
    | apply keeps_assign, (by_roomId _ HB)
    | apply keeps_assign, (by_user _ HB) ]).
  all: unfold setItem, generateId, getItem, Date_now.
  all: keeps_by ltac:(apply keeps_assign, (by_storage _ HB)).
Qed.

Lemma keeps_timeout h w :
  P w → P (exec reconnect_timer_fired (with_timeouts (filter (λ p, p.1 ≠ h)) w)).
Proof.
  intros Hw. apply (keeps_reconnect_timer_fired _ _ bystander_steady).
  by apply (by_reconnectTimer _ HB), (by_timeouts _ HB).
Qed.

End BystanderLemmas.

Section BystanderStep.
Context `{Host}.
Variable P : World → Prop.
Variable allowed : Hid → Trigger → Prop.
Hypothesis HB : Bystander P.
Hypothesis HI : Invariant P (λ _, True) allowed.

(** For such a property only the four registration calls need a look. *)
Lemma bystander_step e w w' :
  (∀ t h, e = ESubscribe t h → keeps P (subscribe t h)) →
  (∀ t h, e = EUnsubscribe t h → keeps P (unsubscribe t h)) →
  (∀ ev h, e = EOn ev h → keeps P (on ev h)) →
  (∀ ev h, e = EOff ev h → keeps P (off ev h)) →
  P w → step e w = Some w' → P w'.
Proof.
  intros Hsub Hunsub Hon Hoff Hw Hstep. destruct (special e) eqn:Hs;
    [|by eapply (step_keeps _ _ _ HI)].
  destruct e; try discriminate Hs; simpl in Hstep.
  - injection Hstep as <-. by apply (keeps_connect _ HB).
  - injection Hstep as <-. by apply (Hsub _ _ eq_refl).
  - injection Hstep as <-. by apply (Hunsub _ _ eq_refl).
  - injection Hstep as <-. by apply (Hon _ _ eq_refl).
  - injection Hstep as <-. by apply (Hoff _ _ eq_refl).
  - case_bool_decide; [|done]. injection Hstep as <-. by apply (keeps_timeout _ HB).
  - injection Hstep as <-. by apply (by_clock _ HB).
Qed.

End BystanderStep.

(** Symbolic execution: unfold the monad and the field updates, then let
    [simpl] project the record fields. *)
Ltac js_unfold :=
  cbv beta iota zeta delta
    [exec completes bind ret throw try_catch gets modify assign
     with_client with_sockets with_timeouts with_intervals with_next_handle
     with_clock with_app with_invoked
     set_ws set_roomId set_user set_messageQueue set_handlers
     set_heartbeatTimer set_reconnectTimer set_reconnectAttempts set_storage
     set_eventHandlers].

Ltac js := repeat (progress (js_unfold; simpl)).

(** The same on a world given by its fields, where unfolding the projections
    is enough. *)
Ltac js_run :=
  lazy beta iota zeta delta
    [exec completes bind ret throw try_catch gets modify assign
     with_client with_sockets with_timeouts with_intervals with_next_handle
     with_clock with_app with_invoked
     set_ws set_roomId set_user set_messageQueue set_handlers
     set_heartbeatTimer set_reconnectTimer set_reconnectAttempts set_storage
     set_eventHandlers
     client sockets timeouts intervals next_handle clock app invoked
     ws url roomId user messageQueue handlers heartbeatTimer reconnectTimer
     reconnectAttempts storage eventHandlers fst snd].

Section Backoff.
Context `{Host}.

Lemma failing_fire room u k w :
  truthy room = true → failing room u k w →
  ∃ w', step (ETimeout (Pos.of_nat k)) w = Some w' ∧ retrying room u k w'.
Proof.
  intros Hroom [? ? ? ? ? ? ? ? ? ? ? ?].
  destruct w as [c socks touts ints next now a inv]; simpl in *.
  destruct c as [wsv urlv roomv userv queue regs hb rt att sto evh]; simpl in *.
  subst. unfold step; simpl.
  rewrite bool_decide_eq_true_2 by (by left).
  eexists; split; [reflexivity|].
  unfold reconnect_timer_fired, openSocket. js.
  rewrite filter_cons_False by (simpl; auto). rewrite filter_nil.
  rewrite Hroom. js. rewrite fl_url0. js.
  split; simpl; try done.
  - eexists. by apply list_lookup_middle.
  - rewrite length_app; simpl; lia.
Qed.

Lemma retrying_close room u k w :
  retrying room u k w →
  ∃ w', step (ESockClose k) w = Some w' ∧ failing room u (S k) w'.
Proof.
  intros [? ? ? ? ? ? ? ? ? ? ? ? [cont Hsock] ?].
  destruct w as [c socks touts ints next now a inv]; simpl in *.
  destruct c as [wsv urlv roomv userv queue regs hb rt att sto evh]; simpl in *.
  subst. unfold step, socket_is; simpl. rewrite Hsock; simpl.
  eexists; split; [reflexivity|].
  unfold onclose, notify, scheduleReconnect, stopHeartbeat, setTimeout. js.
  split; simpl; try done.
  - by rewrite Nat.sub_0_r.
  - by rewrite length_alter.
Qed.

Lemma run_cons e es w : run (e :: es) w = step e w ≫= run es.
Proof. done. Qed.

Lemma bind_Some {A B} (f : A → option B) (x : A) : Some x ≫= f = f x.
Proof. done. Qed.

Lemma run_app es1 es2 w : run (es1 ++ es2) w = run es1 w ≫= run es2.
Proof.
  revert w. induction es1 as [|e es1 IH]; intros w; [done|].
  rewrite <- app_comm_cons, !run_cons. destruct (step e w); simpl; [apply IH|done].
Qed.

Lemma failing_retries room u n k w :
  truthy room = true → failing room u k w →
  ∃ w', run (flat_map (λ k, [ETimeout (Pos.of_nat k); ESockClose k]) (seq k n)) w = Some w'
        ∧ failing room u (k + n) w'.
Proof.
  intros Hroom. revert k w. induction n as [|n IH]; intros k w Hw.
  - exists w. by rewrite Nat.add_0_r.
  - cbn [seq flat_map]. rewrite run_app, !run_cons.
    destruct (failing_fire _ _ _ _ Hroom Hw) as (w1 & -> & Hw1).
    rewrite bind_Some, run_cons.
    destruct (retrying_close _ _ _ _ Hw1) as (w2 & -> & Hw2).
    cbn [run]. rewrite !bind_Some.
    destruct (IH _ _ Hw2) as (w3 & Hrun & Hw3).
    exists w3. split; [done|]. by replace (k + S n)%nat with (S k + n)%nat by lia.
Qed.

Lemma connect_spec room userId e w :
  exec (connect room userId e) w =
  exec (openSocket (AwaitConnect room))
    (with_client (set_user (Some (identity w userId e)))
       (with_client (set_storage (persisted w userId e))
          (with_client (set_roomId (Some room)) w))).
Proof.
  unfold connect, persisted, identity, persist, generated_id, generateId, getItem, setItem, Date_now.
  destruct w as [c socks touts ints next now a inv].
  destruct c as [wsv urlv roomv userv queue regs hb rt att sto evh].
  destruct (randomUUID e) as [uuid|]; js.
  all: repeat match goal with
       | |- context [setItem_throws ?k ?v] => destruct (setItem_throws k v) eqn:?; js
       end; reflexivity.
Qed.

Lemma boot_pristine o g now a : pristine (boot o g now a).
Proof. by split. Qed.

Lemma pristine_failing room userId e w :
  pristine w → WebSocket_throws (url (client w)) = false →
  ∃ w', run [EConnect room userId e; ESockClose 0] w = Some w'
        ∧ failing room (identity w userId e) 1 w'.
Proof.
  intros [? ? ? ? ? ? ? ? ?] Hurl.
  rewrite run_cons. cbn [step]. rewrite bind_Some, connect_spec.
  generalize (identity w userId e) (persisted w userId e). intros u items.
  destruct w as [c socks touts ints next now a inv]; simpl in *.
  destruct c as [wsv urlv roomv userv queue regs hb rt att sto evh]; simpl in *.
  subst. unfold openSocket. js. rewrite Hurl. js.
  eexists; split; [reflexivity|].
  unfold onclose, notify, scheduleReconnect, stopHeartbeat, setTimeout. js.
  by split.
Qed.

(** After [n] consecutive failures to open, starting from a new client. *)
Lemma failures_failing room userId e w n :
  truthy room = true → (1 ≤ n)%nat →
  pristine w → WebSocket_throws (url (client w)) = false →
  ∃ w', run (failures room userId e n) w = Some w'
        ∧ failing room (identity w userId e) n w'.
Proof.
  intros Hroom Hn Hw Hurl.
  destruct (pristine_failing room userId e w Hw Hurl) as (w1 & Hrun1 & Hw1).
  destruct (failing_retries _ _ (n - 1) _ _ Hroom Hw1) as (w2 & Hrun2 & Hw2).
  replace (1 + (n - 1))%nat with n in Hw2 by lia.
  exists w2. split; [|done].
  unfold failures.
  change (EConnect room userId e :: ESockClose 0 :: retries (n - 1))
    with ([EConnect room userId e; ESockClose 0] ++ retries (n - 1)).
  by rewrite run_app, Hrun1, bind_Some.
Qed.

End Backoff.

Section Send.
Context `{Host}.

Lemma send_spec m w :
  send m w =
  (Normal tt,
   match transport_open w with
   | Some i => if send_throws i (JSON_stringify m) then queued_by m w else transmitted_by m i w
   | None => queued_by m w
   end).
Proof.
  unfold send, transport_open, isConnected, WebSocket_send, push_queue,
    queued_by, transmitted_by.
  destruct w as [c socks touts ints next now a inv].
  destruct c as [wsv urlv roomv userv queue regs hb rt att sto evh].
  js. destruct wsv as [i|]; js; [|done].
  destruct (socks !! i) as [s|] eqn:Hs; js; [|done].
  case_bool_decide as Hopen; js; [|done].
  rewrite Hs, Hopen. js.
  by destruct (send_throws i (JSON_stringify m)).
Qed.

Lemma frames_transmit d i l :
  (i < length l)%nat → concat (sent <$> alter (transmit d) i l) ≡ₚ concat (sent <$> l) ++ [d].
Proof.
  revert i. induction l as [|s l IH]; intros [|i] Hi; csimpl in *; try lia.
  - rewrite <- !(assoc_L (++)). apply Permutation_app_head, Permutation_app_comm.
  - rewrite IH by lia. by rewrite (assoc_L (++)).
Qed.

Lemma transport_open_lt w i : transport_open w = Some i → (i < length (sockets w))%nat.
Proof.
  unfold transport_open. destruct (ws (client w)) as [j|]; [|done]. simpl.
  destruct (sockets w !! j) eqn:Hs; [|done]. simpl.
  case_bool_decide; [|done]. intros [= <-]. by eapply lookup_lt_Some.
Qed.

(** One [send] accounts for its message: it joins the frames on the wire or
    the frames waiting, and nothing leaves either. *)
Lemma send_conserves m w :
  frames (exec (send m) w) ++ waiting (exec (send m) w)
  ≡ₚ (frames w ++ waiting w) ++ [JSON_stringify m].
Proof.
  unfold exec. rewrite send_spec. simpl.
  assert (Hq : frames (queued_by m w) ++ waiting (queued_by m w)
               ≡ₚ (frames w ++ waiting w) ++ [JSON_stringify m]).
  { unfold frames, waiting, queued_by; simpl. by rewrite fmap_app, (assoc_L (++)). }
  destruct (transport_open w) as [i|] eqn:Hopen; [|done].
  destruct (send_throws i (JSON_stringify m)); [done|].
  unfold frames, waiting, transmitted_by; simpl.
  rewrite frames_transmit by by apply transport_open_lt.
  rewrite <- !(assoc_L (++)). apply Permutation_app_head, Permutation_app_comm.
Qed.

(** The flush loop of [onopen], for any queue. *)
Lemma flush_conserves queue w :
  frames (exec (for_of queue send) w) ++ waiting (exec (for_of queue send) w)
  ≡ₚ (frames w ++ waiting w) ++ (JSON_stringify <$> queue).
Proof.
  revert w. induction queue as [|m queue IH]; intros w; simpl.
  - by rewrite (right_id_L [] (++)).
  - unfold exec, bind in *. rewrite send_spec; simpl.
    pose proof (send_conserves m w) as Hm. unfold exec in Hm. rewrite send_spec in Hm.
    simpl in Hm. rewrite IH, Hm. by rewrite <- (assoc_L (++)).
Qed.

End Send.

Section Dispatch.
Context `{Host}.

Lemma onmessage_unhandled w data :
  unhandled w data = true → onmessage data w = (Normal tt, w).
Proof.
  unfold unhandled, onmessage, dispatch, try_catch.
  destruct (JSON_parse data) as [msg|]; [|done].
  destruct (msg_type msg) as [key|]; [|done].
  unfold bind, gets; simpl.
  destruct (handlers (client w) !! key) as [set|]; simpl.
  - intros ->%bool_decide_eq_true. done.
  - intros _. by case_bool_decide.
Qed.

Lemma logged_bystander L : Bystander (λ w, invoked w = L).
Proof. by repeat split. Qed.

Lemma api_calls_invoked cs w : invoked (exec (for_of cs api_call) w) = invoked w.
Proof.
  by apply (keeps_api_calls _ _ (bystander_steady _ (logged_bystander (invoked w)))
              cs (any_call_ok cs)).
Qed.

Lemma invoke_invoked h t w : invoked (exec (invoke h t) w) = invoked w ++ [(h, t)].
Proof.
  unfold invoke, exec, bind, gets, modify; simpl.
  set (r := callback h t w).
  pose proof (api_calls_invoked (r_calls r)
    (with_app (r_app r) (with_invoked (λ l, l ++ [(h, t)]) w))) as Hcalls.
  unfold exec in Hcalls.
  destruct (for_of (r_calls r) api_call _) as [[[]|] w']; simpl in *;
    by destruct (r_throws r).
Qed.

(** The loop over a [Set] of callbacks runs every member, in order, whatever
    the members throw, and ends normally. *)
Lemma notify_spec set t w :
  (notify set t w).1 = Normal tt
  ∧ invoked (exec (notify set t) w) = invoked w ++ ((λ h, (h, t)) <$> set).
Proof.
  revert w. induction set as [|h set IH]; intros w.
  - split; [done|]. unfold notify, exec; simpl. by rewrite (right_id_L [] (++)).
  - unfold notify in *. cbn [for_of]. unfold exec, bind, try_catch in *.
    pose proof (invoke_invoked h t w) as Hh. unfold exec in Hh.
    destruct (invoke h t w) as [[[]|] w1]; simpl in *.
    + destruct (IH w1) as [Hn Hl]. split; [done|].
      by rewrite Hl, Hh, <- (assoc_L (++)).
    + destruct (IH w1) as [Hn Hl]. split; [done|].
      by rewrite Hl, Hh, <- (assoc_L (++)).
Qed.

Lemma dispatch_spec msg key set w :
  msg_type msg = Some key → handlers (client w) !! key = Some set →
  (dispatch msg w).1 = Normal tt
  ∧ invoked (exec (dispatch msg) w) = invoked w ++ ((λ h, (h, OnMessage msg)) <$> set).
Proof.
  intros Hkey Hset. unfold dispatch, exec, bind, gets. rewrite Hkey; simpl. rewrite Hset.
  case_bool_decide as Hlen; [|apply notify_spec].
  apply nil_length_inv in Hlen as ->. simpl. by rewrite (right_id_L [] (++)).
Qed.

Lemma dispatch_notify msg key set w :
  msg_type msg = Some key → handlers (client w) !! key = Some set →
  exec (dispatch msg) w = exec (notify set (OnMessage msg)) w.
Proof.
  intros Hkey Hset. unfold dispatch, exec, bind, gets. rewrite Hkey; simpl. rewrite Hset.
  case_bool_decide as Hlen; [|done]. by apply nil_length_inv in Hlen as ->.
Qed.

(** Registration order: [subscribe] keeps the members in place and puts a new
    one last. *)
Lemma subscribe_spec type h w :
  handlers (client (exec (subscribe type h) w)) =
  <[tag_name type := Set_add h (default [] (handlers (client w) !! tag_name type))]>
    (handlers (client w)).
Proof. done. Qed.

Lemma unsubscribe_spec type h w :
  handlers (client (exec (unsubscribe type h) w)) =
  alter (Set_delete h) (tag_name type) (handlers (client w)).
Proof. done. Qed.

Lemma subscribe_all type hs w :
  NoDup hs → default [] (handlers (client w) !! tag_name type) = [] →
  handlers (client (exec (for_of hs (subscribe type)) w)) !! tag_name type
  = (if hs is [] then handlers (client w) !! tag_name type else Some hs).
Proof.
  intros Hnd Hempty.
  assert (Hgen : ∀ pre w, NoDup (pre ++ hs) →
    default [] (handlers (client w) !! tag_name type) = pre →
    default [] (handlers (client (exec (for_of hs (subscribe type)) w)) !! tag_name type)
    = pre ++ hs ∧
    (hs ≠ [] → is_Some (handlers (client (exec (for_of hs (subscribe type)) w)) !! tag_name type))).
  { clear. induction hs as [|h hs IH]; intros pre w Hnd Hpre.
    - by rewrite (right_id_L [] (++)).
    - cbn [for_of]. unfold exec, bind in *.
      change (subscribe type h w) with (Normal tt, exec (subscribe type h) w). simpl.
      assert (Hfresh : h ∉ pre).
      { apply NoDup_app in Hnd as (_ & Hd & _). intros Hin. apply (Hd _ Hin). left. }
      destruct (IH (pre ++ [h]) (exec (subscribe type h) w)) as [Hl Hs].
      + by rewrite <- (assoc_L (++)).
      + rewrite subscribe_spec, lookup_insert_eq; simpl. rewrite Hpre.
        unfold Set_add. by rewrite decide_False.
      + split; [by rewrite Hl, <- (assoc_L (++))|]. intros _.
        destruct hs as [|h' hs']; [|by apply Hs].
        simpl. rewrite lookup_insert_eq. eauto. }
  destruct hs as [|h hs']; [done|].
  destruct (Hgen [] w Hnd Hempty) as [Hl [set Hs]]; [done|].
  rewrite Hs in Hl |- *. simpl in Hl. by rewrite Hl.
Qed.

End Dispatch.

Section Unsubscribe.
Context `{Host}.

Lemma tag_name_inj t1 t2 : tag_name t1 = tag_name t2 → t1 = t2.
Proof. by destruct t1, t2. Qed.

Lemma silenced_bystander type h L : Bystander (silenced type h L).
Proof. constructor; [constructor|..]; intros ? ? Hw; exact Hw. Qed.

Lemma silenced_invariant type h L :
  Invariant (silenced type h L) (λ _, True) (λ h' t, ¬ delivery type h (h', t)).
Proof.
  constructor.
  - apply bystander_steady, silenced_bystander.
  - intros. apply any_call_ok.
  - intros h' t a w Hok [Hout (new & Hl & Hnew)]. split; [done|].
    exists (new ++ [(h', t)]). simpl. rewrite Hl, (assoc_L (++)). split; [done|].
    apply Forall_app. split; [done|]. by constructor.
  - intros h'. split; [|split; [|intros s]]; by intros [_ (m & [=] & _)].
  - intros w key set msg h' [Hout _] Hset Hkey Hin [Hh (m & [= <-] & Hm)].
    simpl in Hh. subst h'. rewrite Hm in Hkey. injection Hkey as <-.
    by rewrite Hset in Hout.
Qed.

Lemma silenced_step type h L e w w' :
  e ≠ ESubscribe type h → silenced type h L w → step e w = Some w' → silenced type h L w'.
Proof.
  intros He. apply (bystander_step _ _ (silenced_bystander type h L) (silenced_invariant type h L)).
  - intros t h' -> w0 [Hout Hlog]. split; [|done].
    rewrite subscribe_spec. destruct (decide (t = type)) as [->|Ht].
    + rewrite lookup_insert_eq; simpl. unfold Set_add. case_decide; [done|].
      apply not_elem_of_app. split; [done|]. apply not_elem_of_cons. split; [|apply not_elem_of_nil].
      intros ->. done.
    + rewrite lookup_insert_ne; [done|]. intros Heq. by apply tag_name_inj in Heq.
  - intros t h' -> w0 [Hout Hlog]. split; [|done].
    rewrite unsubscribe_spec, lookup_alter. case_decide as Heq; [|done].
    rewrite <- Heq in Hout. destruct (handlers (client w0) !! tag_name t); simpl in *; [|done].
    unfold Set_delete. rewrite list_elem_of_filter. tauto.
  - by intros ev h' -> w0 Hw0.
  - by intros ev h' -> w0 Hw0.
Qed.

Lemma silenced_run type h L es w w' :
  Forall (λ e, e ≠ ESubscribe type h) es →
  silenced type h L w → run es w = Some w' → silenced type h L w'.
Proof.
  intros Hes. revert w. induction Hes as [|e es He Hes IH]; intros w Hw; simpl.
  - by intros [= <-].
  - destruct (step e w) as [w1|] eqn:Hstep; [|done]. simpl.
    apply IH. by eapply silenced_step.
Qed.

Lemma unsubscribe_silences type h w :
  silenced type h (invoked w) (exec (unsubscribe type h) w).
Proof.
  split.
  - rewrite unsubscribe_spec, lookup_alter_eq.
    destruct (handlers (client w) !! tag_name type); simpl; [|apply not_elem_of_nil].
    unfold Set_delete. rewrite list_elem_of_filter. tauto.
  - exists []. by rewrite (right_id_L [] (++)).
Qed.

Lemma Set_add_NoDup h (s : list Hid) : NoDup s → NoDup (Set_add h s).
Proof.
  intros Hs. unfold Set_add. case_decide; [done|].
  apply NoDup_app. repeat split; [done| |apply NoDup_singleton].
  intros x Hx ->%list_elem_of_singleton. done.
Qed.

Lemma Set_add_elem h (s : list Hid) : h ∈ Set_add h s.
Proof.
  unfold Set_add. case_decide; [done|]. apply elem_of_app. right. left.
Qed.

Lemma Set_add_twice h (s : list Hid) : Set_add h (Set_add h s) = Set_add h s.
Proof. unfold Set_add at 1. by rewrite decide_True by apply Set_add_elem. Qed.

Lemma Set_delete_twice h (s : list Hid) : Set_delete h (Set_delete h s) = Set_delete h s.
Proof.
  unfold Set_delete. induction s as [|x s IH]; [done|].
  destruct (decide (x = h)) as [->|Hx].
  - by rewrite !filter_cons_False by auto.
  - rewrite filter_cons_True by done. rewrite filter_cons_True by done. by rewrite IH.
Qed.

Lemma subscribe_twice type h w :
  exec (subscribe type h) (exec (subscribe type h) w) = exec (subscribe type h) w.
Proof.
  destruct w as [c socks touts ints next now a inv].
  destruct c as [wsv urlv roomv userv queue regs hb rt att sto evh].
  unfold subscribe. js. rewrite lookup_insert_eq. simpl.
  by rewrite insert_insert_eq, Set_add_twice.
Qed.

Lemma unsubscribe_twice type h w :
  exec (unsubscribe type h) (exec (unsubscribe type h) w) = exec (unsubscribe type h) w.
Proof.
  destruct w as [c socks touts ints next now a inv].
  destruct c as [wsv urlv roomv userv queue regs hb rt att sto evh].
  unfold unsubscribe. js. do 2 f_equal.
  rewrite alter_alter_eq. apply alter_ext. intros s _. apply Set_delete_twice.
Qed.

Lemma never_called h t (set : list Hid) :
  h ∉ set → filter (λ c : Hid * Trigger, c.1 = h) ((λ h', (h', t)) <$> set) = [].
Proof.
  induction set as [|x set IH]; [done|].
  intros [Hx Hset]%not_elem_of_cons. rewrite fmap_cons.
  rewrite filter_cons_False by (simpl; congruence). by apply IH.
Qed.

(** In a set, each member is called once per dispatch. *)
Lemma called_once h t (set : list Hid) :
  NoDup set → h ∈ set →
  length (filter (λ c : Hid * Trigger, c.1 = h) ((λ h', (h', t)) <$> set)) = 1%nat.
Proof.
  induction 1 as [|x set Hx Hnd IH]; [by intros ?%not_elem_of_nil|].
  intros Hin. rewrite fmap_cons. destruct (decide (x = h)) as [->|Hne].
  - rewrite filter_cons_True by done. by rewrite never_called.
  - rewrite filter_cons_False by done. apply IH.
    by apply elem_of_cons in Hin as [->|].
Qed.

End Unsubscribe.

Section Flush.
Context `{Host}.

Lemma transport_open_queued m w : transport_open (queued_by m w) = transport_open w.
Proof. done. Qed.

Lemma transport_open_transmitted m i w :
  transport_open w = Some i → transport_open (transmitted_by m i w) = Some i.
Proof.
  unfold transport_open, transmitted_by. simpl.
  destruct (ws (client w)) as [j|]; [|done]. simpl.
  destruct (sockets w !! j) as [s|] eqn:Hs; [|done]. simpl.
  case_bool_decide as Hopen; [|done]. intros [= ->].
  rewrite list_lookup_alter_eq, Hs. simpl. by rewrite bool_decide_eq_true_2.
Qed.

(** The flush loop of [onopen] on an open transport: the accepted messages go
    out in queue order, the refused ones are queued again in queue order. *)
Lemma flush_spec queue i w :
  transport_open w = Some i →
  for_of queue send w = (Normal tt, flushed i queue w).
Proof.
  revert w. induction queue as [|m queue IH]; intros w Hopen.
  - unfold flushed, refused, accepted. rewrite !filter_nil, fmap_nil. simpl. f_equal.
    destruct w as [c socks touts ints next now a inv].
    destruct c as [wsv urlv roomv userv q regs hb rt att sto evh].
    js. rewrite (right_id_L [] (++)). do 2 f_equal.
    rewrite list_alter_id; [done|]. intros [r fs k]. unfold transmits. simpl.
    by rewrite (right_id_L [] (++)).
  - cbn [for_of]. unfold bind. rewrite send_spec, Hopen.
    destruct (send_throws i (JSON_stringify m)) eqn:Hthrows.
    + rewrite IH by done. f_equal.
      unfold flushed, refused, accepted, queued_by.
      rewrite filter_cons_True by done. rewrite filter_cons_False by congruence.
      destruct w as [c socks touts ints next now a inv].
      destruct c as [wsv urlv roomv userv q regs hb rt att sto evh].
      js. by rewrite <- (assoc_L (++)).
    + rewrite IH by by apply transport_open_transmitted. f_equal.
      unfold flushed, refused, accepted, transmitted_by.
      rewrite filter_cons_False by congruence. rewrite filter_cons_True by done.
      destruct w as [c socks touts ints next now a inv].
      destruct c as [wsv urlv roomv userv q regs hb rt att sto evh].
      js. f_equal. rewrite list_alter_alter_eq. apply list_alter_ext; [|done].
      intros [r fs k] _. unfold transmits, transmit. simpl.
      by rewrite <- (assoc_L (++)).
Qed.

End Flush.

Section Open.
Context `{Host}.

Lemma for_of_send_normal queue w : (for_of queue send w).1 = Normal tt.
Proof.
  revert w. induction queue as [|m queue IH]; intros w; [done|].
  cbn [for_of]. unfold bind. rewrite send_spec. apply IH.
Qed.

Lemma onopen_resolved k w : onopen k w = resolved k (before_resolve w).
Proof.
  unfold onopen, before_resolve, exec, bind, assign, modify, gets. simpl.
  pose proof (for_of_send_normal (messageQueue (client w))
    (with_client (set_messageQueue []) (with_client (set_reconnectAttempts 0) w))) as Hflush.
  destruct (for_of _ send _) as [[[]|] w2]; [|done]. simpl.
  pose proof (notify_spec (on_connected (eventHandlers (client w2))) OnConnected w2)
    as [Hnotify _].
  by destruct (notify _ _ w2) as [[[]|] w3].
Qed.





(** After [startHeartbeat] exactly the interval it armed is held, at the
    fixed period. *)
Lemma startHeartbeat_running w :
  ∃ h, heartbeatTimer (client (exec startHeartbeat w)) = Some h
       ∧ (h, HEARTBEAT_INTERVAL_MS) ∈ intervals (exec startHeartbeat w).
Proof.
  unfold startHeartbeat, stopHeartbeat, clearInterval, setInterval. js.
  destruct (heartbeatTimer (client w)); js;
    (eexists; split; [done|]; apply elem_of_app; right; left).
Qed.

Lemma send_user m w : user (client (exec (send m) w)) = user (client w).
Proof.
  unfold exec. rewrite send_spec. simpl.
  destruct (transport_open w); [|done]. by destruct (send_throws _ _).
Qed.

End Open.

Section Identity.
Context `{Host}.






Lemma openSocket_spec k w :
  exec (openSocket k) w =
  if WebSocket_throws (url (client w)) then exec (rejected k) w
  else with_client (set_ws (Some (length (sockets w))))
         (with_sockets (λ l, l ++ [{| readyState := CONNECTING; sent := []; on_resolve := k |}]) w).
Proof.
  unfold openSocket, exec, bind, gets. simpl. destruct (WebSocket_throws _); [|done].
  by destruct (rejected k w) as [[[]|] w'].
Qed.

Lemma reconnect_timer_fired_spec w :
  exec reconnect_timer_fired w =
  if falsy (roomId (client w)) then with_client (set_reconnectTimer None) w
  else exec (openSocket ThenScheduled) (with_client (set_reconnectTimer None) w).
Proof.
  unfold reconnect_timer_fired, exec, bind, assign, modify, gets. simpl.
  destruct (falsy _); [done|].
  by destruct (openSocket ThenScheduled _) as [[?|] ?].
Qed.






End Identity.

Section Rejoin.
Context `{Host}.

Lemma step_open i s w :
  sockets w !! i = Some s → readyState s = CONNECTING →
  step (ESockOpen i) w =
  Some (exec (resolved (on_resolve s))
          (before_resolve (with_sockets (alter (set_readyState OPEN) i) w))).
Proof.
  intros Hs Hr. cbn [step]. rewrite Hs, bool_decide_eq_true_2 by done.
  unfold exec. by rewrite onopen_resolved.
Qed.



End Rejoin.

Section Disconnect.
Context `{Host}.

Lemma cleared_handle h (l : list (positive * Z)) : h ∉ (filter (λ p, p.1 ≠ h) l).*1.
Proof.
  intros [[h' d] [Hh Hin]]%list_elem_of_fmap.
  apply list_elem_of_filter in Hin as [Hne _]. simpl in *. congruence.
Qed.

(** What [disconnect] leaves behind. *)
Lemma disconnect_clears w :
  let w' := exec disconnect w in
  heartbeatTimer (client w') = None
  ∧ ws (client w') = None
  ∧ reconnectTimer (client w') = None
  ∧ reconnectAttempts (client w') = 0%nat
  ∧ (∀ h, heartbeatTimer (client w) = Some h → h ∉ (intervals w').*1)
  ∧ (∀ h, reconnectTimer (client w) = Some h → h ∉ (timeouts w').*1)
  ∧ (∀ i s, ws (client w) = Some i → sockets w !! i = Some s →
       ∃ s', sockets w' !! i = Some s'
             ∧ readyState s' = match readyState s with CLOSED => CLOSED | _ => CLOSING end).
Proof.
  destruct w as [c socks touts ints next now a inv].
  destruct c as [wsv urlv roomv userv queue regs hb rt att sto evh].
  unfold disconnect, stopHeartbeat, clearReconnect, clearInterval, clearTimeout, WebSocket_close.
  destruct hb as [hh|], wsv as [i|], rt as [hr|]; js_run; repeat split; try done.
  all: try (intros h [= <-]; apply cleared_handle).
  all: intros j s [= <-] Hs.
  all: rewrite list_lookup_alter_eq, Hs; simpl.
  all: by destruct s as [[] fs k]; eexists.
Qed.

Lemma disconnect_idempotent w :
  exec disconnect (exec disconnect w) = exec disconnect w.
Proof.
  destruct w as [c socks touts ints next now a inv].
  destruct c as [wsv urlv roomv userv queue regs hb rt att sto evh].
  by destruct hb as [hh|], wsv as [i|], rt as [hr|].
Qed.

(** [scheduleReconnect] always leaves a timer armed. *)
Lemma scheduleReconnect_arms w :
  is_Some (reconnectTimer (client (exec scheduleReconnect w))).
Proof.
  destruct w as [c socks touts ints next now a inv].
  destruct c as [wsv urlv roomv userv queue regs hb rt att sto evh].
  unfold scheduleReconnect, stopHeartbeat, clearInterval, setTimeout.
  by destruct hb as [hh|], rt as [hr|]; js.
Qed.

Lemma scheduleReconnect_attempts w :
  reconnectAttempts (client (exec scheduleReconnect w)) =
  match reconnectTimer (client w) with
  | Some _ => reconnectAttempts (client w)
  | None => S (reconnectAttempts (client w))
  end.
Proof.
  destruct w as [c socks touts ints next now a inv].
  destruct c as [wsv urlv roomv userv queue regs hb rt att sto evh].
  unfold scheduleReconnect, stopHeartbeat, clearInterval, setTimeout.
  by destruct hb as [hh|], rt as [hr|]; js.
Qed.

Lemma onclose_arms w : is_Some (reconnectTimer (client (exec onclose w))).
Proof.
  unfold onclose, exec, bind, gets. simpl.
  pose proof (notify_spec (on_disconnected (eventHandlers (client w))) OnDisconnected w)
    as [Hn _].
  destruct (notify _ _ w) as [[[]|] w1]; [|done].
  apply scheduleReconnect_arms.
Qed.


(** The continuation of the public [reconnect] leaves the heartbeat as it
    finds it; the other two arm it. *)
Lemma resolved_reconnect_heartbeat w :
  heartbeatTimer (client (exec (resolved AwaitReconnect) w)) = heartbeatTimer (client w)
  ∧ intervals (exec (resolved AwaitReconnect) w) = intervals w.
Proof.
  unfold resolved, getCurrentUser, exec, bind, gets. simpl.
  destruct (user (client w)) as [u|]; [|done].
  destruct (roomId (client w)) as [r|]; [|done].
  rewrite send_spec. simpl.
  destruct (transport_open w); [|done]. by destruct (send_throws _ _).
Qed.

End Disconnect.

Section Claims.
Context `{Host}.

(** C1. Starting from a new client whose attempts to open all fail, the
    delay armed after the N-th failure (the delay before the N-th retry) is
    min(1000 * 2^(N-1), 15000) ms and the attempt counter is N; the first
    five delays are 1000, 2000, 4000, 8000, 15000; [scheduleReconnect] adds
    one to the counter exactly when it arms a timer; and in every world the
    client can reach at most one reconnect timer is pending. *)
Theorem reconnect_backoff o g now (a : App) room userId e (N : nat) :
  WebSocket_throws (url (new_RealtimeClient o g)) = false →
  truthy room = true → (1 ≤ N)%nat →
  (∃ w h, run (failures room userId e N) (boot o g now a) = Some w
          ∧ timeouts w = [(h, Z.min (1000 * 2 ^ (Z.of_nat N - 1)) 15000)]
          ∧ reconnectTimer (client w) = Some h
          ∧ reconnectAttempts (client w) = N)
  ∧ reconnect_delay <$> [0; 1; 2; 3; 4]%nat = [1000; 2000; 4000; 8000; 15000]
  ∧ (∀ w, reconnectAttempts (client (exec scheduleReconnect w)) =
          match reconnectTimer (client w) with
          | Some _ => reconnectAttempts (client w)
          | None => S (reconnectAttempts (client w))
          end)
  ∧ (∀ w, reachable (boot o g now a) w → (length (timeouts w) ≤ 1)%nat).
Proof.
  intros Hurl Hroom HN. repeat split.
  - destruct (failures_failing room userId e (boot o g now a) N Hroom HN
      (boot_pristine o g now a) Hurl) as (w & Hrun & Hw).
    exists w, (Pos.of_nat N). split; [done|].
    destruct Hw as [_ _ _ _ _ _ _ Htimer Hattempts Htimeouts _ _].
    repeat split; try done.
    rewrite Htimeouts. unfold reconnect_delay, RECONNECT_BASE_DELAY_MS, RECONNECT_MAX_DELAY_MS.
    by replace (Z.of_nat (N - 1)) with (Z.of_nat N - 1) by lia.
  - apply scheduleReconnect_attempts.
  - intros w Hw. apply timer_inv_at_most_one.
    by apply (timer_inv_reachable (boot o g now a)).
Qed.

(** C4. [send] never throws; on an open transport whose [send] does not
    throw the message is serialized and handed to the socket, and in every
    other case it is appended to the queue, nothing else changing; a [send],
    and the whole flush loop of [onopen], only moves frames between the queue
    and the wire. *)
Theorem send_transmits_or_queues (message : RealtimeClientMessage) (w : World) :
  send message w =
    (Normal tt,
     match transport_open w with
     | Some i =>
         if send_throws i (JSON_stringify message)
         then queued_by message w
         else transmitted_by message i w
     | None => queued_by message w
     end)
  ∧ frames (exec (send message) w) ++ waiting (exec (send message) w)
    ≡ₚ (frames w ++ waiting w) ++ [JSON_stringify message]
  ∧ (∀ queue,
       frames (exec (for_of queue send) w) ++ waiting (exec (for_of queue send) w)
       ≡ₚ (frames w ++ waiting w) ++ (JSON_stringify <$> queue)).
Proof.
  split; [apply send_spec|]. split; [apply send_conserves|].
  intros queue. apply flush_conserves.
Qed.

(** C7. A payload that does not parse, that is [null], or whose tag has no
    subscriber is dropped: [onmessage] ends normally and the world, with its
    queue, registries, user, timers and sockets, is the one it started in. *)
Theorem unhandled_payload_dropped (w : World) (data : string) :
  unhandled w data = true →
  onmessage data w = (Normal tt, w)
  ∧ (∀ i w', step (ESockMessage i data) w = Some w' → w' = w).
Proof.
  intros Hun. pose proof (onmessage_unhandled w data Hun) as Hdrop.
  split; [done|]. intros i w' Hstep. cbn [step] in Hstep.
  destruct (socket_is _ i w); [|done]. injection Hstep as <-.
  unfold exec. by rewrite Hdrop.
Qed.

(** C8. [dispatch] of a message whose tag has subscribers runs each of them,
    once, in the order of the set, whether or not any of them throws, and
    ends normally; the order of the set is the order of registration:
    [subscribe] leaves the members in place and puts a new one last. *)
Theorem dispatch_fans_out (w : World) (msg : Msg) (key : string) (set : list Hid) :
  msg_type msg = Some key → handlers (client w) !! key = Some set →
  (dispatch msg w).1 = Normal tt
  ∧ invoked (exec (dispatch msg) w) = invoked w ++ ((λ h, (h, OnMessage msg)) <$> set)
  ∧ (∀ h, h ∈ set → (h, OnMessage msg) ∈ invoked (exec (dispatch msg) w))
  ∧ (∀ type h w0,
       handlers (client (exec (subscribe type h) w0)) !! tag_name type =
       Some (let members := default [] (handlers (client w0) !! tag_name type) in
             if decide (h ∈ members) then members else members ++ [h]))
  ∧ (∀ type hs w0, NoDup hs → hs ≠ [] →
       default [] (handlers (client w0) !! tag_name type) = [] →
       handlers (client (exec (for_of hs (subscribe type)) w0)) !! tag_name type = Some hs).
Proof.
  intros Hkey Hset. destruct (dispatch_spec msg key set w Hkey Hset) as [Hn Hl].
  repeat split; try done.
  - intros h Hh. rewrite Hl. apply elem_of_app. right.
    apply list_elem_of_fmap. by exists h.
  - intros type h w0. by rewrite subscribe_spec, lookup_insert_eq.
  - intros type hs w0 Hnd Hne Hempty. rewrite subscribe_all by done.
    by destruct hs.
Qed.

(** C10. After the function returned by [subscribe(type, h)] has run, and
    until [subscribe(type, h)] is called again, no message of that tag reaches
    [h], whatever else happens; subscribing [h] twice is subscribing it once,
    and a dispatch then calls it once; running the unsubscribe function twice
    is running it once. *)
Theorem subscribe_unsubscribe (w : World) (type : ServerTag) (h : Hid)
    (es : list Event) (w' : World) (msg : Msg) :
  Forall (λ e, e ≠ ESubscribe type h) es →
  run es (exec (unsubscribe type h) w) = Some w' →
  NoDup (default [] (handlers (client w) !! tag_name type)) →
  msg_type msg = Some (tag_name type) →
  (∃ new, invoked w' = invoked w ++ new
          ∧ ∀ m, msg_type m = Some (tag_name type) → (h, OnMessage m) ∉ new)
  ∧ exec (subscribe type h) (exec (subscribe type h) w) = exec (subscribe type h) w
  ∧ (let w2 := exec (subscribe type h) (exec (subscribe type h) w) in
     ∃ new, invoked (exec (dispatch msg) w2) = invoked w2 ++ new
            ∧ length (filter (λ c, c.1 = h) new) = 1%nat)
  ∧ exec (unsubscribe type h) (exec (unsubscribe type h) w) = exec (unsubscribe type h) w.
Proof.
  intros Hes Hrun Hnd Hmsg. repeat split.
  - destruct (silenced_run type h (invoked w) es _ _ Hes (unsubscribe_silences type h w) Hrun)
      as (_ & new & Hnew & Hquiet).
    exists new. split; [done|]. intros m Hm Hin.
    rewrite Forall_forall in Hquiet. apply (Hquiet _ Hin). split; [done|]. by exists m.
  - apply subscribe_twice.
  - rewrite subscribe_twice.
    set (members := Set_add h (default [] (handlers (client w) !! tag_name type))).
    assert (Hset : handlers (client (exec (subscribe type h) w)) !! tag_name type = Some members).
    { by rewrite subscribe_spec, lookup_insert_eq. }
    destruct (dispatch_spec msg _ _ _ Hmsg Hset) as [_ Hl].
    eexists. split; [exact Hl|].
    apply called_once; [by apply Set_add_NoDup|apply Set_add_elem].
  - apply unsubscribe_twice.
Qed.


End Claims.

(** ** Further properties of the client *)

Section CustodyLemmas.
Context `{Host}.
Variable P : World → Prop.
Variable ok : PartialPresence → Prop.
Variable allowed : Hid → Trigger → Prop.
Hypothesis HC : Custody P ok allowed.

Lemma custody_push_queue m : keeps P (push_queue m).
Proof.
  unfold push_queue. keeps_structure. apply keeps_assign, (cu_queue _ _ _ HC).
Qed.

Lemma custody_WebSocket_send i d : keeps P (WebSocket_send i d).
Proof.
  unfold WebSocket_send. keeps_structure. apply keeps_modify, (cu_sockets _ _ _ HC).
Qed.

Lemma custody_WebSocket_close i : keeps P (WebSocket_close i).
Proof. apply keeps_modify, (cu_sockets _ _ _ HC). Qed.

Lemma custody_send m : keeps P (send m).
Proof.
  unfold send, isConnected.
  keeps_by ltac:(first [apply custody_push_queue | apply custody_WebSocket_send]).
Qed.

Lemma custody_sendCamera p c : keeps P (sendCamera p c).
Proof. unfold sendCamera, getCurrentUser. keeps_by ltac:(apply custody_send). Qed.

Lemma custody_heartbeat_tick : keeps P heartbeat_tick.
Proof.
  unfold heartbeat_tick, getCurrentUser, Date_now. keeps_by ltac:(apply custody_send).
Qed.

Local Ltac leaf :=
  first
    [ apply custody_send | apply custody_sendCamera
    | apply (cu_stop _ _ _ HC) | apply (cu_start _ _ _ HC)
    | apply custody_WebSocket_close
    | apply (cu_schedule _ _ _ HC) | apply (cu_clear _ _ _ HC) ].

Lemma custody_rejected k : keeps P (rejected k).
Proof. destruct k; simpl; first [leaf | apply keeps_ret]. Qed.

Lemma custody_openSocket k : keeps P (openSocket k).
Proof.
  unfold openSocket. keeps_by ltac:(apply custody_rejected).
  - apply keeps_modify, (cu_sockets _ _ _ HC).
  - apply keeps_assign, (cu_ws _ _ _ HC).
Qed.

Lemma custody_disconnect : keeps P disconnect.
Proof.
  unfold disconnect. keeps_by leaf. apply keeps_assign, (cu_ws _ _ _ HC).
Qed.

Lemma custody_reconnect : keeps P reconnect.
Proof.
  unfold reconnect, isConnected. keeps_by ltac:(apply custody_openSocket).
Qed.

Lemma custody_resolved k : keeps P (resolved k).
Proof. unfold resolved, getCurrentUser. destruct k; keeps_by leaf. Qed.

Lemma custody_api_call c : ok_call ok c → keeps P (api_call c).
Proof.
  destruct c; simpl; intros Hok;
    first [leaf | apply custody_disconnect
          | apply keeps_bind; [apply custody_reconnect|intros ?; apply keeps_ret]
          | by apply (cu_presence _ _ _ HC)].
Qed.

Lemma custody_api_calls cs : Forall (ok_call ok) cs → keeps P (for_of cs api_call).
Proof.
  intros Hcs. apply keeps_for_of. intros c Hc. apply custody_api_call.
  by eapply Forall_forall.
Qed.

Lemma custody_reconnect_timer_fired w :
  P (with_client (set_reconnectTimer None) w) → P (exec reconnect_timer_fired w).
Proof.
  intros Hw. rewrite reconnect_timer_fired_spec.
  destruct (falsy _); [done|]. by apply custody_openSocket.
Qed.

Lemma custody_invoke h t : allowed h t → keeps P (invoke h t).
Proof.
  intros Ha w Hw. unfold invoke, exec, bind, modify, gets; simpl.
  set (r := callback h t w).
  pose proof (cu_invoke _ _ _ HC h t (r_app r) w Ha Hw) as Hstart.
  pose proof (custody_api_calls (r_calls r) (cu_calls _ _ _ HC h t w Hw Ha) _ Hstart)
    as Hloop.
  unfold exec in Hloop.
  destruct (for_of (r_calls r) api_call _) as [[[]|] w']; simpl in *;
    by destruct (r_throws r).
Qed.

Lemma custody_notify set t : (∀ h, h ∈ set → allowed h t) → keeps P (notify set t).
Proof.
  intros Ha. apply keeps_for_of. intros h Hh.
  apply keeps_try; [by apply custody_invoke, Ha|apply keeps_ret].
Qed.

Lemma custody_dispatch msg : keeps P (dispatch msg).
Proof.
  unfold dispatch. destruct (msg_type msg) as [key|] eqn:Hkey; [|apply keeps_throw].
  intros w Hw. unfold exec, bind, gets; simpl.
  destruct (handlers (client w) !! key) as [set|] eqn:Hset.
  - case_bool_decide; [done|].
    apply custody_notify; [|done]. intros h Hh.
    by eapply (cu_registry _ _ _ HC).
  - by case_bool_decide.
Qed.

Lemma custody_onmessage data : keeps P (onmessage data).
Proof. unfold onmessage. keeps_by ltac:(apply custody_dispatch). Qed.

Lemma custody_onerror : keeps P onerror.
Proof.
  intros w Hw. unfold onerror, exec, bind, gets; simpl.
  apply custody_notify; [|done]. intros h Hh. by eapply (cu_error _ _ _ HC).
Qed.

Lemma custody_onclose : keeps P onclose.
Proof.
  intros w Hw. unfold onclose, exec, bind, gets; simpl.
  assert (Hn : P (exec (notify (on_disconnected (eventHandlers (client w))) OnDisconnected) w)).
  { apply custody_notify; [|done]. intros h Hh. by eapply (cu_disconnected _ _ _ HC). }
  unfold exec in Hn.
  destruct (notify _ _ w) as [[[]|] w1]; simpl in *; [|done].
  by apply (cu_schedule _ _ _ HC).
Qed.

Lemma custody_before_resolve w : P w → P (before_resolve w).
Proof.
  intros Hw. unfold before_resolve.
  set (w2 := exec (for_of _ send) _).
  assert (Hw2 : P w2).
  { apply keeps_for_of; [intros m _; apply custody_send|].
    by apply (cu_queue _ _ _ HC), (cu_attempts0 _ _ _ HC). }
  apply custody_notify; [|done]. intros h Hh. by eapply (cu_connected _ _ _ HC).
Qed.

Lemma custody_onopen k : keeps P (onopen k).
Proof.
  intros w Hw. unfold exec. rewrite onopen_resolved.
  by apply custody_resolved, custody_before_resolve.
Qed.

Lemma custody_step e w w' :
  special e = false → (∀ p, e = EUpdatePresence p → ok p) →
  P w → step e w = Some w' → P w'.
Proof.
  intros Hs Hp Hw Hstep. destruct e; try discriminate Hs; simpl in Hstep;
    repeat match type of Hstep with
           | (if ?b then _ else _) = Some _ => destruct b; [|discriminate Hstep]
           | match ?o with Some _ => _ | None => None end = Some _ =>
               destruct o; [|discriminate Hstep]
           end;
    injection Hstep as <-.
  - by apply custody_disconnect.
  - by apply custody_reconnect.
  - by apply custody_send.
  - by apply (cu_presence _ _ _ HC _ (Hp _ eq_refl)).
  - by apply custody_sendCamera.
  - by apply custody_onopen, (cu_sockets _ _ _ HC).
  - by apply custody_onmessage.
  - by apply custody_onerror.
  - by apply custody_onclose, (cu_sockets _ _ _ HC).
  - by apply custody_heartbeat_tick.
Qed.

End CustodyLemmas.

(** *** At most one heartbeat interval *)

Section Heartbeat.
Context `{Host}.

Lemma heartbeat_inv_stop : keeps heartbeat_inv stopHeartbeat.
Proof.
  intros w Hw. unfold stopHeartbeat, clearInterval, exec, bind, gets, assign, modify; simpl.
  unfold heartbeat_inv in *.
  destruct (heartbeatTimer (client w)) as [h|] eqn:Hh; simpl; [|by rewrite Hh].
  rewrite Hw. rewrite filter_cons_False by (simpl; auto). done.
Qed.

Lemma stopHeartbeat_stopped w : heartbeatTimer (client (exec stopHeartbeat w)) = None.
Proof.
  unfold stopHeartbeat, clearInterval, exec, bind, gets, assign, modify; simpl.
  by destruct (heartbeatTimer (client w)) eqn:Hh.
Qed.

Lemma heartbeat_inv_start : keeps heartbeat_inv startHeartbeat.
Proof.
  intros w Hw. pose proof (heartbeat_inv_stop w Hw) as Hs.
  pose proof (stopHeartbeat_stopped w) as Hn.
  unfold startHeartbeat, exec, bind in *.
  destruct (stopHeartbeat w) as [[[]|] w1] eqn:Hstop; simpl in *.
  - unfold heartbeat_inv in *. simpl. by rewrite Hs, Hn.
  - done.
Qed.

Lemma heartbeat_inv_schedule : keeps heartbeat_inv scheduleReconnect.
Proof.
  unfold scheduleReconnect, setTimeout.
  keeps_by ltac:(first
    [ apply heartbeat_inv_stop | apply keeps_assign; by intros ]).
  by intros w Hw.
Qed.

Lemma heartbeat_inv_custody : Custody heartbeat_inv (λ _, True) (λ _ _, True).
Proof.
  constructor; try done.
  - apply heartbeat_inv_stop.
  - apply heartbeat_inv_start.
  - intros p _. unfold updatePresence, getCurrentUser, Date_now.
    keeps_by ltac:(apply keeps_assign; by intros).
  - apply heartbeat_inv_schedule.
  - unfold clearReconnect, clearTimeout.
    keeps_by ltac:(first [apply keeps_modify; by intros | apply keeps_assign; by intros]).
  - intros. apply any_call_ok.
Qed.

Lemma heartbeat_inv_step e w w' : heartbeat_inv w → step e w = Some w' → heartbeat_inv w'.
Proof.
  intros Hw Hstep. destruct (special e) eqn:Hs;
    [|by eapply (custody_step _ _ _ heartbeat_inv_custody)].
  destruct e; try discriminate Hs; simpl in Hstep.
  - injection Hstep as <-. revert w Hw. unfold connect.
    keeps_by ltac:(first
      [ apply (custody_openSocket _ _ _ heartbeat_inv_custody)
      | apply keeps_assign; by intros ]).
    all: unfold setItem, generateId, Date_now.
    all: keeps_by ltac:(apply keeps_assign; by intros).
  - by injection Hstep as <-.
  - by injection Hstep as <-.
  - by injection Hstep as <-.
  - by injection Hstep as <-.
  - case_bool_decide as Hin; [|done]. injection Hstep as <-.
    by apply (custody_reconnect_timer_fired _ _ _ heartbeat_inv_custody).
  - by injection Hstep as <-.
Qed.

Lemma run_reachable es w w' : run es w = Some w' → reachable w w'.
Proof.
  assert (Hgen : ∀ w0 w1, reachable w0 w1 → run es w1 = Some w' → reachable w0 w').
  { induction es as [|e es IH]; intros w0 w1 Hreach; simpl.
    - by intros [= <-].
    - destruct (step e w1) as [w2|] eqn:Hstep; [|done]. simpl.
      apply IH. by eapply reachable_step. }
  apply Hgen. constructor.
Qed.

Lemma heartbeat_inv_reachable o g now (a : App) w :
  reachable (boot o g now a) w → heartbeat_inv w.
Proof. induction 1 as [|e w1 w2 _ IH Hstep]; [done|]. by eapply heartbeat_inv_step. Qed.

(** X1. In every world the client can reach, the active intervals are exactly
    the one whose handle [heartbeatTimer] holds, at the period of 30000 ms:
    [startHeartbeat] never leaves a second interval running and
    [stopHeartbeat] never leaves one behind. *)
Theorem heartbeat_single_interval o g now (a : App) (w : World) :
  reachable (boot o g now a) w →
  intervals w = match heartbeatTimer (client w) with
                | Some h => [(h, 30000)]
                | None => []
                end
  ∧ (length (intervals w) ≤ 1)%nat.
Proof.
  intros Hreach. pose proof (heartbeat_inv_reachable o g now a w Hreach) as Hinv.
  split; [exact Hinv|]. rewrite Hinv. destruct (heartbeatTimer _); simpl; lia.
Qed.

End Heartbeat.

(** *** The reconnect delays *)

Section Delays.
Context `{Host}.

Lemma reconnect_delay_range n : 1000 ≤ reconnect_delay n ≤ 15000.
Proof.
  unfold reconnect_delay, RECONNECT_BASE_DELAY_MS, RECONNECT_MAX_DELAY_MS.
  assert (1 ≤ 2 ^ Z.of_nat n) by (apply Z.pow_le_mono_r with (b := 0); lia).
  lia.
Qed.

Lemma reconnect_delay_mono n m : (n ≤ m)%nat → reconnect_delay n ≤ reconnect_delay m.
Proof.
  intros Hnm. unfold reconnect_delay, RECONNECT_BASE_DELAY_MS, RECONNECT_MAX_DELAY_MS.
  assert (2 ^ Z.of_nat n ≤ 2 ^ Z.of_nat m) by (apply Z.pow_le_mono_r; lia).
  lia.
Qed.

Lemma reconnect_delay_cap n : (4 ≤ n)%nat → reconnect_delay n = 15000.
Proof.
  intros Hn. unfold reconnect_delay, RECONNECT_BASE_DELAY_MS, RECONNECT_MAX_DELAY_MS.
  assert (2 ^ 4 ≤ 2 ^ Z.of_nat n) by (apply Z.pow_le_mono_r; lia).
  change (2 ^ 4) with 16 in *. lia.
Qed.

Lemma reconnect_delay_doubles n : (n < 4)%nat → reconnect_delay n = 1000 * 2 ^ Z.of_nat n.
Proof.
  intros Hn. do 4 (destruct n as [|n]; [reflexivity|]). lia.
Qed.

Lemma Forall_filter_keep {A} (P : A → Prop) (Q : A → Prop) `{∀ x, Decision (Q x)} (l : list A) :
  Forall P l → Forall P (filter Q l).
Proof.
  rewrite !Forall_forall. intros Hl x [_ Hx]%list_elem_of_filter. by apply Hl.
Qed.

Lemma delays_bounded_frame : Frame delays_bounded.
Proof. by split. Qed.

Lemma delays_bounded_steady : Steady delays_bounded (λ _, True).
Proof.
  constructor.
  - apply delays_bounded_frame.
  - done.
  - intros p _ w Hw. unfold updatePresence, getCurrentUser, exec, bind, gets; simpl.
    by destruct (user (client w)).
  - unfold scheduleReconnect.
    apply keeps_bind; [apply (keeps_stopHeartbeat _ delays_bounded_frame)|intros _].
    intros w Hw. unfold exec, bind, gets; simpl.
    destruct (reconnectTimer (client w)); [done|].
    unfold delays_bounded in *; simpl. apply Forall_app. split; [done|].
    constructor; [|done]. simpl. apply reconnect_delay_range.
  - intros w Hw. unfold clearReconnect, exec, bind, gets; simpl.
    unfold delays_bounded in *.
    destruct (reconnectTimer (client w)); simpl; [|done].
    by apply Forall_filter_keep.
Qed.

Lemma delays_bounded_invariant : Invariant delays_bounded (λ _, True) (λ _ _, True).
Proof.
  constructor; [apply delays_bounded_steady|intros; apply any_call_ok|done..].
Qed.

Lemma delays_bounded_step e w w' : delays_bounded w → step e w = Some w' → delays_bounded w'.
Proof.
  intros Hw Hstep. destruct (special e) eqn:Hs;
    [|by eapply (step_keeps _ _ _ delays_bounded_invariant)].
  destruct e; try discriminate Hs; simpl in Hstep.
  - injection Hstep as <-. revert w Hw. unfold connect.
    keeps_by ltac:(first
      [ apply (keeps_openSocket _ _ delays_bounded_steady)
      | apply keeps_assign; by intros ]).
    all: unfold setItem, generateId, Date_now.
    all: keeps_by ltac:(apply keeps_assign; by intros).
  - by injection Hstep as <-.
  - by injection Hstep as <-.
  - by injection Hstep as <-.
  - by injection Hstep as <-.
  - case_bool_decide as Hin; [|done]. injection Hstep as <-.
    apply (keeps_reconnect_timer_fired _ _ delays_bounded_steady).
    unfold delays_bounded in *; simpl. by apply Forall_filter_keep.
  - by injection Hstep as <-.
Qed.

Lemma delays_bounded_reachable o g now (a : App) w :
  reachable (boot o g now a) w → delays_bounded w.
Proof.
  induction 1 as [|e w1 w2 _ IH Hstep]; [by constructor|]. by eapply delays_bounded_step.
Qed.

(** X2. The delay of attempt [n] is 1000 ms doubled [n] times for the first
    four attempts and 15000 ms from the fifth on; it never decreases from one
    attempt to the next and stays between 1000 and 15000 ms, however many
    attempts fail.  Whatever the client and the application do, every timeout
    the client has pending waits between 1000 and 15000 ms. *)
Theorem reconnect_delay_capped (n m : nat) :
  1000 ≤ reconnect_delay n ≤ 15000
  ∧ ((n ≤ m)%nat → reconnect_delay n ≤ reconnect_delay m)
  ∧ ((n < 4)%nat → reconnect_delay n = 1000 * 2 ^ Z.of_nat n)
  ∧ ((4 ≤ n)%nat → reconnect_delay n = 15000)
  ∧ (∀ o g now (a : App) w h d,
       reachable (boot o g now a) w → (h, d) ∈ timeouts w → 1000 ≤ d ≤ 15000).
Proof.
  split; [apply reconnect_delay_range|].
  split; [apply reconnect_delay_mono|].
  split; [apply reconnect_delay_doubles|].
  split; [apply reconnect_delay_cap|].
  intros o g now a w h d Hreach Hin.
  pose proof (delays_bounded_reachable o g now a w Hreach) as Hinv.
  unfold delays_bounded in Hinv. rewrite Forall_forall in Hinv.
  apply (Hinv (h, d) Hin).
Qed.

End Delays.

(** *** What [disconnect] releases and what it keeps *)

Section Release.
Context `{Host}.

Lemma disconnect_normal w : (disconnect w).1 = Normal tt.
Proof.
  destruct w as [c socks touts ints next now a inv].
  destruct c as [wsv urlv roomv userv queue regs hb rt att sto evh].
  unfold disconnect, stopHeartbeat, clearReconnect, clearInterval, clearTimeout, WebSocket_close.
  by destruct hb as [hh|], wsv as [i|], rt as [hr|].
Qed.

Lemma disconnect_keeps w :
  let w' := exec disconnect w in
  roomId (client w') = roomId (client w)
  ∧ user (client w') = user (client w)
  ∧ messageQueue (client w') = messageQueue (client w)
  ∧ handlers (client w') = handlers (client w)
  ∧ eventHandlers (client w') = eventHandlers (client w).
Proof.
  destruct w as [c socks touts ints next now a inv].
  destruct c as [wsv urlv roomv userv queue regs hb rt att sto evh].
  unfold disconnect, stopHeartbeat, clearReconnect, clearInterval, clearTimeout, WebSocket_close.
  by destruct hb as [hh|], wsv as [i|], rt as [hr|].
Qed.

(** X3. [disconnect] returns normally and leaves no heartbeat, no socket
    reference, no reconnect timer and a zero attempt counter; the interval and
    the timeout it held are cancelled and the socket it held is closing
    (or stays closed); calling it again changes nothing.  It keeps the room,
    the user, the queued messages and every subscriber and listener. *)
Theorem disconnect_releases (w : World) :
  let w' := exec disconnect w in
  (disconnect w).1 = Normal tt
  ∧ heartbeatTimer (client w') = None
  ∧ ws (client w') = None
  ∧ reconnectTimer (client w') = None
  ∧ reconnectAttempts (client w') = 0%nat
  ∧ (∀ h, heartbeatTimer (client w) = Some h → h ∉ (intervals w').*1)
  ∧ (∀ h, reconnectTimer (client w) = Some h → h ∉ (timeouts w').*1)
  ∧ (∀ i s, ws (client w) = Some i → sockets w !! i = Some s →
       ∃ s', sockets w' !! i = Some s'
             ∧ readyState s' = match readyState s with CLOSED => CLOSED | _ => CLOSING end)
  ∧ exec disconnect w' = w'
  ∧ roomId (client w') = roomId (client w)
  ∧ user (client w') = user (client w)
  ∧ messageQueue (client w') = messageQueue (client w)
  ∧ handlers (client w') = handlers (client w)
  ∧ eventHandlers (client w') = eventHandlers (client w).
Proof.
  intros w'. split; [apply disconnect_normal|].
  destruct (disconnect_clears w) as (Hhb & Hws & Hrt & Hatt & Hint & Htout & Hsock).
  destruct (disconnect_keeps w) as (Hroom & Huser & Hqueue & Hregs & Hevh).
  repeat split; try done. apply disconnect_idempotent.
Qed.

End Release.

(** *** The room and the user outlive everything but [connect] *)

Section Anchor.
Context `{Host}.

Lemma anchored_frame r u b : Frame (anchored r u b).
Proof. by split. Qed.

Lemma anchored_steady r u b : Steady (anchored r u b) (λ _, True).
Proof.
  constructor.
  - apply anchored_frame.
  - done.
  - intros p _ w (Hr & Hu & Hb). unfold updatePresence, getCurrentUser, Date_now, exec, bind, gets.
    simpl. destruct (user (client w)) eqn:Huser; simpl.
    + by repeat split.
    + repeat split; try done. by rewrite Huser.
  - unfold scheduleReconnect.
    keeps_by ltac:(first
      [ apply (keeps_stopHeartbeat _ (anchored_frame r u b)) | apply keeps_assign; by intros ]).
    by intros w Hw.
  - unfold clearReconnect, clearTimeout.
    keeps_by ltac:(first [apply keeps_modify; by intros | apply keeps_assign; by intros]).
Qed.

Lemma anchored_invariant r u b : Invariant (anchored r u b) (λ _, True) (λ _ _, True).
Proof.
  constructor; [apply anchored_steady|intros; apply any_call_ok|done..].
Qed.

Lemma anchored_step r u b e w w' :
  not_connect e → anchored r u b w → step e w = Some w' → anchored r u b w'.
Proof.
  intros He Hw Hstep. destruct (special e) eqn:Hs;
    [|by eapply (step_keeps _ _ _ (anchored_invariant r u b))].
  destruct e; try discriminate Hs; simpl in Hstep; try done.
  - by injection Hstep as <-.
  - by injection Hstep as <-.
  - by injection Hstep as <-.
  - by injection Hstep as <-.
  - case_bool_decide as Hin; [|done]. injection Hstep as <-.
    by apply (keeps_reconnect_timer_fired _ _ (anchored_steady r u b)).
  - by injection Hstep as <-.
Qed.

(** X4. Only [connect] writes the room: over any run of events without a call
    of [connect], whatever the callbacks do, the room and the url stay what
    they were and a user, once set, stays set.  In particular [disconnect]
    and the close of a socket reset neither. *)
Theorem room_and_user_survive (es : list Event) (w w' : World) :
  Forall not_connect es → run es w = Some w' →
  roomId (client w') = roomId (client w)
  ∧ url (client w') = url (client w)
  ∧ (is_Some (user (client w)) → is_Some (user (client w'))).
Proof.
  intros Hes Hrun.
  assert (Hgen : ∀ r u b w1, anchored r u b w1 → run es w1 = Some w' → anchored r u b w').
  { clear w Hrun. induction Hes as [|e es He Hes IH]; intros r u b w1 Hw1; simpl.
    - by intros [= <-].
    - destruct (step e w1) as [w2|] eqn:Hstep; [|done]. simpl.
      apply IH. by eapply anchored_step. }
  destruct (Hgen (roomId (client w)) (url (client w)) false w) as (Hr & Hu & _); [done..|].
  split; [done|]. split; [done|]. intros Huser.
  destruct (Hgen (roomId (client w)) (url (client w)) true w) as (_ & _ & Hb); [done..|].
  by apply Hb.
Qed.

End Anchor.

(** *** The close of a socket *)

Section Close.
Context `{Host}.

Lemma scheduleReconnect_stops w : heartbeatTimer (client (exec scheduleReconnect w)) = None.
Proof.
  destruct w as [c socks touts ints next now a inv].
  destruct c as [wsv urlv roomv userv queue regs hb rt att sto evh].
  unfold scheduleReconnect, stopHeartbeat, clearInterval, setTimeout.
  by destruct hb as [hh|], rt as [hr|]; js.
Qed.

Lemma onclose_stops w : heartbeatTimer (client (exec onclose w)) = None.
Proof.
  unfold onclose, exec, bind, gets. simpl.
  pose proof (notify_spec (on_disconnected (eventHandlers (client w))) OnDisconnected w)
    as [Hn _].
  destruct (notify _ _ w) as [[[]|] w1]; [|done].
  apply scheduleReconnect_stops.
Qed.

Lemma fst_singleton {A B} (l : list (A * B)) (x : A) : l.*1 = [x] → ∃ y, l = [(x, y)].
Proof.
  destruct l as [|[x' y] [|? ?]]; try discriminate. simpl. intros [= ->]. by exists y.
Qed.

(** X5. When a socket closes, whichever socket it is and whatever the
    [disconnected] listeners do, the client is left with its heartbeat
    stopped and exactly one reconnect timer pending, of a delay between 1000
    and 15000 ms. *)
Theorem close_schedules_reconnect o g now (a : App) (w w' : World) (i : nat) :
  reachable (boot o g now a) w → step (ESockClose i) w = Some w' →
  heartbeatTimer (client w') = None
  ∧ intervals w' = []
  ∧ ∃ h d, reconnectTimer (client w') = Some h
           ∧ timeouts w' = [(h, d)]
           ∧ 1000 ≤ d ≤ 15000.
Proof.
  intros Hreach Hstep.
  assert (Hreach' : reachable (boot o g now a) w') by by eapply reachable_step.
  assert (Hstop : heartbeatTimer (client w') = None).
  { cbn [step] in Hstep. destruct (socket_is _ i w); [|done]. injection Hstep as <-.
    apply onclose_stops. }
  assert (Harm : is_Some (reconnectTimer (client w'))).
  { cbn [step] in Hstep. destruct (socket_is _ i w); [|done]. injection Hstep as <-.
    apply onclose_arms. }
  pose proof (heartbeat_inv_reachable o g now a w' Hreach') as Hints.
  unfold heartbeat_inv in Hints. rewrite Hstop in Hints.
  split; [done|]. split; [done|].
  destruct Harm as [h Hh]. 
  pose proof (timer_inv_reachable _ _ (eq_refl : timer_inv (boot o g now a)) Hreach') as Htimer.
  unfold timer_inv in Htimer. rewrite Hh in Htimer.
  destruct (fst_singleton _ _ Htimer) as [d Hd].
  exists h, d. split; [done|]. split; [done|].
  pose proof (delays_bounded_reachable o g now a w' Hreach') as Hbound.
  unfold delays_bounded in Hbound. rewrite Hd in Hbound.
  by apply Forall_inv in Hbound.
Qed.

End Close.

(** *** No exception escapes a handler *)

Section NeverThrows.
Context `{Host}.

Lemma nt_ret {X} (x : X) : never_throws (ret x).
Proof. intros w. by exists x. Qed.

Lemma nt_gets {X} (f : World → X) : never_throws (gets f).
Proof. intros w. by eexists. Qed.

Lemma nt_modify f : never_throws (modify f).
Proof. intros w. by eexists. Qed.

Lemma nt_assign f : never_throws (assign f).
Proof. apply nt_modify. Qed.

Lemma nt_bind {X Y} (m : Js X) (k : X → Js Y) :
  never_throws m → (∀ x, never_throws (k x)) → never_throws (bind m k).
Proof.
  intros Hm Hk w. destruct (Hm w) as [x Hx]. unfold completes, bind in *.
  destruct (m w) as [[x'|] w']; simpl in *; [|done]. apply Hk.
Qed.

(** A [try] whose handler does not throw does not throw. *)
Lemma nt_try {X} (m h : Js X) : never_throws h → never_throws (try_catch m h).
Proof.
  intros Hh w. unfold completes, try_catch.
  destruct (m w) as [[x|] w']; simpl; [by eexists|apply Hh].
Qed.

Lemma nt_for_of {X} (xs : list X) (body : X → Js unit) :
  (∀ x, never_throws (body x)) → never_throws (for_of xs body).
Proof.
  intros Hb. induction xs as [|x xs IH]; simpl; [apply nt_ret|].
  apply nt_bind; [apply Hb|intros _; apply IH].
Qed.

Lemma nt_setTimeout d : never_throws (setTimeout d).
Proof. intros w. by eexists. Qed.

Lemma nt_setInterval d : never_throws (setInterval d).
Proof. intros w. by eexists. Qed.

End NeverThrows.

Ltac nt_by leaf :=
  repeat first
    [ solve [leaf]
    | apply nt_ret
    | apply nt_gets
    | apply nt_modify
    | apply nt_assign
    | apply nt_setTimeout
    | apply nt_setInterval
    | apply nt_bind; [ | intros ? ]
    | apply nt_try
    | apply nt_for_of; intros ?
    | match goal with
      | |- never_throws (match ?t with _ => _ end) => destruct t
      end ].

Section HandlersNeverThrow.
Context `{Host}.

Lemma nt_send m : never_throws (send m).
Proof. intros w. exists tt. by rewrite send_spec. Qed.

Lemma nt_stopHeartbeat : never_throws stopHeartbeat.
Proof. unfold stopHeartbeat, clearInterval. nt_by fail. Qed.

Lemma nt_startHeartbeat : never_throws startHeartbeat.
Proof. unfold startHeartbeat. nt_by ltac:(apply nt_stopHeartbeat). Qed.

Lemma nt_scheduleReconnect : never_throws scheduleReconnect.
Proof. unfold scheduleReconnect. nt_by ltac:(apply nt_stopHeartbeat). Qed.

Lemma nt_openSocket k : never_throws (openSocket k).
Proof.
  unfold openSocket, rejected. nt_by ltac:(apply nt_scheduleReconnect).
Qed.

Lemma nt_resolved k : never_throws (resolved k).
Proof.
  unfold resolved, getCurrentUser.
  nt_by ltac:(first [apply nt_send | apply nt_startHeartbeat]).
Qed.

Lemma nt_notify set t : never_throws (notify set t).
Proof. intros w. exists tt. apply notify_spec. Qed.

(** X6. None of the functions the client hands to the platform lets an
    exception escape, whatever the payload is and whatever the subscribers
    and listeners do: the four socket handlers, the reconnect timer's
    function and the heartbeat's function all return normally. *)
Theorem handlers_never_throw (w : World) (k : Continuation) (data : string) :
  completes (onopen k) w
  ∧ completes (onmessage data) w
  ∧ completes onerror w
  ∧ completes onclose w
  ∧ completes reconnect_timer_fired w
  ∧ completes heartbeat_tick w.
Proof.
  repeat split; revert w.
  - change (never_throws (onopen k)). unfold onopen.
    nt_by ltac:(first [apply nt_send | apply nt_notify | apply nt_resolved]).
  - change (never_throws (onmessage data)). unfold onmessage. nt_by fail.
  - change (never_throws onerror). unfold onerror. nt_by ltac:(apply nt_notify).
  - change (never_throws onclose). unfold onclose.
    nt_by ltac:(first [apply nt_notify | apply nt_scheduleReconnect]).
  - change (never_throws reconnect_timer_fired). unfold reconnect_timer_fired.
    nt_by ltac:(apply nt_openSocket).
  - change (never_throws heartbeat_tick). unfold heartbeat_tick, getCurrentUser, Date_now.
    nt_by ltac:(apply nt_send).
Qed.

End HandlersNeverThrow.

(** *** Lifecycle notifications *)

Section Lifecycle.
Context `{Host}.

Lemma logged_listeners_bystander L E : Bystander (logged L E).
Proof. constructor; [constructor|..]; intros ? ? Hw; exact Hw. Qed.

Lemma onerror_invoked w :
  invoked (exec onerror w) =
  invoked w ++ ((λ h, (h, OnError "socket error")) <$> on_error (eventHandlers (client w))).
Proof. unfold onerror, exec, bind, gets. simpl. apply notify_spec. Qed.

Lemma scheduleReconnect_invoked w : invoked (exec scheduleReconnect w) = invoked w.
Proof.
  pose proof (steady_schedule _ _ (bystander_steady _ (logged_bystander (invoked w)))) as Hk.
  by apply Hk.
Qed.

Lemma onclose_invoked w :
  invoked (exec onclose w) =
  invoked w ++ ((λ h, (h, OnDisconnected)) <$> on_disconnected (eventHandlers (client w))).
Proof.
  unfold onclose, exec, bind, gets. simpl.
  pose proof (notify_spec (on_disconnected (eventHandlers (client w))) OnDisconnected w)
    as [Hn Hl].
  unfold exec in Hl.
  destruct (notify _ _ w) as [[[]|] w1]; [|done]. simpl in *.
  pose proof (scheduleReconnect_invoked w1) as Hs. unfold exec in Hs. by rewrite Hs.
Qed.

Lemma before_resolve_invoked w :
  invoked (before_resolve w) =
  invoked w ++ ((λ h, (h, OnConnected)) <$> on_connected (eventHandlers (client w))).
Proof.
  unfold before_resolve.
  set (w1 := with_client (set_messageQueue []) (with_client (set_reconnectAttempts 0) w)).
  assert (Hw2 : logged (invoked w) (eventHandlers (client w))
                  (exec (for_of (messageQueue (client w)) send) w1)).
  { apply keeps_for_of; [|done]. intros m _.
    apply (keeps_send _ (by_frame _ (logged_listeners_bystander _ _))). }
  destruct Hw2 as [Hl He].
  destruct (notify_spec (on_connected
    (eventHandlers (client (exec (for_of (messageQueue (client w)) send) w1)))) OnConnected
    (exec (for_of (messageQueue (client w)) send) w1)) as [_ Hn].
  by rewrite Hn, Hl, He.
Qed.

Lemma step_None_open i w : sockets w !! i = None → step (ESockOpen i) w = None.
Proof. intros Hs. cbn [step]. by rewrite Hs. Qed.

Lemma resolved_invoked k w : invoked (exec (resolved k) w) = invoked w.
Proof.
  by apply (keeps_resolved _ _ (bystander_steady _ (logged_bystander (invoked w)))).
Qed.

(** X7. When a socket opens, reports an error or closes, every listener
    registered for that event is called once, in the order of registration,
    with ['socket error'] as the message of an error, whichever of them
    throw; no other callback runs. *)
Theorem lifecycle_listeners_notified (w w' : World) (i : nat) :
  (step (ESockOpen i) w = Some w' →
     invoked w' = invoked w
       ++ ((λ h, (h, OnConnected)) <$> on_connected (eventHandlers (client w))))
  ∧ (step (ESockError i) w = Some w' →
       invoked w' = invoked w
         ++ ((λ h, (h, OnError "socket error")) <$> on_error (eventHandlers (client w))))
  ∧ (step (ESockClose i) w = Some w' →
       invoked w' = invoked w
         ++ ((λ h, (h, OnDisconnected)) <$> on_disconnected (eventHandlers (client w)))).
Proof.
  repeat split; intros Hstep.
  - destruct (sockets w !! i) as [s|] eqn:Hs; [|by rewrite (step_None_open i w) in Hstep].
    destruct (decide (readyState s = CONNECTING)) as [Hr|Hr].
    + rewrite (step_open i s w Hs Hr) in Hstep. injection Hstep as <-.
      by rewrite resolved_invoked, before_resolve_invoked.
    + cbn [step] in Hstep. rewrite Hs in Hstep. by rewrite bool_decide_eq_false_2 in Hstep.
  - cbn [step] in Hstep. destruct (socket_is _ i w); [|done]. injection Hstep as <-.
    apply onerror_invoked.
  - cbn [step] in Hstep. destruct (socket_is _ i w); [|done]. injection Hstep as <-.
    by rewrite onclose_invoked.
Qed.

End Lifecycle.

(** *** The flush on open *)

Section Flushing.
Context `{Host}.

Lemma same_machine_refl w : same_machine w w.
Proof. exists (app w), (invoked w). by destruct w. Qed.

Lemma same_machine_trans w0 w1 w2 :
  same_machine w0 w1 → same_machine w1 w2 → same_machine w0 w2.
Proof. intros (a1 & L1 & ->) (a2 & L2 & ->). by exists a2, L2. Qed.

Lemma invoke_callfree h t w :
  r_calls (callback h t w) = [] → same_machine w (exec (invoke h t) w).
Proof.
  intros Hc. unfold invoke, exec, bind, gets, modify. simpl. rewrite Hc. simpl.
  exists (r_app (callback h t w)), (invoked w ++ [(h, t)]).
  by destruct (r_throws _).
Qed.

Lemma notify_step h set t w :
  exec (notify (h :: set) t) w = exec (notify set t) (exec (invoke h t) w).
Proof.
  unfold notify. cbn [for_of]. unfold exec, bind, try_catch.
  by destruct (invoke h t w) as [[[]|] w1].
Qed.

Lemma notify_callfree set t w :
  (∀ h w0, r_calls (callback h t w0) = []) → same_machine w (exec (notify set t) w).
Proof.
  intros Hc. revert w. induction set as [|h set IH]; intros w.
  - apply same_machine_refl.
  - rewrite notify_step. eapply same_machine_trans; [|apply IH].
    by apply invoke_callfree.
Qed.

Lemma send_open m i w :
  transport_open w = Some i → send_throws i (JSON_stringify m) = false →
  exec (send m) w = transmitted_by m i w.
Proof. intros Hopen Hok. unfold exec. by rewrite send_spec, Hopen, Hok. Qed.

Lemma send_closed m w : transport_open w = None → exec (send m) w = queued_by m w.
Proof. intros Hopen. unfold exec. by rewrite send_spec, Hopen. Qed.

Lemma refused_none i queue : (∀ d, send_throws i d = false) → refused i queue = [].
Proof.
  intros Hok. unfold refused. induction queue as [|m queue IH]; [done|].
  rewrite filter_cons_False; [done|]. by rewrite Hok.
Qed.

Lemma accepted_all i queue : (∀ d, send_throws i d = false) → accepted i queue = queue.
Proof.
  intros Hok. unfold accepted. induction queue as [|m queue IH]; [done|].
  rewrite filter_cons_True by apply Hok. by rewrite IH.
Qed.

Lemma startHeartbeat_wired ss c : keeps (wired ss c) startHeartbeat.
Proof.
  unfold startHeartbeat, stopHeartbeat, clearInterval.
  keeps_by ltac:(first [apply keeps_assign; by intros | apply keeps_modify; by intros]).
Qed.

Lemma transport_open_wired ss c w :
  wired ss c w → transport_open w = (i ← ws c; s ← ss !! i;
                                      if bool_decide (readyState s = OPEN) then Some i else None).
Proof. intros (Hs & Hws & _). unfold transport_open. by rewrite Hs, Hws. Qed.

Lemma exec_bind {X Y} (m : Js X) (k : X → Js Y) x w :
  (m w).1 = Normal x → exec (bind m k) w = exec (k x) (exec m w).
Proof. unfold exec, bind. destruct (m w) as [[x'|] w1]; simpl; [|done]. by intros [= ->]. Qed.

Lemma startHeartbeat_normal w : (startHeartbeat w).1 = Normal tt.
Proof.
  unfold startHeartbeat, stopHeartbeat, clearInterval, setInterval. js.
  by destruct (heartbeatTimer (client w)).
Qed.

Lemma send_normal m w : (send m w).1 = Normal tt.
Proof. by rewrite send_spec. Qed.

Lemma resolved_wired k i ss c w :
  wired ss c w →
  (i0 ← ws c; s ← ss !! i0; if bool_decide (readyState s = OPEN) then Some i0 else None) = Some i →
  (∀ d, send_throws i d = false) →
  sockets (exec (resolved k) w) =
    alter (transmits (JSON_stringify <$> rejoin k w)) i ss
  ∧ messageQueue (client (exec (resolved k) w)) = messageQueue c
  ∧ reconnectAttempts (client (exec (resolved k) w)) = reconnectAttempts c.
Proof.
  intros Hw Hopen Hok.
  assert (Hsend : ∀ m w1, wired ss c w1 →
    sockets (exec (send m) w1) = alter (transmits (JSON_stringify <$> [m])) i ss
    ∧ wired (alter (transmit (JSON_stringify m)) i ss) c (exec (send m) w1)).
  { intros m w1 Hw1. rewrite (send_open m i); [|by rewrite (transport_open_wired ss c)|done].
    destruct Hw1 as (Hs & Hrest). unfold transmitted_by, wired. simpl. rewrite Hs.
    split; [|done]. apply list_alter_ext; [|done]. by intros [r fs k'] _. }
  assert (Hid : alter (transmits (JSON_stringify <$> [])) i ss = ss).
  { apply list_alter_id. intros [r fs k']. unfold transmits. simpl.
    by rewrite (right_id_L [] (++)). }
  pose proof Hw as (Hs & Hws & Hq & Hatt & Hu & Hr).
  unfold rejoin, resolved, getCurrentUser. rewrite Hu, Hr.
  assert (Hone : ∀ m w1, wired ss c w1 →
    sockets (exec (send m) w1) = alter (transmits (JSON_stringify <$> [m])) i ss
    ∧ messageQueue (client (exec (send m) w1)) = messageQueue c
    ∧ reconnectAttempts (client (exec (send m) w1)) = reconnectAttempts c).
  { intros m w1 Hw1. by destruct (Hsend m w1 Hw1) as (Hsock & _ & _ & ? & ? & _). }
  assert (Hnone : ∀ w1, wired ss c w1 →
    sockets w1 = alter (transmits (JSON_stringify <$> [])) i ss
    ∧ messageQueue (client w1) = messageQueue c
    ∧ reconnectAttempts (client w1) = reconnectAttempts c).
  { intros w1 (? & ? & ? & ? & ?). by rewrite Hid. }
  destruct k as [room| |].
  - rewrite (exec_bind _ _ tt) by apply startHeartbeat_normal.
    pose proof (startHeartbeat_wired ss c w Hw) as Hw1.
    pose proof Hw1 as (_ & _ & _ & _ & Hu1 & _).
    unfold exec at 1 3 5, bind, gets. simpl. rewrite Hu1.
    destruct (user c) as [u|]; [by apply Hone|by apply Hnone].
  - unfold exec at 1 2 3, bind, gets. simpl. rewrite Hu, Hr.
    destruct (user c) as [u|]; [|by apply Hnone].
    destruct (roomId c) as [r|]; [by apply Hone|by apply Hnone].
  - unfold exec at 1 2 3, bind, gets. simpl. rewrite Hu, Hr.
    destruct (user c) as [u|]; [|by apply Hnone].
    destruct (roomId c) as [r|]; [|by apply Hnone].
    destruct (truthy r); [|by apply Hnone].
    change (sockets (exec (send (JoinRoomMessage r u) ;; startHeartbeat) w) =
            alter (transmits (JSON_stringify <$> [JoinRoomMessage r u])) i ss
            ∧ messageQueue (client (exec (send (JoinRoomMessage r u) ;; startHeartbeat) w))
              = messageQueue c
            ∧ reconnectAttempts (client (exec (send (JoinRoomMessage r u) ;; startHeartbeat) w))
              = reconnectAttempts c).
    rewrite (exec_bind _ _ tt) by apply send_normal.
    destruct (Hsend (JoinRoomMessage r u) w Hw) as (Hsock & Hw1).
    pose proof (startHeartbeat_wired _ c _ Hw1) as (Hs2 & _ & ? & ? & _).
    rewrite Hs2. split; [|done].
    apply list_alter_ext; [|done]. by intros [r' fs k'] _.
Qed.

(** X8. When the current socket opens, on a socket that takes every frame
    and with [connected] listeners that make no call on the client, the
    messages queued so far are handed to that socket in the order they were
    queued, and only then the [join] of the continuation; the queue is left
    empty and the attempt counter is zero. *)
Theorem open_flushes_then_joins (w : World) (i : nat) (s : Socket) :
  sockets w !! i = Some s → readyState s = CONNECTING → ws (client w) = Some i →
  (∀ d, send_throws i d = false) →
  (∀ h w0, r_calls (callback h OnConnected w0) = []) →
  ∃ w' s', step (ESockOpen i) w = Some w'
    ∧ sockets w' !! i = Some s' ∧ readyState s' = OPEN
    ∧ sent s' = sent s
        ++ (JSON_stringify <$> (messageQueue (client w) ++ rejoin (on_resolve s) w))
    ∧ messageQueue (client w') = []
    ∧ reconnectAttempts (client w') = 0%nat.
Proof.
  intros Hs Hr Hws Hok Hfree.
  set (w1 := with_sockets (alter (set_readyState OPEN) i) w).
  set (w1' := with_client (set_messageQueue []) (with_client (set_reconnectAttempts 0) w1)).
  assert (Hopen : transport_open w1' = Some i).
  { unfold transport_open. simpl. rewrite Hws. simpl.
    by rewrite list_lookup_alter_eq, Hs. }
  pose proof (flush_spec (messageQueue (client w)) i w1' Hopen) as Hflush.
  set (w2 := flushed i (messageQueue (client w)) w1') in *.
  assert (Hw3 : same_machine w2 (before_resolve w1)).
  { unfold before_resolve. fold w1'.
    change (messageQueue (client w1)) with (messageQueue (client w)).
    unfold exec at 2 3. rewrite Hflush. simpl. by apply notify_callfree. }
  destruct Hw3 as (a & L & Hw3).
  exists (exec (resolved (on_resolve s)) (before_resolve w1)).
  assert (Hwired : wired (sockets w2) (client w2) (before_resolve w1)) by by rewrite Hw3.
  assert (Hsock2 : sockets w2 !! i =
    Some (transmits (JSON_stringify <$> messageQueue (client w)) (set_readyState OPEN s))).
  { unfold w2, flushed. simpl.
    rewrite (accepted_all i _ Hok).
    by rewrite !list_lookup_alter_eq, Hs. }
  destruct (resolved_wired (on_resolve s) i _ _ _ Hwired) as (Hsock & Hq & Hatt); [|done|].
  { change (ws (client w2)) with (ws (client w)). by rewrite Hws, bind_Some, Hsock2. }
  eexists. split; [by apply step_open|].
  rewrite Hsock, Hq, Hatt, list_lookup_alter_eq, Hsock2. simpl.
  split; [done|]. split; [done|]. split; [|split; [|done]].
  - rewrite fmap_app, (assoc_L (++)). do 3 f_equal.
    unfold rejoin. by rewrite Hw3.
  - unfold w2, flushed. simpl. by rewrite (refused_none i _ Hok).
Qed.

(** While the transport is not open, [send] only appends to the queue. *)
Lemma sends_closed ms w :
  transport_open w = None →
  exec (for_of ms send) w = with_client (set_messageQueue (messageQueue (client w) ++ ms)) w.
Proof.
  revert w. induction ms as [|m ms IH]; intros w Hopen.
  - change (exec (for_of [] send) w) with w. rewrite (right_id_L [] (++)).
    by destruct w as [[] ? ? ? ? ? ? ?].
  - cbn [for_of]. rewrite (exec_bind _ _ tt) by apply send_normal.
    rewrite send_closed by done. rewrite IH by done.
    unfold queued_by. simpl. by rewrite <- (assoc_L (++)).
Qed.

(** X9. Messages sent while the transport is not open change nothing but the
    queue, which they join in the order of the calls, behind what was queued
    before; nothing reaches any socket. *)
Theorem sends_while_closed_queue_in_order (ms : list RealtimeClientMessage) (w : World) :
  transport_open w = None →
  run (ESend <$> ms) w =
    Some (with_client (set_messageQueue (messageQueue (client w) ++ ms)) w)
  ∧ frames (with_client (set_messageQueue (messageQueue (client w) ++ ms)) w) = frames w.
Proof.
  intros Hopen. split; [|done].
  revert w Hopen. induction ms as [|m ms IH]; intros w Hopen.
  - simpl. rewrite (right_id_L [] (++)). by destruct w as [[] ? ? ? ? ? ? ?].
  - rewrite fmap_cons, run_cons. cbn [step]. rewrite bind_Some, send_closed by done.
    rewrite IH by done. unfold queued_by. simpl. by rewrite <- (assoc_L (++)).
Qed.

End Flushing.

(** *** Lifecycle listeners: [on] and the function it returns *)

Section Listeners.
Context `{Host}.

Lemma lifecycle_set_set ev s e : lifecycle_set ev (set_lifecycle_set ev s e) = s.
Proof. by destruct ev. Qed.

Lemma lifecycle_set_other ev ev' s e :
  ev' ≠ ev → lifecycle_set ev' (set_lifecycle_set ev s e) = lifecycle_set ev' e.
Proof. by destruct ev, ev'. Qed.

Lemma set_lifecycle_set_twice ev s s' e :
  set_lifecycle_set ev s (set_lifecycle_set ev s' e) = set_lifecycle_set ev s e.
Proof. by destruct ev. Qed.

Lemma Set_delete_out h (s : list Hid) : h ∉ Set_delete h s.
Proof. unfold Set_delete. rewrite list_elem_of_filter. tauto. Qed.

Lemma socket_event_invoked ev i w w' :
  step (socket_event ev i) w = Some w' →
  invoked w' = invoked w
    ++ ((λ h, (h, lifecycle_trigger ev)) <$> lifecycle_set ev (eventHandlers (client w))).
Proof.
  destruct ev; intros Hstep; cbn [socket_event] in Hstep; cbn [lifecycle_set lifecycle_trigger].
  - destruct (sockets w !! i) as [s|] eqn:Hs; [|by rewrite (step_None_open i w) in Hstep].
    destruct (decide (readyState s = CONNECTING)) as [Hr|Hr].
    + rewrite (step_open i s w Hs Hr) in Hstep. injection Hstep as <-.
      by rewrite resolved_invoked, before_resolve_invoked.
    + cbn [step] in Hstep. rewrite Hs in Hstep. by rewrite bool_decide_eq_false_2 in Hstep.
  - cbn [step] in Hstep. destruct (socket_is _ i w); [|done]. injection Hstep as <-.
    by rewrite onclose_invoked.
  - cbn [step] in Hstep. destruct (socket_is _ i w); [|done]. injection Hstep as <-.
    apply onerror_invoked.
Qed.

Lemma off_lifecycle_set ev h w :
  lifecycle_set ev (eventHandlers (client (exec (off ev h) w)))
  = filter (λ h', h' ≠ h) (lifecycle_set ev (eventHandlers (client w))).
Proof.
  unfold off, exec, bind, gets, assign, modify. simpl. by rewrite lifecycle_set_set.
Qed.

Lemma on_lifecycle_set ev h w :
  lifecycle_set ev (eventHandlers (client (exec (on ev h) w)))
  = let before := lifecycle_set ev (eventHandlers (client w)) in
    if decide (h ∈ before) then before else before ++ [h].
Proof.
  unfold on, exec, bind, gets, assign, modify. simpl. by rewrite lifecycle_set_set.
Qed.

(** X10. [on(event, h)] puts [h] behind the listeners of that event unless it
    is one of them, and the function it returns takes [h] out and leaves the
    others as they are, in their order: the next socket event of that kind
    calls every remaining listener, once and in that order, and does not call
    [h].  Registering [h] twice is registering it once, removing it twice is
    removing it once, and neither touches the listeners of the other events
    or the message subscribers. *)
Theorem off_stops_lifecycle_listener (ev : LifecycleEvent) (h : Hid) (i : nat)
    (w w' : World) :
  step (socket_event ev i) (exec (off ev h) w) = Some w' →
  let before := lifecycle_set ev (eventHandlers (client w)) in
  let remaining := filter (λ h', h' ≠ h) before in
  lifecycle_set ev (eventHandlers (client (exec (off ev h) w))) = remaining
  ∧ invoked w' = invoked w ++ ((λ h', (h', lifecycle_trigger ev)) <$> remaining)
  ∧ (∀ h', h' ∈ before → h' ≠ h →
       ∃ new, invoked w' = invoked w ++ new ∧ (h', lifecycle_trigger ev) ∈ new)
  ∧ (∃ new, invoked w' = invoked w ++ new ∧ ∀ t, (h, t) ∉ new)
  ∧ lifecycle_set ev (eventHandlers (client (exec (on ev h) w)))
    = (if decide (h ∈ before) then before else before ++ [h])
  ∧ exec (on ev h) (exec (on ev h) w) = exec (on ev h) w
  ∧ exec (off ev h) (exec (off ev h) w) = exec (off ev h) w
  ∧ (∀ ev', ev' ≠ ev →
       lifecycle_set ev' (eventHandlers (client (exec (on ev h) w)))
         = lifecycle_set ev' (eventHandlers (client w))
       ∧ lifecycle_set ev' (eventHandlers (client (exec (off ev h) w)))
         = lifecycle_set ev' (eventHandlers (client w)))
  ∧ handlers (client (exec (on ev h) w)) = handlers (client w)
  ∧ handlers (client (exec (off ev h) w)) = handlers (client w).
Proof.
  intros Hstep before remaining.
  assert (Hcalled : invoked w' = invoked w ++ ((λ h', (h', lifecycle_trigger ev)) <$> remaining)).
  { rewrite (socket_event_invoked ev i _ _ Hstep), off_lifecycle_set. done. }
  split; [apply off_lifecycle_set|]. split; [exact Hcalled|].
  split; [|split; [|split; [apply on_lifecycle_set|split; [|split; [|split; [|done]]]]]].
  - intros h' Hin Hne. eexists. split; [exact Hcalled|].
    apply list_elem_of_fmap. exists h'. split; [done|].
    by apply list_elem_of_filter.
  - eexists. split; [exact Hcalled|].
    intros t [h' [[= <- _] Hin]]%list_elem_of_fmap.
    apply list_elem_of_filter in Hin as [Hne _]. done.
  - destruct w as [c socks touts ints next now a inv].
    destruct c as [wsv urlv roomv userv queue regs hb rt att sto evh].
    unfold on. js. rewrite lifecycle_set_set, Set_add_twice.
    by rewrite set_lifecycle_set_twice.
  - destruct w as [c socks touts ints next now a inv].
    destruct c as [wsv urlv roomv userv queue regs hb rt att sto evh].
    unfold off. js. rewrite lifecycle_set_set, Set_delete_twice.
    by rewrite set_lifecycle_set_twice.
  - intros ev' Hne. unfold on, off, exec, bind, gets, assign, modify. simpl.
    by rewrite !lifecycle_set_other.
Qed.

End Listeners.

(** *** The identity [connect] makes up *)

Section Naming.
Context `{Host}.

Lemma append_nonempty_r (s1 s2 : string) : s2 ≠ "" → s1 +:+ s2 ≠ "".
Proof. destruct s1; [done|]. discriminate. Qed.

Lemma append_nonempty_l (s1 s2 : string) : s1 ≠ "" → s1 +:+ s2 ≠ "".
Proof. by destruct s1. Qed.

Lemma or_else_nonempty a b : b ≠ "" → or_else a b ≠ "".
Proof.
  intros Hb. destruct a as [s|]; simpl; [|done].
  unfold truthy. by case_bool_decide.
Qed.

Lemma generateDisplayName_nonempty e : generateDisplayName e ≠ "".
Proof. unfold generateDisplayName. apply append_nonempty_r, append_nonempty_l. discriminate. Qed.

Lemma generateColor_nonempty e : generateColor e ≠ "".
Proof. unfold generateColor. by apply append_nonempty_l. Qed.

Lemma openSocket_user k w : user (client (exec (openSocket k) w)) = user (client w).
Proof.
  rewrite openSocket_spec. destruct (WebSocket_throws _); [|done].
  destruct k; try done. simpl.
  destruct w as [c socks touts ints next now a inv].
  destruct c as [wsv urlv roomv userv queue regs hb rt att sto evh].
  unfold scheduleReconnect, stopHeartbeat, clearInterval, setTimeout.
  by destruct hb as [hh|], rt as [hr|]; js.
Qed.

(** X11. Whatever the storage holds and whether or not the socket can be
    created, [connect] leaves a user whose name and color are not empty (an
    empty stored value is replaced by a generated one), whose [joinedAt] and
    [lastSeen] are the time of the call and who selects and views nothing;
    its id is not empty either unless [crypto.randomUUID] returns the empty
    string. *)
Theorem connect_names_the_user (room : string) (userId : option string) (e : Entropy)
    (w : World) :
  ∃ u, user (client (exec (connect room userId e) w)) = Some u
       ∧ user_name u ≠ "" ∧ user_color u ≠ ""
       ∧ joinedAt u = clock w ∧ lastSeen u = clock w
       ∧ selectedPlanetId u = None ∧ isViewingPlanet u = None
       ∧ (randomUUID e ≠ Some "" → user_id u ≠ "").
Proof.
  exists (identity w userId e). rewrite connect_spec, openSocket_user. simpl.
  split; [done|].
  split; [apply or_else_nonempty, generateDisplayName_nonempty|].
  split; [apply or_else_nonempty, generateColor_nonempty|].
  repeat split. intros Huuid. do 2 apply or_else_nonempty.
  unfold generated_id. destruct (randomUUID e) as [uuid|]; [congruence|].
  by apply append_nonempty_l.
Qed.

End Naming.

(** *** The public [reconnect] *)

Section Reconnect.
Context `{Host}.

Lemma isConnected_transport_open w :
  isConnected w = (Normal (bool_decide (is_Some (transport_open w))), w).
Proof.
  unfold isConnected, transport_open, gets. f_equal. f_equal.
  destruct (ws (client w)) as [i|]; [|done].
  rewrite bind_Some. destruct (sockets w !! i) as [s|]; [|done].
  rewrite bind_Some. by case_bool_decide.
Qed.

(** X12. [reconnect] does nothing when no room is set or the transport is
    open.  Otherwise it creates one socket, which becomes the current one.
    In no case does it close or forget a socket, cancel or arm the reconnect
    timer, touch the attempt counter or start the heartbeat. *)
Theorem reconnect_only_opens_a_socket (w : World) :
  let w' := exec reconnect w in
  (falsy (roomId (client w)) = true ∨ is_Some (transport_open w) → w' = w)
  ∧ (falsy (roomId (client w)) = false → transport_open w = None →
     WebSocket_throws (url (client w)) = false →
     sockets w' = sockets w
       ++ [{| readyState := CONNECTING; sent := []; on_resolve := AwaitReconnect |}]
     ∧ ws (client w') = Some (length (sockets w)))
  ∧ (∃ new, sockets w' = sockets w ++ new)
  ∧ timeouts w' = timeouts w
  ∧ reconnectTimer (client w') = reconnectTimer (client w)
  ∧ reconnectAttempts (client w') = reconnectAttempts (client w)
  ∧ heartbeatTimer (client w') = heartbeatTimer (client w)
  ∧ intervals w' = intervals w.
Proof.
  intros w'. unfold w', reconnect.
  rewrite (exec_bind _ _ (roomId (client w))) by done.
  change (exec (gets (λ w0, roomId (client w0))) w) with w.
  assert (Hnil : ∃ new, sockets w = sockets w ++ new).
  { exists []. by rewrite (right_id_L [] (++)). }
  destruct (falsy (roomId (client w))) eqn:Hroom; [done|].
  rewrite (exec_bind _ _ (bool_decide (is_Some (transport_open w))))
    by by rewrite isConnected_transport_open.
  replace (exec isConnected w) with w
    by (unfold exec; by rewrite isConnected_transport_open).
  case_bool_decide as Hopen.
  { split; [done|]. split; [|done].
    intros _ Hnone. rewrite Hnone in Hopen. by destruct Hopen. }
  rewrite openSocket_spec. destruct (WebSocket_throws (url (client w))); simpl.
  - split; [done|]. by split.
  - split; [intros [[=]|Ho]; done|]. split; [done|]. split; [by eexists|done].
Qed.

End Reconnect.

(** *** [updatePresence] *)

Section Presence.
Context `{Host}.

(** X13. [updatePresence] is local: it sends nothing, queues nothing and
    touches no socket or timer.  Without a user it does nothing at all; with
    one, the properties given replace the old ones, [lastSeen] becomes the
    time of the call whatever the argument says, and an argument without
    [id] keeps the id. *)
Theorem updatePresence_is_local (p : PartialPresence) (w : World) :
  let w' := exec (updatePresence p) w in
  (updatePresence p w).1 = Normal tt
  ∧ sockets w' = sockets w
  ∧ messageQueue (client w') = messageQueue (client w)
  ∧ timeouts w' = timeouts w ∧ intervals w' = intervals w
  ∧ (user (client w) = None → w' = w)
  ∧ (∀ u, user (client w) = Some u →
       ∃ u', user (client w') = Some u'
             ∧ lastSeen u' = clock w
             ∧ (p_id p = None → user_id u' = user_id u)
             ∧ (∀ v, p_selectedPlanetId p = Some v → selectedPlanetId u' = v)
             ∧ (p_selectedPlanetId p = None → selectedPlanetId u' = selectedPlanetId u)
             ∧ (∀ v, p_isViewingPlanet p = Some v → isViewingPlanet u' = v)
             ∧ (p_isViewingPlanet p = None → isViewingPlanet u' = isViewingPlanet u)).
Proof.
  intros w'. unfold w', updatePresence, getCurrentUser, Date_now, exec, bind, gets. simpl.
  destruct (user (client w)) as [u|] eqn:Hu; simpl.
  - repeat split; try done. intros u0 [= <-]. eexists. split; [done|]. simpl.
    repeat split.
    + by intros ->.
    + by intros v ->.
    + by intros ->.
    + by intros v ->.
    + by intros ->.
  - repeat split; try done.
Qed.

End Presence.

(** *** The heartbeat after an open *)

Section HeartbeatAfterOpen.
Context `{Host}.

Lemma send_beating hb ints m : keeps (beating hb ints) (send m).
Proof.
  intros w Hw. unfold exec. rewrite send_spec. simpl.
  destruct (transport_open w); [|done]. by destruct (send_throws _ _).
Qed.

Lemma before_resolve_beating w :
  (∀ h w0, r_calls (callback h OnConnected w0) = []) →
  beating (heartbeatTimer (client w)) (intervals w) (before_resolve w).
Proof.
  intros Hfree. unfold before_resolve.
  set (w2 := exec (for_of _ send) _).
  assert (Hw2 : beating (heartbeatTimer (client w)) (intervals w) w2).
  { apply keeps_for_of; [intros m _; apply send_beating|done]. }
  destruct (notify_callfree (on_connected (eventHandlers (client w2))) OnConnected w2 Hfree)
    as (a & L & ->).
  exact Hw2.
Qed.

Lemma send_heartbeatTimer m w :
  heartbeatTimer (client (exec (send m) w)) = heartbeatTimer (client w).
Proof. by apply (send_beating (heartbeatTimer (client w)) (intervals w) m w). Qed.

(** X14. What an open does to the heartbeat depends on who asked for the
    socket.  The continuation of [connect] arms it; that of the scheduled
    reconnect arms it when a user and a non-empty room are set; the
    continuation of the public [reconnect] never does: with [connected]
    listeners that make no call on the client, the heartbeat timer and the
    active intervals are after the open what they were before it. *)
Theorem open_arms_heartbeat_unless_reconnect (w : World) (i : nat) (s : Socket) :
  sockets w !! i = Some s → readyState s = CONNECTING →
  ∃ w', step (ESockOpen i) w = Some w'
    ∧ match on_resolve s with
      | AwaitConnect _ => is_Some (heartbeatTimer (client w'))
      | ThenScheduled =>
          (∃ u r, user (client w) = Some u ∧ roomId (client w) = Some r ∧ truthy r = true)
          → (∀ h w0, r_calls (callback h OnConnected w0) = [])
          → is_Some (heartbeatTimer (client w'))
      | AwaitReconnect =>
          (∀ h w0, r_calls (callback h OnConnected w0) = [])
          → heartbeatTimer (client w') = heartbeatTimer (client w)
            ∧ intervals w' = intervals w
      end.
Proof.
  intros Hs Hr. eexists. split; [by apply step_open|].
  set (w1 := with_sockets (alter (set_readyState OPEN) i) w).
  destruct (on_resolve s) as [room| |].
  - unfold resolved. rewrite (exec_bind _ _ tt) by apply startHeartbeat_normal.
    destruct (startHeartbeat_running (before_resolve w1)) as (h & Hh & _).
    set (w2 := exec startHeartbeat (before_resolve w1)) in *.
    rewrite (exec_bind _ _ (user (client w2))) by done.
    change (exec getCurrentUser w2) with w2.
    destruct (user (client w2)).
    + rewrite send_heartbeatTimer, Hh. by eexists.
    + change (exec (ret tt) w2) with w2. rewrite Hh. by eexists.
  - intros Hfree. destruct (resolved_reconnect_heartbeat (before_resolve w1)) as [-> ->].
    apply (before_resolve_beating w1 Hfree).
  - intros (u & r & Hu & Hroom & Htruthy) Hfree.
    assert (Hsame : same_machine
      (exec (for_of (messageQueue (client w1)) send)
         (with_client (set_messageQueue []) (with_client (set_reconnectAttempts 0) w1)))
      (before_resolve w1)) by by apply notify_callfree.
    assert (Hkeep : anchored (Some r) (url (client w)) true (before_resolve w1)).
    { destruct Hsame as (a & L & ->).
      apply keeps_for_of;
        [intros m _; apply (keeps_send _ (anchored_frame _ _ _))|].
      by repeat split. }
    destruct Hkeep as (Hroom1 & _ & Huser1). destruct (Huser1 eq_refl) as [u1 Hu1].
    unfold resolved.
    rewrite (exec_bind _ _ (Some u1)) by (unfold getCurrentUser, gets; simpl; by rewrite Hu1).
    change (exec getCurrentUser (before_resolve w1)) with (before_resolve w1).
    rewrite (exec_bind _ _ (Some r)) by (unfold gets; simpl; by rewrite Hroom1).
    change (exec (gets _) (before_resolve w1)) with (before_resolve w1).
    rewrite Htruthy.
    rewrite (exec_bind _ _ tt) by apply send_normal.
    destruct (startHeartbeat_running (exec (send (JoinRoomMessage r u1)) (before_resolve w1)))
      as (h & -> & _).
    by eexists.
Qed.

End HeartbeatAfterOpen.

(** *** After [disconnect] *)

Section AfterDisconnect.
Context `{Host}.


End AfterDisconnect.

(** *** A client nobody listens to *)

Section Deaf.
Context `{Host}.



Lemma Set_delete_nil h : Set_delete h ([] : list Hid) = [].
Proof. done. Qed.



End Deaf.

Section ReturnedPromises.
Context `{Host}.

(** The promises [openSocket], [connect] and [reconnect] return. *)
Lemma openSocket_returns k w :
  (openSocket k w).1 = Normal (if WebSocket_throws (url (client w)) then Rejected else Pending).
Proof.
  unfold openSocket, bind, gets. simpl. destruct (WebSocket_throws _); [|done].
  assert (Hnt : never_throws (rejected k)).
  { unfold rejected. nt_by ltac:(apply nt_scheduleReconnect). }
  destruct (Hnt w) as [[] Hx]. unfold completes in Hx.
  by destruct (rejected k w) as [[[]|] w'].
Qed.


Lemma reconnect_returns w :
  (reconnect w).1 =
  Normal (if falsy (roomId (client w)) then Fulfilled
          else if bool_decide (is_Some (transport_open w)) then Fulfilled
          else if WebSocket_throws (url (client w)) then Rejected else Pending).
Proof.
  unfold reconnect, bind, gets. cbn beta iota. destruct (falsy _); [done|].
  rewrite isConnected_transport_open. cbn beta iota.
  case_bool_decide; [done|]. apply openSocket_returns.
Qed.

End ReturnedPromises.

(** *** When the socket cannot be created *)

Section ConstructorThrows.
Context `{Host}.

Lemma reconnect_throws w :
  WebSocket_throws (url (client w)) = true → exec reconnect w = w.
Proof.
  intros Hthrows. unfold reconnect.
  rewrite (exec_bind _ _ (roomId (client w))) by done.
  change (exec (gets (λ w0, roomId (client w0))) w) with w.
  destruct (falsy (roomId (client w))); [done|].
  rewrite (exec_bind _ _ (bool_decide (is_Some (transport_open w))))
    by by rewrite isConnected_transport_open.
  replace (exec isConnected w) with w
    by (unfold exec; by rewrite isConnected_transport_open).
  case_bool_decide; [done|].
  by rewrite openSocket_spec, Hthrows.
Qed.

Lemma timeout_throws h d w :
  WebSocket_throws (url (client w)) = true → falsy (roomId (client w)) = false →
  timeouts w = [(h, d)] →
  exec reconnect_timer_fired (with_timeouts (filter (λ p, p.1 ≠ h)) w) =
  with_client (set_reconnectTimer (Some (next_handle w)))
    (with_next_handle (Pos.succ (next_handle w))
       (with_timeouts (λ _, [(next_handle w, reconnect_delay (reconnectAttempts (client w)))])
          (with_client (set_reconnectAttempts (S (reconnectAttempts (client w))))
             (exec stopHeartbeat (with_client (set_reconnectTimer None) w))))).
Proof.
  intros Hthrows Hroom Htimeouts.
  destruct w as [c socks touts ints next now a inv]; simpl in *.
  destruct c as [wsv urlv roomv userv queue regs hb rt att sto evh]; simpl in *.
  subst touts.
  unfold reconnect_timer_fired, openSocket, rejected, scheduleReconnect, stopHeartbeat,
    clearInterval, setTimeout.
  js. rewrite Hroom. js. rewrite Hthrows. js.
  rewrite filter_cons_False by (simpl; auto). rewrite filter_nil.
  by destruct hb.
Qed.

(** X16. When [new WebSocket] throws, nothing is created and only the
    scheduled reconnect tries again: [connect] and [reconnect] leave the
    sockets, the pending timeouts and the reconnect timer as they were
    ([connect] still sets the user and the room), whereas the function of the
    reconnect timer arms the next timer, with the delay of the next attempt,
    and counts the attempt. *)
Theorem socket_creation_failure (w : World) :
  WebSocket_throws (url (client w)) = true →
  (∀ room userId e,
     let w' := exec (connect room userId e) w in
     sockets w' = sockets w ∧ ws (client w') = ws (client w)
     ∧ timeouts w' = timeouts w ∧ reconnectTimer (client w') = reconnectTimer (client w)
     ∧ roomId (client w') = Some room ∧ is_Some (user (client w')))
  ∧ exec reconnect w = w
  ∧ (∀ h, timer_inv w → h ∈ (timeouts w).*1 → falsy (roomId (client w)) = false →
       ∃ w' h', step (ETimeout h) w = Some w'
         ∧ sockets w' = sockets w
         ∧ reconnectAttempts (client w') = S (reconnectAttempts (client w))
         ∧ reconnectTimer (client w') = Some h'
         ∧ timeouts w' = [(h', reconnect_delay (reconnectAttempts (client w)))]).
Proof.
  intros Hthrows. split; [|split; [by apply reconnect_throws|]].
  - intros room userId e w'. unfold w'. rewrite connect_spec, openSocket_spec. simpl.
    rewrite Hthrows. by repeat split.
  - intros h Htimer Hin Hroom.
    assert (Hone : ∃ d, timeouts w = [(h, d)]).
    { unfold timer_inv in Htimer.
      destruct (reconnectTimer (client w)) as [h0|];
        [|rewrite Htimer in Hin; by apply not_elem_of_nil in Hin].
      rewrite Htimer in Hin. apply list_elem_of_singleton in Hin as ->.
      by apply fst_singleton. }
    destruct Hone as [d Hd].
    eexists _, (next_handle w). split.
    { cbn [step]. rewrite bool_decide_eq_true_2 by done.
      by rewrite (timeout_throws h d w Hthrows Hroom Hd). }
    simpl. repeat split;
      unfold stopHeartbeat, clearInterval, exec, bind, gets, assign, modify; simpl;
      by destruct (heartbeatTimer (client w)).
Qed.

End ConstructorThrows.

Section ProbeRuns.
#[local] Existing Instance Probe.sig.
#[local] Existing Instance Probe.host.

(** C3, at the failing input.  The user connects and the transport opens;
    [disconnect()] is called; the socket it closed reports [close]; the
    timer armed by that [close] fires and the new socket opens: the client is
    connected again, has sent [join] again and runs its heartbeat.  The same
    happens when [disconnect()] is called while a reconnect is in flight. *)
Theorem disconnect_does_not_end_session :
  (∃ w, run [EConnect "R1" None Probe.entropy; ESockOpen 0; EDisconnect;
             ESockClose 0; ETimeout 2; ESockOpen 1] Probe.fresh = Some w
        ∧ transport_open w = Some 1%nat
        ∧ sent <$> sockets w !! 1%nat = Some [probe_join]
        ∧ is_Some (heartbeatTimer (client w)))
  ∧ (∃ w, run [EConnect "R1" None Probe.entropy; ESockOpen 0; ESockClose 0; ETimeout 2;
               EDisconnect; ESockClose 1; ETimeout 3; ESockOpen 2] Probe.fresh = Some w
          ∧ transport_open w = Some 2%nat
          ∧ sent <$> sockets w !! 2%nat = Some [probe_join]
          ∧ is_Some (heartbeatTimer (client w))).
Proof.
  split; (eexists; split; [vm_compute; reflexivity|]);
    (repeat split; [vm_compute; reflexivity..|by eexists]).
Qed.

(** C5, at the failing input.  The transport opens, then closes; before the
    reconnect timer fires the application calls [reconnect()] and its socket
    opens: the transport is open, [join] has been sent, and no heartbeat is
    armed.  On the two sibling paths it is. *)
Theorem reconnect_opens_without_heartbeat :
  (∃ w, run [EConnect "R1" None Probe.entropy; ESockOpen 0; ESockClose 0;
             EReconnect; ESockOpen 1] Probe.fresh = Some w
        ∧ transport_open w = Some 1%nat
        ∧ sent <$> sockets w !! 1%nat = Some [probe_join]
        ∧ heartbeatTimer (client w) = None
        ∧ intervals w = [])
  ∧ (∃ w, run [EConnect "R1" None Probe.entropy; ESockOpen 0] Probe.fresh = Some w
          ∧ heartbeatTimer (client w) = Some 1%positive
          ∧ intervals w = [(1%positive, 30000)])
  ∧ (∃ w, run [EConnect "R1" None Probe.entropy; ESockOpen 0; ESockClose 0;
               ETimeout 2; ESockOpen 1] Probe.fresh = Some w
          ∧ heartbeatTimer (client w) = Some 3%positive
          ∧ intervals w = [(3%positive, 30000)]).
Proof.
  repeat split; (eexists; split; [vm_compute; reflexivity|]);
    repeat split; vm_compute; reflexivity.
Qed.

End ProbeRuns.

Section ProbeWitnesses.
#[local] Existing Instance Probe.sig.
#[local] Existing Instance Probe.host.


Lemma reconnect_backoff_witness :
  (WebSocket_throws (url (new_RealtimeClient probe_options Probe.globals)) = false
   ∧ truthy "R1" = true ∧ (1 ≤ 5)%nat)
  ∧ ((∃ w h, run (failures "R1" None Probe.entropy 5)
               Probe.fresh = Some w
             ∧ timeouts w = [(h, Z.min (1000 * 2 ^ (Z.of_nat 5 - 1)) 15000)]
             ∧ reconnectTimer (client w) = Some h
             ∧ reconnectAttempts (client w) = 5%nat)
     ∧ reconnect_delay <$> [0; 1; 2; 3; 4]%nat = [1000; 2000; 4000; 8000; 15000]
     ∧ (∀ w, reconnectAttempts (client (exec scheduleReconnect w)) =
             match reconnectTimer (client w) with
             | Some _ => reconnectAttempts (client w)
             | None => S (reconnectAttempts (client w))
             end)
     ∧ (∀ w, reachable Probe.fresh w →
             (length (timeouts w) ≤ 1)%nat)).
Proof.
  split; [repeat split; lia|].
  apply (@reconnect_backoff Probe.sig Probe.host probe_options Probe.globals 1700000000000 [] "R1" None
           Probe.entropy 5); [reflexivity|reflexivity|lia].
Defined.

Lemma unhandled_payload_dropped_witness :
  (unhandled probe_audience "{oops" = true
   ∧ unhandled probe_audience "type:selection_state" = true)
  ∧ (onmessage "{oops" probe_audience = (Normal tt, probe_audience)
     ∧ ∀ i w', step (ESockMessage i "{oops") probe_audience = Some w' → w' = probe_audience)
  ∧ (onmessage "type:selection_state" probe_audience = (Normal tt, probe_audience)
     ∧ ∀ i w', step (ESockMessage i "type:selection_state") probe_audience = Some w' →
               w' = probe_audience).
Proof.
  split; [split; vm_compute; reflexivity|]. split.
  - apply (unhandled_payload_dropped probe_audience "{oops"). vm_compute; reflexivity.
  - apply (unhandled_payload_dropped probe_audience "type:selection_state").
    vm_compute; reflexivity.
Defined.

Lemma dispatch_fans_out_witness :
  let msg : Msg := Some "presence" in
  let w := probe_audience in
  let set := [1; 2; 3]%nat in
  (msg_type msg = Some "presence" ∧ handlers (client w) !! "presence" = Some set)
  ∧ ((dispatch msg w).1 = Normal tt
     ∧ invoked (exec (dispatch msg) w) = invoked w ++ ((λ h, (h, OnMessage msg)) <$> set)
     ∧ (∀ h, h ∈ set → (h, OnMessage msg) ∈ invoked (exec (dispatch msg) w))
     ∧ (∀ type h w0,
          handlers (client (exec (subscribe type h) w0)) !! tag_name type =
          Some (let members := default [] (handlers (client w0) !! tag_name type) in
                if decide (h ∈ members) then members else members ++ [h]))
     ∧ (∀ type hs w0, NoDup hs → hs ≠ [] →
          default [] (handlers (client w0) !! tag_name type) = [] →
          handlers (client (exec (for_of hs (subscribe type)) w0)) !! tag_name type = Some hs)).
Proof.
  intros msg w set. split; [split; vm_compute; reflexivity|].
  apply (dispatch_fans_out w msg "presence" set); vm_compute; reflexivity.
Defined.

Lemma subscribe_unsubscribe_witness :
  let w := probe_audience in
  let h := 2%nat in
  let es := [ESockMessage 0 "type:presence"] in
  let w' := probe_after_unsubscribe in
  let msg : Msg := Some "presence" in
  (∃ new, invoked w' = invoked w ++ new
          ∧ ∀ m, msg_type m = Some (tag_name presence) → (h, OnMessage m) ∉ new)
  ∧ exec (subscribe presence h) (exec (subscribe presence h) w) = exec (subscribe presence h) w
  ∧ (let w2 := exec (subscribe presence h) (exec (subscribe presence h) w) in
     ∃ new, invoked (exec (dispatch msg) w2) = invoked w2 ++ new
            ∧ length (filter (λ c, c.1 = h) new) = 1%nat)
  ∧ exec (unsubscribe presence h) (exec (unsubscribe presence h) w)
    = exec (unsubscribe presence h) w.
Proof.
  intros w h es w' msg.
  apply (subscribe_unsubscribe w presence h es w' msg).
  - repeat constructor. discriminate.
  - vm_compute; reflexivity.
  - vm_compute. compute_done.
  - reflexivity.
Defined.


End ProbeWitnesses.

Section ProbeExtras.
#[local] Existing Instance Probe.sig.
#[local] Existing Instance Probe.host.

Lemma probe_session_reachable : reachable Probe.fresh probe_session.
Proof.
  apply (run_reachable [EConnect "R1" None Probe.entropy; ESockOpen 0]).
  vm_compute; reflexivity.
Qed.

Lemma heartbeat_single_interval_witness :
  reachable Probe.fresh probe_session
  ∧ intervals probe_session =
      match heartbeatTimer (client probe_session) with
      | Some h => [(h, 30000)]
      | None => []
      end
  ∧ (length (intervals probe_session) ≤ 1)%nat.
Proof.
  split; [exact probe_session_reachable|].
  apply (@heartbeat_single_interval Probe.sig Probe.host probe_options Probe.globals
           1700000000000 [] probe_session).
  exact probe_session_reachable.
Defined.

Lemma room_and_user_survive_witness :
  let es := [ESockOpen 0; EDisconnect; ESockClose 0; ETimeout 2] in
  (Forall not_connect es ∧ run es probe_connecting = Some probe_after_disconnect
   ∧ roomId (client probe_connecting) = Some "R1")
  ∧ roomId (client probe_after_disconnect) = roomId (client probe_connecting)
  ∧ url (client probe_after_disconnect) = url (client probe_connecting)
  ∧ (is_Some (user (client probe_connecting)) →
     is_Some (user (client probe_after_disconnect))).
Proof.
  intros es.
  assert (Hes : Forall not_connect es) by (repeat constructor).
  assert (Hrun : run es probe_connecting = Some probe_after_disconnect)
    by (vm_compute; reflexivity).
  split; [split; [exact Hes|split; [exact Hrun|vm_compute; reflexivity]]|].
  exact (room_and_user_survive es probe_connecting probe_after_disconnect Hes Hrun).
Defined.

Lemma close_schedules_reconnect_witness :
  (reachable Probe.fresh probe_session
   ∧ step (ESockClose 0) probe_session = Some probe_closed)
  ∧ heartbeatTimer (client probe_closed) = None
  ∧ intervals probe_closed = []
  ∧ ∃ h d, reconnectTimer (client probe_closed) = Some h
           ∧ timeouts probe_closed = [(h, d)]
           ∧ 1000 ≤ d ≤ 15000.
Proof.
  assert (Hstep : step (ESockClose 0) probe_session = Some probe_closed)
    by (vm_compute; reflexivity).
  split; [split; [exact probe_session_reachable|exact Hstep]|].
  exact (@close_schedules_reconnect Probe.sig Probe.host probe_options Probe.globals
           1700000000000 [] probe_session probe_closed 0%nat probe_session_reachable Hstep).
Defined.

Lemma open_flushes_then_joins_witness :
  let s := {| readyState := CONNECTING; sent := []; on_resolve := AwaitConnect "R1" |} in
  (sockets probe_queued !! 0%nat = Some s
   ∧ ws (client probe_queued) = Some 0%nat
   ∧ messageQueue (client probe_queued) = [probe_select; probe_unselect])
  ∧ ∃ w' s', step (ESockOpen 0) probe_queued = Some w'
      ∧ sockets w' !! 0%nat = Some s' ∧ readyState s' = OPEN
      ∧ sent s' = sent s
          ++ (JSON_stringify <$> (messageQueue (client probe_queued)
                                    ++ rejoin (on_resolve s) probe_queued))
      ∧ messageQueue (client w') = []
      ∧ reconnectAttempts (client w') = 0%nat.
Proof.
  intros s. split; [split; [|split]; vm_compute; reflexivity|].
  apply (open_flushes_then_joins probe_queued 0%nat s).
  - vm_compute; reflexivity.
  - reflexivity.
  - vm_compute; reflexivity.
  - reflexivity.
  - reflexivity.
Defined.

Lemma sends_while_closed_queue_in_order_witness :
  let ms := [probe_select; probe_unselect] in
  transport_open probe_connecting = None
  ∧ run (ESend <$> ms) probe_connecting =
      Some (with_client (set_messageQueue (messageQueue (client probe_connecting) ++ ms))
              probe_connecting)
  ∧ frames (with_client (set_messageQueue (messageQueue (client probe_connecting) ++ ms))
              probe_connecting) = frames probe_connecting.
Proof.
  intros ms. split; [vm_compute; reflexivity|].
  apply (sends_while_closed_queue_in_order ms probe_connecting).
  vm_compute; reflexivity.
Defined.

Lemma off_stops_lifecycle_listener_witness :
  let w := probe_listening in
  let w' := probe_after_error in
  let ev := failed in
  let h := 7%nat in
  let before := lifecycle_set ev (eventHandlers (client w)) in
  let remaining := filter (λ h', h' ≠ h) before in
  (before = [4%nat; 7%nat; 9%nat]
   ∧ step (socket_event ev 0) (exec (off ev h) w) = Some w')
  ∧ lifecycle_set ev (eventHandlers (client (exec (off ev h) w))) = remaining
  ∧ invoked w' = invoked w ++ ((λ h', (h', lifecycle_trigger ev)) <$> remaining)
  ∧ (∀ h', h' ∈ before → h' ≠ h →
       ∃ new, invoked w' = invoked w ++ new ∧ (h', lifecycle_trigger ev) ∈ new)
  ∧ (∃ new, invoked w' = invoked w ++ new ∧ ∀ t, (h, t) ∉ new)
  ∧ lifecycle_set ev (eventHandlers (client (exec (on ev h) w)))
    = (if decide (h ∈ before) then before else before ++ [h])
  ∧ exec (on ev h) (exec (on ev h) w) = exec (on ev h) w
  ∧ exec (off ev h) (exec (off ev h) w) = exec (off ev h) w
  ∧ (∀ ev', ev' ≠ ev →
       lifecycle_set ev' (eventHandlers (client (exec (on ev h) w)))
         = lifecycle_set ev' (eventHandlers (client w))
       ∧ lifecycle_set ev' (eventHandlers (client (exec (off ev h) w)))
         = lifecycle_set ev' (eventHandlers (client w)))
  ∧ handlers (client (exec (on ev h) w)) = handlers (client w)
  ∧ handlers (client (exec (off ev h) w)) = handlers (client w).
Proof.
  intros w w' ev h before remaining.
  assert (Hstep : step (socket_event ev 0) (exec (off ev h) w) = Some w')
    by (vm_compute; reflexivity).
  split; [split; [vm_compute; reflexivity|exact Hstep]|].
  exact (off_stops_lifecycle_listener ev h 0%nat w w' Hstep).
Defined.

Lemma open_arms_heartbeat_unless_reconnect_witness :
  let s := {| readyState := CONNECTING; sent := []; on_resolve := AwaitReconnect |} in
  let w := probe_reconnecting in
  (sockets w !! 1%nat = Some s ∧ heartbeatTimer (client w) = None)
  ∧ ∃ w', step (ESockOpen 1) w = Some w'
      ∧ ((∀ h w0, r_calls (callback h OnConnected w0) = [])
         → heartbeatTimer (client w') = heartbeatTimer (client w)
           ∧ intervals w' = intervals w).
Proof.
  intros s w. split; [split; vm_compute; reflexivity|].
  apply (open_arms_heartbeat_unless_reconnect w 1%nat s).
  - vm_compute; reflexivity.
  - reflexivity.
Defined.



End ProbeExtras.

Section BlockedProbe.
#[local] Existing Instance Probe.sig.

#[local] Existing Instance blocked.

Lemma socket_creation_failure_witness :
  (WebSocket_throws (url (client probe_closed)) = true
   ∧ timeouts probe_closed = [(2%positive, 1000)]
   ∧ reconnectAttempts (client probe_closed) = 1%nat)
  ∧ ∃ w' h', step (ETimeout 2) probe_closed = Some w'
      ∧ sockets w' = sockets probe_closed
      ∧ reconnectAttempts (client w') = S (reconnectAttempts (client probe_closed))
      ∧ reconnectTimer (client w') = Some h'
      ∧ timeouts w' = [(h', reconnect_delay (reconnectAttempts (client probe_closed)))].
Proof.
  split; [split; [reflexivity|split; vm_compute; reflexivity]|].
  assert (Hthrows : WebSocket_throws (url (client probe_closed)) = true) by reflexivity.
  destruct (socket_creation_failure probe_closed Hthrows) as (_ & _ & Hfire).
  apply (Hfire 2%positive).
  - vm_compute; reflexivity.
  - vm_compute. left.
  - reflexivity.
Defined.

End BlockedProbe.

Import RealtimeContext.

Section ProviderFacts.
Context `{Platform}.

Lemma Map_of_entries_id {V} (record : gmap string V) : Map_of_entries record = record.
Proof.
  unfold Map_of_entries.
  assert (Hgen : ∀ (l : list (string * V)) (acc : gmap string V), NoDup l.*1 →
    foldl (λ m e, <[e.1 := e.2]> m) acc l = list_to_map l ∪ acc).
  { induction l as [|[k v] l IH]; intros acc Hnd; simpl.
    - by rewrite (left_id_L ∅ (∪)).
    - apply NoDup_cons in Hnd as [Hk Hnd]. rewrite IH by done.
      rewrite <- insert_union_r by by apply not_elem_of_list_to_map_1.
      by rewrite insert_union_l. }
  rewrite Hgen by apply NoDup_fst_map_to_list.
  by rewrite (right_id_L ∅ (∪)), list_to_map_to_list.
Qed.

(** Running one of the provider's functions that makes no call on the client. *)
Lemma invoke_quiet h t w a :
  provider_callback h t w = quiet a →
  invoke h t w = (Normal tt, with_app a (with_invoked (λ l, l ++ [(h, t)]) w)).
Proof.
  intros Hq. unfold invoke, bind, gets, modify. simpl. rewrite Hq. done.
Qed.

(** On a [selection_state] message only the selection subscriber acts. *)
Lemma selection_state_others h selected w :
  h ≠ h_selection_state →
  provider_callback h (OnMessage (SelectionStateMessage selected)) w = quiet (app w).
Proof. by destruct h. Qed.

Lemma notify_cons h set t w :
  exec (notify (h :: set) t) w = exec (notify set t) (exec (invoke h t) w).
Proof.
  unfold notify. cbn [for_of]. unfold exec, bind, try_catch.
  by destruct (invoke h t w) as [[[]|] w1].
Qed.

Lemma notify_selection_state set selected w :
  selectedPlanets (app (exec (notify set (OnMessage (SelectionStateMessage selected))) w)) =
  if bool_decide (h_selection_state ∈ set) then selected else selectedPlanets (app w).
Proof.
  revert w. induction set as [|h set IH]; intros w; [done|].
  rewrite notify_cons, IH. unfold exec at 1.
  destruct (decide (h = h_selection_state)) as [->|Hh].
  - rewrite (invoke_quiet _ _ _ (setSelectedPlanets (λ _, Map_of_entries selected) (app w)))
      by done.
    rewrite (bool_decide_eq_true_2 (h_selection_state ∈ h_selection_state :: set)) by left.
    cbn [snd with_app app setSelectedPlanets selectedPlanets].
    rewrite Map_of_entries_id. by case_bool_decide.
  - rewrite (invoke_quiet _ _ _ (app w)) by by apply selection_state_others.
    cbn [snd with_app app].
    destruct (bool_decide (h_selection_state ∈ set)) eqn:Hin.
    + apply bool_decide_eq_true in Hin.
      rewrite (bool_decide_eq_true_2 (h_selection_state ∈ h :: set)); [done|by right].
    + apply bool_decide_eq_false in Hin.
      rewrite (bool_decide_eq_false_2 (h_selection_state ∈ h :: set)); [done|].
      by intros [?|?]%elem_of_cons.
Qed.

Lemma dispatch_selection_state set selected w :
  handlers (client w) !! "selection_state" = Some set → h_selection_state ∈ set →
  selectedPlanets (app (exec (dispatch (SelectionStateMessage selected)) w)) = selected.
Proof.
  intros Hset Hin.
  rewrite (dispatch_notify _ "selection_state" set) by done.
  by rewrite notify_selection_state, bool_decide_eq_true_2.
Qed.

(** On a [conflict] message only the conflict subscriber acts. *)
Lemma conflict_others h planetId lockedBy reason w :
  h ≠ h_conflict →
  provider_callback h (OnMessage (ConflictMessage planetId lockedBy reason)) w = quiet (app w).
Proof. by destruct h. Qed.

(** ... and it does nothing without an outstanding attempt. *)
Lemma conflict_idle planetId lockedBy reason w :
  lastSelectAttemptRef (app w) = None →
  provider_callback h_conflict (OnMessage (ConflictMessage planetId lockedBy reason)) w
  = quiet (app w).
Proof. intros Href. simpl. rewrite Href. by destruct (user (client w)). Qed.

Lemma conflict_rollback planetId lockedBy reason me w :
  user (client w) = Some me → lastSelectAttemptRef (app w) = Some planetId →
  truthy planetId = true →
  app (exec (invoke h_conflict (OnMessage (ConflictMessage planetId lockedBy reason))) w)
  = rolled_back (user_id me) planetId lockedBy reason (app w).
Proof.
  intros Hme Href Htruthy.
  unfold invoke, exec, bind, gets, modify. simpl.
  rewrite Hme, Href, Htruthy, bool_decide_eq_true_2 by done. simpl.
  unfold updatePresence, getCurrentUser, Date_now. js. rewrite Hme. done.
Qed.

Lemma notify_conflict_after set planetId lockedBy reason w :
  lastSelectAttemptRef (app w) = None →
  app (exec (notify set (OnMessage (ConflictMessage planetId lockedBy reason))) w) = app w.
Proof.
  revert w. induction set as [|h set IH]; intros w Href; [done|].
  rewrite notify_cons. unfold exec at 2.
  destruct (decide (h = h_conflict)) as [->|Hh].
  - rewrite (invoke_quiet _ _ _ (app w)) by by apply conflict_idle.
    by rewrite IH.
  - rewrite (invoke_quiet _ _ _ (app w)) by by apply conflict_others.
    by rewrite IH.
Qed.

Lemma notify_conflict set planetId lockedBy reason me w :
  user (client w) = Some me → lastSelectAttemptRef (app w) = Some planetId →
  truthy planetId = true → h_conflict ∈ set →
  app (exec (notify set (OnMessage (ConflictMessage planetId lockedBy reason))) w)
  = rolled_back (user_id me) planetId lockedBy reason (app w).
Proof.
  revert w. induction set as [|h set IH]; intros w Hme Href Htruthy Hin;
    [by apply not_elem_of_nil in Hin|].
  rewrite notify_cons.
  destruct (decide (h = h_conflict)) as [->|Hh].
  - rewrite notify_conflict_after; [by apply conflict_rollback|].
    by erewrite conflict_rollback.
  - unfold exec at 2.
    rewrite (invoke_quiet _ _ _ (app w)) by by apply conflict_others.
    cbn [snd]. apply elem_of_cons in Hin as [Heq|Hin]; [congruence|].
    by rewrite IH.
Qed.

Lemma dispatch_conflict set planetId lockedBy reason me w :
  handlers (client w) !! "conflict" = Some set → h_conflict ∈ set →
  user (client w) = Some me → lastSelectAttemptRef (app w) = Some planetId →
  truthy planetId = true →
  app (exec (dispatch (ConflictMessage planetId lockedBy reason)) w)
  = rolled_back (user_id me) planetId lockedBy reason (app w).
Proof.
  intros Hset Hin Hme Href Htruthy.
  rewrite (dispatch_notify _ "conflict" set) by done.
  by apply notify_conflict.
Qed.

Lemma selectPlanet_spec planetId me w :
  clientRef (app w) = true → user (client w) = Some me →
  (selectPlanet planetId w).1 = Normal true
  ∧ app (exec (selectPlanet planetId) w)
    = set_lastSelectAttemptRef (Some planetId)
        (setSelectedPlanets
           (λ prev, <[planetId := with_self (user_id me) (default [] (prev !! planetId))]> prev)
           (app w)).
Proof.
  intros Href Hme.
  destruct w as [c socks touts ints next now a inv]; simpl in *.
  destruct c as [wsv urlv roomv userv queue regs hb rt att sto evh]; simpl in *.
  subst. unfold selectPlanet, getCurrentUser, setState, updatePresence, Date_now.
  js. rewrite Href. js. rewrite send_spec. simpl.
  split; [done|].
  destruct (transport_open _) as [i|]; [|done].
  by destruct (socket_send_throws _ _).
Qed.

End ProviderFacts.

Section ProviderClaims.
Context `{Platform}.

(** The optimistic selection and its rollback, where the code has them.
    With a mounted provider and a current user, [selectPlanet] answers
    [true], puts self into the entry of the planet unless it is there,
    touches no other entry and records the planet as the attempt.  A conflict
    that arrives while the recorded attempt is that planet, the planet's id
    being a non-empty string, removes self from the entry, deletes the entry
    if that empties it, and sets [lastConflict]. *)
Theorem selectPlanet_rolls_back_on_conflict (w w2 : World) (me me2 : UserPresence)
    (planetId lockedBy : string) (reason : option string) (set : list Hid) :
  clientRef (app w) = true → user (client w) = Some me →
  user (client w2) = Some me2 → lastSelectAttemptRef (app w2) = Some planetId →
  handlers (client w2) !! "conflict" = Some set → h_conflict ∈ set →
  planetId ≠ "" →
  let w1 := exec (selectPlanet planetId) w in
  let w3 := exec (dispatch (ConflictMessage planetId lockedBy reason)) w2 in
  let entry := default [] (selectedPlanets (app w) !! planetId) in
  let kept := filter (λ u, u ≠ user_id me2) (default [] (selectedPlanets (app w2) !! planetId)) in
  (selectPlanet planetId w).1 = Normal true
  ∧ selectedPlanets (app w1) !! planetId =
      Some (if bool_decide (user_id me ∈ entry) then entry else entry ++ [user_id me])
  ∧ (∀ other, other ≠ planetId →
       selectedPlanets (app w1) !! other = selectedPlanets (app w) !! other)
  ∧ lastSelectAttemptRef (app w1) = Some planetId
  ∧ selectedPlanets (app w3) !! planetId = (if kept is [] then None else Some kept)
  ∧ (∀ other, other ≠ planetId →
       selectedPlanets (app w3) !! other = selectedPlanets (app w2) !! other)
  ∧ conflict_rolls_back (user_id me2) planetId lockedBy reason w2.
Proof.
  intros Href Hme Hme2 Hattempt Hset Hin Hne w1 w3 entry kept.
  destruct (selectPlanet_spec planetId me w Href Hme) as [Hret Happ].
  assert (Htruthy : truthy planetId = true) by by apply bool_decide_eq_true_2.
  pose proof (dispatch_conflict set planetId lockedBy reason me2 w2 Hset Hin Hme2 Hattempt
    Htruthy) as Hroll.
  assert (Hentry : selectedPlanets (app w3) !! planetId = (if kept is [] then None else Some kept)).
  { unfold w3. rewrite Hroll. simpl. unfold without_self. fold kept.
    destruct kept; simpl; [apply lookup_delete_eq|apply lookup_insert_eq]. }
  repeat split.
  - done.
  - unfold w1. rewrite Happ. simpl. by rewrite lookup_insert_eq.
  - intros other Hother. unfold w1. rewrite Happ. simpl. by rewrite lookup_insert_ne.
  - unfold w1. by rewrite Happ.
  - done.
  - intros other Hother. unfold w3. rewrite Hroll. simpl. unfold without_self.
    case_bool_decide; [by rewrite lookup_delete_ne|by rewrite lookup_insert_ne].
  - fold w3. rewrite Hentry. destruct kept eqn:Hkept; simpl; [apply not_elem_of_nil|].
    rewrite <- Hkept. unfold kept. rewrite list_elem_of_filter. tauto.
  - fold w3. unfold w3. by rewrite Hroll.
Qed.

(** C6. A [selection_state] message dispatched to a client that carries the
    provider's selection subscriber leaves [selectedPlanets] equal to the map
    of the message: entry for entry, whatever the map held before. *)
Theorem selection_state_replaces (w : World) (selected : gmap string (list string))
    (set : list Hid) :
  handlers (client w) !! "selection_state" = Some set → h_selection_state ∈ set →
  let w' := exec (dispatch (SelectionStateMessage selected)) w in
  selectedPlanets (app w') = selected
  ∧ (∀ planetId, selectedPlanets (app w') !! planetId = selected !! planetId).
Proof.
  intros Hset Hin w'.
  assert (Heq : selectedPlanets (app w') = selected) by by eapply dispatch_selection_state.
  split; [done|]. intros planetId. by rewrite Heq.
Qed.

End ProviderClaims.

(** ** Further properties of the provider *)

Section Projection.
Context `{Platform}.

Lemma notify_sole h0 t f set w :
  sole_reaction h0 t f → (∀ a, f (f a) = f a) →
  app (exec (notify set t) w) = if bool_decide (h0 ∈ set) then f (app w) else app w.
Proof.
  intros [Hothers Hown] Hidem. revert w. induction set as [|h set IH]; intros w; [done|].
  rewrite notify_cons, IH. unfold exec at 1 2.
  destruct (decide (h = h0)) as [->|Hh].
  - rewrite (invoke_quiet _ _ _ (f (app w))) by apply Hown.
    rewrite (bool_decide_eq_true_2 (h0 ∈ h0 :: set)) by left.
    cbn [snd with_app app]. rewrite Hidem. by case_bool_decide.
  - rewrite (invoke_quiet _ _ _ (app w)) by by apply Hothers.
    cbn [snd with_app app].
    destruct (bool_decide (h0 ∈ set)) eqn:Hin.
    + apply bool_decide_eq_true in Hin.
      rewrite (bool_decide_eq_true_2 (h0 ∈ h :: set)); [done|by right].
    + apply bool_decide_eq_false in Hin.
      rewrite (bool_decide_eq_false_2 (h0 ∈ h :: set)); [done|].
      intros [?|?]%elem_of_cons; [congruence|done].
Qed.

Lemma dispatch_sole h0 msg f set w :
  sole_reaction h0 (OnMessage msg) f → (∀ a, f (f a) = f a) →
  handlers (client w) !! tag_name (server_tag msg) = Some set → h0 ∈ set →
  app (exec (dispatch msg) w) = f (app w).
Proof.
  intros Hsole Hidem Hset Hin.
  rewrite (dispatch_notify _ (tag_name (server_tag msg)) set) by done.
  by rewrite (notify_sole h0 _ f), bool_decide_eq_true_2.
Qed.

Lemma presence_sole users :
  sole_reaction h_presence (OnMessage (PresenceUpdateMessage users)) (setPeers users).
Proof. split; [by intros []|done]. Qed.

Lemma camera_sole planetId cam userId :
  sole_reaction h_camera (OnMessage (ServerCameraUpdateMessage planetId cam userId))
    (setCamerasInPlanet (λ prev,
       <[planetId := <[userId := cam]> (default ∅ (prev !! planetId))]> prev)).
Proof. split; [by intros []|done]. Qed.

Lemma viewer_cameras_sole planetId cameras :
  sole_reaction h_viewer_cameras (OnMessage (ViewerCamerasMessage planetId cameras))
    (setCamerasInPlanet (λ prev, <[planetId := cameras]> prev)).
Proof.
  split; [by intros []|]. intros w. simpl. by rewrite Map_of_entries_id.
Qed.

Lemma error_message_sole op code message :
  sole_reaction h_error_message (OnMessage (ErrorMessage op code message))
    (setConnectionError (Some (if truthy message then message else "Realtime error"))).
Proof. split; [by intros []|done]. Qed.

(** X17. A [presence] message dispatched to the provider replaces the list of
    peers by the users of the message, in their order; nothing of the old
    list is kept and nothing else of the state changes. *)
Theorem presence_replaces_peers (w : World) (users : list UserPresence) (set : list Hid) :
  handlers (client w) !! "presence" = Some set → h_presence ∈ set →
  app (exec (dispatch (PresenceUpdateMessage users)) w) = setPeers users (app w)
  ∧ peers (app (exec (dispatch (PresenceUpdateMessage users)) w)) = users.
Proof.
  intros Hset Hin.
  rewrite (dispatch_sole h_presence _ (setPeers users) set); try done.
  apply presence_sole.
Qed.

(** X18. A [camera] message sets the camera of its user in the inner map of
    its planet, creating that map if the planet had none; the cameras of the
    other users viewing that planet and the maps of the other planets stay
    as they were. *)
Theorem camera_message_sets_one_camera (w : World) (planetId userId : string)
    (cam : CameraState) (set : list Hid) :
  handlers (client w) !! "camera" = Some set → h_camera ∈ set →
  let before := camerasInPlanet (app w) in
  let after := camerasInPlanet (app (exec (dispatch (ServerCameraUpdateMessage planetId cam userId)) w)) in
  (∃ inner, after !! planetId = Some inner
            ∧ inner !! userId = Some cam
            ∧ ∀ other, other ≠ userId →
                inner !! other = default ∅ (before !! planetId) !! other)
  ∧ (∀ other, other ≠ planetId → after !! other = before !! other).
Proof.
  intros Hset Hin before after. unfold after.
  rewrite (dispatch_sole h_camera _ _ set _ (camera_sole planetId cam userId)); try done.
  - simpl. split.
    + eexists. split; [apply lookup_insert_eq|]. split; [apply lookup_insert_eq|].
      intros other Hother. by rewrite lookup_insert_ne.
    + intros other Hother. by rewrite lookup_insert_ne.
  - intros a. unfold setCamerasInPlanet. simpl. f_equal.
    rewrite lookup_insert_eq. cbn [default from_option id].
    by rewrite !insert_insert_eq.
Qed.

(** X19. A [viewer_cameras] message replaces the inner map of its planet by
    exactly the cameras it carries, and leaves the other planets alone. *)
Theorem viewer_cameras_replaces_planet (w : World) (planetId : string)
    (cameras : gmap string CameraState) (set : list Hid) :
  handlers (client w) !! "viewer_cameras" = Some set → h_viewer_cameras ∈ set →
  let before := camerasInPlanet (app w) in
  let after := camerasInPlanet (app (exec (dispatch (ViewerCamerasMessage planetId cameras)) w)) in
  after !! planetId = Some cameras
  ∧ (∀ other, other ≠ planetId → after !! other = before !! other).
Proof.
  intros Hset Hin before after. unfold after.
  rewrite (dispatch_sole h_viewer_cameras _ _ set _ (viewer_cameras_sole planetId cameras));
    try done.
  - simpl. split; [apply lookup_insert_eq|].
    intros other Hother. by rewrite lookup_insert_ne.
  - intros a. unfold setCamerasInPlanet. simpl. f_equal. by rewrite insert_insert_eq.
Qed.

End Projection.

(** *** The reactions chained on the promises *)

Section Promises.
Context `{Platform}.

Lemma connect_fulfilled_world w :
  exec connect_fulfilled w = with_app (setCurrentUser (user (client w)) (app w)) w.
Proof. done. Qed.


Lemma reconnect_fulfilled_world w :
  exec reconnect_fulfilled w =
  with_app (setConnectionError None
    (setIsConnected (bool_decide (is_Some (transport_open w))) (app w))) w.
Proof.
  unfold reconnect_fulfilled.
  rewrite (exec_bind _ _ (bool_decide (is_Some (transport_open w))))
    by by rewrite isConnected_transport_open.
  replace (exec isConnected w) with w
    by (unfold exec; by rewrite isConnected_transport_open).
  done.
Qed.

Lemma reconnect_rejected_world w :
  exec reconnect_rejected w =
  with_app (setConnectionError (Some "Failed to reconnect") (app w)) w.
Proof. done. Qed.

End Promises.

(** *** The connection status *)

Section Status.
Context `{Platform}.

Lemma showing_bystander a E : Bystander (showing a E).
Proof. constructor; [constructor|..]; intros ? ? Hw; exact Hw. Qed.

Lemma connected_sole :
  sole_reaction h_connected OnConnected (λ a, setConnectionError None (setIsConnected true a)).
Proof. split; [by intros []|done]. Qed.

Lemma disconnected_sole :
  sole_reaction h_disconnected OnDisconnected (setIsConnected false).
Proof. split; [by intros []|done]. Qed.

Lemma error_sole msg :
  sole_reaction h_error (OnError msg)
    (setConnectionError (Some (if truthy msg then msg else "Realtime error"))).
Proof. split; [by intros []|done]. Qed.

Lemma before_resolve_app w :
  h_connected ∈ on_connected (eventHandlers (client w)) →
  app (before_resolve w) = setConnectionError None (setIsConnected true (app w)).
Proof.
  intros Hin. unfold before_resolve.
  set (w2 := exec (for_of _ send) _).
  assert (Hw2 : showing (app w) (eventHandlers (client w)) w2).
  { apply keeps_for_of; [|done]. intros m _.
    apply (keeps_send _ (by_frame _ (showing_bystander _ _))). }
  destruct Hw2 as [Ha He].
  rewrite (notify_sole h_connected _ _ _ _ connected_sole) by done.
  by rewrite He, bool_decide_eq_true_2, Ha.
Qed.

Lemma resolved_app k w : app (exec (resolved k) w) = app w.
Proof.
  by apply (keeps_resolved _ _
    (bystander_steady _ (showing_bystander (app w) (eventHandlers (client w))))).
Qed.

Lemma scheduleReconnect_app w : app (exec scheduleReconnect w) = app w.
Proof.
  by apply (steady_schedule _ _
    (bystander_steady _ (showing_bystander (app w) (eventHandlers (client w))))).
Qed.

Lemma send_transport m w : transport_open (exec (send m) w) = transport_open w.
Proof.
  unfold exec. rewrite send_spec. cbn [snd].
  destruct (transport_open w) as [i|] eqn:Hopen; [|done].
  match goal with |- context [if ?b then _ else _] => destruct b end; [done|].
  by apply transport_open_transmitted.
Qed.

Lemma plugged_send T m : keeps (plugged T) (send m).
Proof. intros w Hw. unfold plugged. by rewrite send_transport. Qed.

Lemma plugged_startHeartbeat T : keeps (plugged T) startHeartbeat.
Proof.
  unfold startHeartbeat, stopHeartbeat, clearInterval.
  keeps_by ltac:(first [apply keeps_assign; by intros | apply keeps_modify; by intros]).
Qed.

Lemma plugged_resolved T k : keeps (plugged T) (resolved k).
Proof.
  unfold resolved, getCurrentUser.
  destruct k; keeps_by ltac:(first [apply plugged_send | apply plugged_startHeartbeat]).
Qed.

Lemma before_resolve_transport w : transport_open (before_resolve w) = transport_open w.
Proof.
  unfold before_resolve. cbn zeta.
  set (w1 := with_client _ _). set (w2 := exec (for_of _ send) w1).
  destruct (notify_callfree (on_connected (eventHandlers (client w2))) OnConnected w2)
    as (a & L & ->); [by intros []|].
  change (plugged (transport_open w1) w2).
  apply keeps_for_of; [intros m _; apply plugged_send|done].
Qed.

(** An open as the provider sees it, before the reaction chained on the
    promise runs. *)
Lemma open_provider i s w :
  sockets w !! i = Some s → readyState s = CONNECTING →
  h_connected ∈ on_connected (eventHandlers (client w)) →
  ∃ w1, step (ESockOpen i) w = Some w1
    ∧ app w1 = setConnectionError None (setIsConnected true (app w))
    ∧ transport_open w1 = transport_open (with_sockets (alter (set_readyState OPEN) i) w).
Proof.
  intros Hs Hr Hin. eexists. split; [by apply step_open|]. split.
  - by rewrite resolved_app, before_resolve_app.
  - apply (plugged_resolved (transport_open (with_sockets (alter (set_readyState OPEN) i) w))).
    apply before_resolve_transport.
Qed.

Lemma retryConnection_world w :
  clientRef (app w) = true →
  exec retryConnection w =
  if falsy (roomId (client w)) || bool_decide (is_Some (transport_open w))
  then with_app
         (setConnectionError None
            (setIsConnected (bool_decide (is_Some (transport_open w))) (app w))) w
  else if constructor_throws (url (client w))
  then with_app (setConnectionError (Some "Failed to reconnect") (app w)) w
  else with_client (set_ws (Some (length (sockets w))))
         (with_sockets
            (λ l, l ++ [{| readyState := CONNECTING; sent := []; on_resolve := AwaitReconnect |}])
            w).
Proof.
  intros Href. unfold retryConnection.
  rewrite (exec_bind _ _ true) by (unfold gets; simpl; by rewrite Href).
  change (exec (gets _) w) with w. cbn [negb].
  rewrite (exec_bind _ _ _ _ (reconnect_returns w)).
  assert (Hworld : exec reconnect w =
    if falsy (roomId (client w)) || bool_decide (is_Some (transport_open w)) then w
    else exec (openSocket AwaitReconnect) w).
  { unfold reconnect.
    rewrite (exec_bind _ _ (roomId (client w))) by done.
    change (exec (gets _) w) with w.
    destruct (falsy (roomId (client w))); [done|].
    rewrite (exec_bind _ _ (bool_decide (is_Some (transport_open w))))
      by by rewrite isConnected_transport_open.
    replace (exec isConnected w) with w
      by (unfold exec; by rewrite isConnected_transport_open).
    by case_bool_decide. }
  rewrite Hworld. clear Hworld.
  destruct (falsy (roomId (client w))); cbn [orb then_catch].
  { by rewrite reconnect_fulfilled_world. }
  case_bool_decide as Hopen; cbn [then_catch].
  { by rewrite reconnect_fulfilled_world, bool_decide_eq_true_2. }
  rewrite openSocket_spec.
  change (WebSocket_throws (url (client w))) with (constructor_throws (url (client w))).
  destruct (constructor_throws (url (client w))); cbn [then_catch]; [|done].
  by rewrite reconnect_rejected_world.
Qed.

(** X20. The provider's connection status follows the socket.  With its
    listeners registered, when a socket opens the error is cleared and
    [isConnected] is set: for a socket opened by [connect] or by the scheduled
    reconnect it is [true] and [PresenceBar] shows Online; for a socket opened
    by [retryConnection] the reaction chained on [reconnect()] runs last and
    sets it to [client.isConnected()], the state of the current socket, so
    that a socket that opens after the client has moved on to another one
    leaves the provider on Connecting.  A close clears [isConnected] and
    keeps the error; a socket error sets the error to ['socket error'] and
    keeps [isConnected], so that [PresenceBar] shows Error and offers Retry.
    [retryConnection] does nothing before the mount effect has run; it
    settles at once when [reconnect()] does, showing the state of the socket
    and no error when [reconnect()] returns early and ['Failed to reconnect']
    when the socket cannot be created; otherwise it opens a socket and leaves
    the state as it is until that socket opens. *)
Theorem connection_status_follows_socket (w w' : World) (i : nat) :
  (deliver (ESockOpen i) w = Some w' →
   h_connected ∈ on_connected (eventHandlers (client w)) →
   ∃ s, sockets w !! i = Some s
     ∧ connectionError (app w') = None
     ∧ connectedFlag (app w') =
         match on_resolve s with
         | AwaitReconnect =>
             bool_decide
               (is_Some (transport_open (with_sockets (alter (set_readyState OPEN) i) w)))
         | _ => true
         end
     ∧ (on_resolve s ≠ AwaitReconnect ∨ ws (client w) = Some i →
        Multiplayer.status (connectedFlag (app w')) (connectionError (app w'))
        = Multiplayer.StatusOnline)
     ∧ (on_resolve s = AwaitReconnect → ws (client w) ≠ Some i → transport_open w = None →
        Multiplayer.status (connectedFlag (app w')) (connectionError (app w'))
        = Multiplayer.StatusConnecting)
     ∧ (∀ room, on_resolve s = AwaitConnect room →
        currentUser (app w') = user (client w')))
  ∧ (deliver (ESockClose i) w = Some w' →
     h_disconnected ∈ on_disconnected (eventHandlers (client w)) →
     connectedFlag (app w') = false ∧ connectionError (app w') = connectionError (app w)
     ∧ Multiplayer.status (connectedFlag (app w')) (connectionError (app w'))
       ≠ Multiplayer.StatusOnline)
  ∧ (deliver (ESockError i) w = Some w' →
     h_error ∈ on_error (eventHandlers (client w)) →
     connectionError (app w') = Some "socket error"
     ∧ connectedFlag (app w') = connectedFlag (app w)
     ∧ Multiplayer.status (connectedFlag (app w')) (connectionError (app w'))
       = Multiplayer.StatusError
     ∧ Multiplayer.retry_offered (connectionError (app w')) = true)
  ∧ (clientRef (app w) = false → exec retryConnection w = w)
  ∧ (clientRef (app w) = true →
     let w1 := exec retryConnection w in
     let open := bool_decide (is_Some (transport_open w)) in
     (falsy (roomId (client w)) || open = true →
      w1 = with_app (setConnectionError None (setIsConnected open (app w))) w)
     ∧ (falsy (roomId (client w)) || open = false →
        if constructor_throws (url (client w))
        then w1 = with_app (setConnectionError (Some "Failed to reconnect") (app w)) w
             ∧ Multiplayer.status (connectedFlag (app w1)) (connectionError (app w1))
               = Multiplayer.StatusError
        else app w1 = app w
             ∧ ws (client w1) = Some (length (sockets w))
             ∧ sockets w1 = sockets w ++
                 [{| readyState := CONNECTING; sent := []; on_resolve := AwaitReconnect |}])).
Proof.
  split; [|split; [|split; [|split]]].
  - intros Hstep Hin. cbn [deliver] in Hstep.
    destruct (sockets w !! i) as [s|] eqn:Hs; [|done]. rewrite bind_Some in Hstep.
    destruct (decide (readyState s = CONNECTING)) as [Hr|Hr]; cycle 1.
    { cbn [step] in Hstep. rewrite Hs in Hstep. by rewrite bool_decide_eq_false_2 in Hstep. }
    destruct (open_provider i s w Hs Hr Hin) as (w1 & Hw1 & Happ & Hplug).
    rewrite Hw1, bind_Some in Hstep. injection Hstep as <-.
    exists s. split; [done|].
    assert (Hcurrent : ws (client w) = Some i →
      transport_open (with_sockets (alter (set_readyState OPEN) i) w) = Some i).
    { intros Hws. unfold transport_open. simpl. rewrite Hws. simpl.
      by rewrite list_lookup_alter_eq, Hs. }
    assert (Hstale : ws (client w) ≠ Some i →
      transport_open (with_sockets (alter (set_readyState OPEN) i) w) = transport_open w).
    { intros Hws. unfold transport_open. simpl.
      destruct (ws (client w)) as [j|]; [|done]. simpl.
      rewrite list_lookup_alter_ne; [done|congruence]. }
    destruct (on_resolve s) as [room| |] eqn:Hk; cbn [fulfilled].
    + rewrite connect_fulfilled_world. simpl. rewrite Happ. simpl.
      split; [done|]. split; [done|]. split; [done|]. split; [by intros [=]|].
      by intros room' _.
    + rewrite reconnect_fulfilled_world. simpl. rewrite Hplug.
      split; [done|]. split; [done|]. split; [|split; [|by intros room [=]]].
      * intros [Hne|Hws]; [done|]. rewrite (Hcurrent Hws).
        by rewrite bool_decide_eq_true_2.
      * intros _ Hws Hclosed. rewrite (Hstale Hws), Hclosed.
        by rewrite bool_decide_eq_false_2 by by intros [? [=]].
    + change (exec (ret tt) w1) with w1. rewrite Happ. simpl.
      split; [done|]. split; [done|]. split; [done|]. split; [by intros [=]|].
      by intros room [=].
  - intros Hstep Hin.
    cbn [deliver step] in Hstep. destruct (socket_is _ i w); [|done]. injection Hstep as <-.
    set (w1 := with_sockets (alter (set_readyState CLOSED) i) w).
    assert (Happ : app (exec onclose w1) = setIsConnected false (app w)).
    { unfold onclose. rewrite (exec_bind _ _ (on_disconnected (eventHandlers (client w1)))) by done.
      change (exec (gets _) w1) with w1.
      rewrite (exec_bind _ _ tt) by apply notify_spec.
      rewrite scheduleReconnect_app.
      rewrite (notify_sole h_disconnected _ _ _ _ disconnected_sole) by done.
      by rewrite bool_decide_eq_true_2. }
    rewrite Happ. simpl. split; [done|]. split; [done|].
    unfold Multiplayer.status. by destruct (negb (falsy _)).
  - intros Hstep Hin.
    cbn [deliver step] in Hstep. destruct (socket_is _ i w); [|done]. injection Hstep as <-.
    assert (Happ : app (exec onerror w) = setConnectionError (Some "socket error") (app w)).
    { unfold onerror. rewrite (exec_bind _ _ (on_error (eventHandlers (client w)))) by done.
      change (exec (gets _) w) with w.
      rewrite (notify_sole h_error _ _ _ _ (error_sole "socket error")) by done.
      by rewrite bool_decide_eq_true_2. }
    by rewrite Happ.
  - intros Href. unfold retryConnection.
    rewrite (exec_bind _ _ false) by (unfold gets; simpl; by rewrite Href).
    done.
  - intros Href w1 open. unfold w1. rewrite (retryConnection_world w Href). fold open.
    split; intros ->; [done|].
    destruct (constructor_throws (url (client w))); [|done].
    split; [done|]. simpl. done.
Qed.

(** X21. An [error] message of the server becomes the connection error of the
    provider: its text, or ['Realtime error'] when the text is empty. *)
Theorem error_message_sets_connection_error (w : World) (op code : option string)
    (message : string) (set : list Hid) :
  handlers (client w) !! "error" = Some set → h_error_message ∈ set →
  let w' := exec (dispatch (ErrorMessage op code message)) w in
  connectionError (app w') = Some (if bool_decide (message = "") then "Realtime error" else message)
  ∧ Multiplayer.status (connectedFlag (app w')) (connectionError (app w'))
    = Multiplayer.StatusError
  ∧ connectedFlag (app w') = connectedFlag (app w).
Proof.
  intros Hset Hin w'. unfold w'.
  rewrite (dispatch_sole h_error_message _ _ set _ (error_message_sole op code message));
    try done.
  simpl. unfold truthy. case_bool_decide as Hm; case_bool_decide as Hm'; try done.
  split; [done|]. split; [|done]. unfold Multiplayer.status, falsy, truthy.
  by rewrite bool_decide_eq_true_2.
Qed.

End Status.

(** *** The actions of the provider *)

Section Actions.
Context `{Platform}.

Lemma selectPlanet_world planetId me w :
  clientRef (app w) = true → user (client w) = Some me →
  exec (selectPlanet planetId) w =
  exec (send (SelectPlanetMessage planetId (user_id me)))
    (with_client (set_user (Some (merge_presence me (selecting_presence (Some planetId)) (clock w))))
       (with_app
          (set_lastSelectAttemptRef (Some planetId)
             (setSelectedPlanets
                (λ prev, <[planetId := with_self (user_id me) (default [] (prev !! planetId))]> prev)
                (app w))) w)).
Proof.
  intros Href Hme.
  destruct w as [c socks touts ints next now a inv]; simpl in *.
  destruct c as [wsv urlv roomv userv queue regs hb rt att sto evh]; simpl in *.
  subst. unfold selectPlanet, getCurrentUser, setState, updatePresence, Date_now.
  js. rewrite Href. js. rewrite !send_spec. done.
Qed.

Lemma unselectPlanet_world planetId me w :
  clientRef (app w) = true → user (client w) = Some me →
  exec (unselectPlanet planetId) w =
  exec (send (UnselectPlanetMessage planetId (user_id me)))
    (with_client (set_user (Some (merge_presence me (selecting_presence None) (clock w))))
       (with_app (setSelectedPlanets (without_self (user_id me) planetId) (app w)) w)).
Proof.
  intros Href Hme.
  destruct w as [c socks touts ints next now a inv]; simpl in *.
  destruct c as [wsv urlv roomv userv queue regs hb rt att sto evh]; simpl in *.
  subst. unfold unselectPlanet, getCurrentUser, setState, updatePresence, Date_now.
  js. rewrite Href. js. rewrite !send_spec. done.
Qed.

Lemma send_app m w : app (exec (send m) w) = app w.
Proof.
  unfold exec. rewrite send_spec. simpl.
  destruct (transport_open w); [|done]. by destruct (socket_send_throws _ _).
Qed.

Lemma send_clock m w : clock (exec (send m) w) = clock w.
Proof.
  unfold exec. rewrite send_spec. simpl.
  destruct (transport_open w); [|done]. by destruct (socket_send_throws _ _).
Qed.

Lemma filter_with_self me (entry : list string) :
  filter (λ u, u ≠ me) (with_self me entry) = filter (λ u, u ≠ me) entry.
Proof.
  unfold with_self. case_bool_decide; [done|].
  rewrite filter_app, filter_cons_False by auto. by rewrite filter_nil, (right_id_L [] (++)).
Qed.

(** Where a message handed to [send] ends up: behind the queue while the
    transport is not open, behind the frames of the open socket when that
    socket takes it. *)
Lemma send_queued m w :
  transport_open w = None →
  messageQueue (client (exec (send m) w)) = messageQueue (client w) ++ [m]
  ∧ sockets (exec (send m) w) = sockets w
  ∧ transport_open (exec (send m) w) = None.
Proof. intros Hopen. by rewrite send_closed. Qed.

Lemma send_written m i w :
  transport_open w = Some i → socket_send_throws i (stringify m) = false →
  sent <$> sockets (exec (send m) w) !! i = (λ s, sent s ++ [stringify m]) <$> sockets w !! i
  ∧ messageQueue (client (exec (send m) w)) = messageQueue (client w)
  ∧ transport_open (exec (send m) w) = Some i.
Proof.
  intros Hopen Hok. rewrite (send_open m i) by done.
  split; [|split; [done|by apply transport_open_transmitted]].
  unfold transmitted_by. simpl. rewrite list_lookup_alter_eq.
  by destruct (sockets w !! i).
Qed.

(** X22. [selectPlanet] followed by [unselectPlanet] for the same planet
    leaves the entry of the planet without self, deleted if that empties it,
    and the other entries untouched; the user selects nothing, and the
    recorded attempt is still the planet: [unselectPlanet] does not withdraw
    it.  Both messages have been handed to [send], [select] first: none is
    lost, while the transport is not open they end the queue in that order,
    and an open socket that takes them gets them as its last two frames in
    that order. *)
Theorem select_then_unselect (w : World) (me : UserPresence) (planetId : string) :
  clientRef (app w) = true → user (client w) = Some me →
  let w2 := exec (unselectPlanet planetId) (exec (selectPlanet planetId) w) in
  let kept := filter (λ u, u ≠ user_id me)
                (default [] (selectedPlanets (app w) !! planetId)) in
  let select := SelectPlanetMessage planetId (user_id me) in
  let unselect := UnselectPlanetMessage planetId (user_id me) in
  selectedPlanets (app w2) !! planetId = (if kept is [] then None else Some kept)
  ∧ (∀ other, other ≠ planetId →
       selectedPlanets (app w2) !! other = selectedPlanets (app w) !! other)
  ∧ (∃ u, user (client w2) = Some u ∧ selectedPlanetId u = None ∧ user_id u = user_id me)
  ∧ lastSelectAttemptRef (app w2) = Some planetId
  ∧ frames w2 ++ waiting w2
    ≡ₚ (frames w ++ waiting w) ++ [stringify select; stringify unselect]
  ∧ (transport_open w = None →
     messageQueue (client w2) = messageQueue (client w) ++ [select; unselect]
     ∧ sockets w2 = sockets w)
  ∧ (∀ i, transport_open w = Some i → (∀ d, socket_send_throws i d = false) →
     sent <$> sockets w2 !! i
     = (λ s, sent s ++ [stringify select; stringify unselect]) <$> sockets w !! i
     ∧ messageQueue (client w2) = messageQueue (client w)).
Proof.
  intros Href Hme w2 kept select unselect. subst select unselect.
  set (w1 := exec (selectPlanet planetId) w).
  assert (Hw1 : w1 = _) by apply (selectPlanet_world planetId me w Href Hme).
  set (w0 := with_client _ _) in Hw1.
  set (me1 := merge_presence me (selecting_presence (Some planetId)) (clock w)).
  assert (Href1 : clientRef (app w1) = true) by by rewrite Hw1, send_app.
  assert (Hme1 : user (client w1) = Some me1) by by rewrite Hw1, send_user.
  assert (Hw2 : w2 = _) by apply (unselectPlanet_world planetId me1 w1 Href1 Hme1).
  set (w1' := with_client _ _) in Hw2.
  assert (Happ : app w2 = setSelectedPlanets (without_self (user_id me) planetId) (app w1)).
  { by rewrite Hw2, send_app. }
  assert (Happ1 : app w1 = app w0) by by rewrite Hw1, send_app.
  split; [|split; [|split; [|split; [|split; [|split]]]]].
  - rewrite Happ, Happ1. simpl. unfold without_self.
    rewrite lookup_insert_eq. cbn [default from_option id].
    rewrite filter_with_self. fold kept.
    destruct kept; simpl; [apply lookup_delete_eq|apply lookup_insert_eq].
  - intros other Hother. rewrite Happ, Happ1. simpl. unfold without_self.
    case_bool_decide; [rewrite lookup_delete_ne by done|rewrite lookup_insert_ne by done];
      by rewrite lookup_insert_ne.
  - rewrite Hw2, send_user. by eexists.
  - by rewrite Happ, Happ1.
  - rewrite Hw2, send_conserves.
    change (frames w1' ++ waiting w1') with (frames w1 ++ waiting w1).
    rewrite Hw1, send_conserves.
    change (frames w0 ++ waiting w0) with (frames w ++ waiting w).
    by rewrite <- (assoc_L (++)).
  - intros Hclosed.
    destruct (send_queued (SelectPlanetMessage planetId (user_id me)) w0 Hclosed)
      as (Hq1 & Hs1 & Hclosed1).
    rewrite <- Hw1 in Hq1, Hs1, Hclosed1.
    destruct (send_queued (UnselectPlanetMessage planetId (user_id me1)) w1' Hclosed1)
      as (Hq2 & Hs2 & _).
    rewrite <- Hw2 in Hq2, Hs2.
    rewrite Hq2, Hs2. split; [|exact Hs1].
    change (messageQueue (client w1')) with (messageQueue (client w1)).
    rewrite Hq1. by rewrite <- (assoc_L (++)).
  - intros i Hopen Hok.
    destruct (send_written (SelectPlanetMessage planetId (user_id me)) i w0 Hopen (Hok _))
      as (Hs1 & Hq1 & Hopen1).
    rewrite <- Hw1 in Hs1, Hq1, Hopen1.
    destruct (send_written (UnselectPlanetMessage planetId (user_id me1)) i w1' Hopen1 (Hok _))
      as (Hs2 & Hq2 & _).
    rewrite <- Hw2 in Hs2, Hq2.
    split; [|by rewrite Hq2].
    change (sockets w1') with (sockets w1) in Hs2.
    change (sockets w0) with (sockets w) in Hs1.
    destruct (sockets w2 !! i) as [s2|], (sockets w1 !! i) as [s1|], (sockets w !! i) as [s|];
      simpl in *; try done.
    injection Hs1 as Hs1. injection Hs2 as Hs2.
    by rewrite Hs2, Hs1, <- (assoc_L (++)).
Qed.

End Actions.

Section Viewer.
Context `{Platform}.

Lemma joinPlanetViewer_world planetId me w :
  clientRef (app w) = true → user (client w) = Some me →
  exec (joinPlanetViewer planetId) w =
  exec (send (JoinViewerMessage planetId (user_id me)))
    (with_client (set_user (Some (merge_presence me (viewing_presence (Some planetId)) (clock w))))
       w).
Proof.
  intros Href Hme.
  destruct w as [c socks touts ints next now a inv]; simpl in *.
  destruct c as [wsv urlv roomv userv queue regs hb rt att sto evh]; simpl in *.
  subst. unfold joinPlanetViewer, getCurrentUser, updatePresence, Date_now.
  js. rewrite Href. js. rewrite !send_spec. done.
Qed.

Lemma leavePlanetViewer_world planetId me w :
  clientRef (app w) = true → user (client w) = Some me →
  let w1 := with_client
              (set_user (Some (merge_presence me (viewing_presence None) (clock w)))) w in
  exec (leavePlanetViewer planetId) w =
  match planet_left planetId me with
  | Some pid =>
      if truthy pid
      then
        let w2 := exec (send (LeaveViewerMessage pid (user_id me))) w1 in
        with_app (setCamerasInPlanet (without_camera (user_id me) pid) (app w2)) w2
      else w1
  | None => w1
  end.
Proof.
  intros Href Hme.
  destruct w as [c socks touts ints next now a inv]; simpl in *.
  destruct c as [wsv urlv roomv userv queue regs hb rt att sto evh]; simpl in *.
  subst. unfold leavePlanetViewer, planet_left, getCurrentUser, updatePresence, Date_now, setState.
  js. rewrite Href. js.
  destruct (match planetId with
            | Some p => if truthy p then Some p else isViewingPlanet me
            | None => isViewingPlanet me
            end) as [pid|]; [|done].
  destruct (truthy pid); [|done].
  js. rewrite !send_spec. simpl.
  destruct (transport_open _); [|done]. by destruct (socket_send_throws _ _).
Qed.

(** X23. For a planet whose id is not the empty string, [joinPlanetViewer]
    followed by [leavePlanetViewer()] without an argument leaves the planet
    just joined: the user views the planet in between and nothing afterwards,
    and the camera of self is gone from the inner map of the planet, which is
    deleted if that empties it; the other planets keep their cameras.
    [join_viewer] and [leave_viewer] for that planet have been handed to
    [send], [join_viewer] first: none is lost, while the transport is not
    open they end the queue in that order, and an open socket that takes them
    gets them as its last two frames in that order. *)
Theorem join_then_leave_viewer (w : World) (me : UserPresence) (planetId : string) :
  clientRef (app w) = true → user (client w) = Some me → planetId ≠ "" →
  let w1 := exec (joinPlanetViewer planetId) w in
  let w2 := exec (leavePlanetViewer None) w1 in
  let inner := delete (user_id me) (default ∅ (camerasInPlanet (app w) !! planetId)) in
  let join := JoinViewerMessage planetId (user_id me) in
  let leave := LeaveViewerMessage planetId (user_id me) in
  (∃ u, user (client w1) = Some u ∧ isViewingPlanet u = Some planetId)
  ∧ (∃ u, user (client w2) = Some u ∧ isViewingPlanet u = None ∧ user_id u = user_id me)
  ∧ frames w2 ++ waiting w2
    ≡ₚ (frames w ++ waiting w) ++ [stringify join; stringify leave]
  ∧ camerasInPlanet (app w2) !! planetId
    = (if bool_decide (size inner = 0%nat) then None else Some inner)
  ∧ (∀ cameras, camerasInPlanet (app w2) !! planetId = Some cameras →
       cameras !! user_id me = None)
  ∧ (∀ other, other ≠ planetId →
       camerasInPlanet (app w2) !! other = camerasInPlanet (app w) !! other)
  ∧ (transport_open w = None →
     messageQueue (client w2) = messageQueue (client w) ++ [join; leave]
     ∧ sockets w2 = sockets w)
  ∧ (∀ i, transport_open w = Some i → (∀ d, socket_send_throws i d = false) →
     sent <$> sockets w2 !! i
     = (λ s, sent s ++ [stringify join; stringify leave]) <$> sockets w !! i
     ∧ messageQueue (client w2) = messageQueue (client w)).
Proof.
  intros Href Hme Hne w1 w2 inner join leave. subst join leave.
  assert (Htruthy : truthy planetId = true) by by apply bool_decide_eq_true_2.
  assert (Hw1 : w1 = _) by apply (joinPlanetViewer_world planetId me w Href Hme).
  set (w0 := with_client _ _) in Hw1.
  set (me1 := merge_presence me (viewing_presence (Some planetId)) (clock w)) in *.
  assert (Href1 : clientRef (app w1) = true) by by rewrite Hw1, send_app.
  assert (Hme1 : user (client w1) = Some me1) by by rewrite Hw1, send_user.
  assert (Happ1 : app w1 = app w) by by rewrite Hw1, send_app.
  pose proof (leavePlanetViewer_world None me1 w1 Href1 Hme1) as Hw2.
  cbn zeta in Hw2. fold w2 in Hw2.
  change (planet_left None me1) with (Some planetId) in Hw2.
  cbn beta iota in Hw2. rewrite Htruthy in Hw2.
  set (w1' := with_client _ w1) in Hw2.
  set (w2' := exec _ w1') in Hw2.
  assert (Happ2 : app w2' = app w) by (unfold w2'; by rewrite send_app).
  assert (Hcams : camerasInPlanet (app w2) !! planetId
                  = (if bool_decide (size inner = 0%nat) then None else Some inner)).
  { rewrite Hw2. simpl. rewrite Happ2. unfold without_camera. fold inner.
    case_bool_decide; [apply lookup_delete_eq|apply lookup_insert_eq]. }
  split; [by eexists|]. split; [|split; [|split; [done|split; [|split; [|split]]]]].
  - rewrite Hw2. simpl. unfold w2'. rewrite send_user. by eexists.
  - rewrite Hw2.
    change (frames (with_app _ w2') ++ waiting (with_app _ w2'))
      with (frames w2' ++ waiting w2').
    unfold w2'. rewrite send_conserves.
    change (frames w1' ++ waiting w1') with (frames w1 ++ waiting w1).
    rewrite Hw1, send_conserves.
    change (frames w0 ++ waiting w0) with (frames w ++ waiting w).
    by rewrite <- (assoc_L (++)).
  - intros cameras. rewrite Hcams. case_bool_decide; [done|].
    intros [= <-]. apply lookup_delete_eq.
  - intros other Hother. clear Hcams. rewrite Hw2. simpl. rewrite Happ2.
    unfold without_camera.
    case_bool_decide; [by apply lookup_delete_ne|by apply lookup_insert_ne].
  - intros Hclosed.
    destruct (send_queued (JoinViewerMessage planetId (user_id me)) w0 Hclosed)
      as (Hq1 & Hs1 & Hclosed1).
    rewrite <- Hw1 in Hq1, Hs1, Hclosed1.
    destruct (send_queued (LeaveViewerMessage planetId (user_id me1)) w1' Hclosed1)
      as (Hq2 & Hs2 & _).
    fold w2' in Hq2, Hs2.
    rewrite Hw2. simpl. rewrite Hq2, Hs2. split; [|exact Hs1].
    change (messageQueue (client w1')) with (messageQueue (client w1)).
    rewrite Hq1. by rewrite <- (assoc_L (++)).
  - intros i Hopen Hok.
    destruct (send_written (JoinViewerMessage planetId (user_id me)) i w0 Hopen (Hok _))
      as (Hs1 & Hq1 & Hopen1).
    rewrite <- Hw1 in Hs1, Hq1, Hopen1.
    destruct (send_written (LeaveViewerMessage planetId (user_id me1)) i w1' Hopen1 (Hok _))
      as (Hs2 & Hq2 & _).
    fold w2' in Hs2, Hq2.
    rewrite Hw2. simpl. split; [|by rewrite Hq2].
    change (sockets w1') with (sockets w1) in Hs2.
    change (sockets w0) with (sockets w) in Hs1.
    destruct (sockets w2' !! i) as [s2|], (sockets w1 !! i) as [s1|], (sockets w !! i) as [s|];
      simpl in *; try done.
    injection Hs1 as Hs1. injection Hs2 as Hs2.
    by rewrite Hs2, Hs1, <- (assoc_L (++)).
Qed.

(** X24. [leavePlanetViewer] sends nothing and removes no camera when it has
    no planet to leave: the argument is left out or empty and the user views
    no planet.  All it does then is refresh [lastSeen]. *)
Theorem leave_without_planet_is_silent (w : World) (me : UserPresence)
    (planetId : option string) :
  clientRef (app w) = true → user (client w) = Some me →
  falsy planetId = true → falsy (isViewingPlanet me) = true →
  exec (leavePlanetViewer planetId) w =
  with_client (set_user (Some (merge_presence me (viewing_presence None) (clock w)))) w.
Proof.
  intros Href Hme Harg Hview.
  rewrite (leavePlanetViewer_world planetId me w Href Hme). cbn zeta.
  assert (Hleft : planet_left planetId me = isViewingPlanet me).
  { unfold planet_left. destruct planetId as [p|]; [|done]. simpl in Harg.
    by destruct (truthy p). }
  rewrite Hleft. destruct (isViewingPlanet me) as [pid|]; [|done].
  simpl in Hview. by destruct (truthy pid).
Qed.

(** X25. [updateCamera] is not optimistic: it never changes the state of the
    provider, the camera of self included.  Before the mount effect has run
    or while the client has no user it does nothing; otherwise it hands one
    [camera] message carrying the id of the user to [send]. *)
Theorem updateCamera_only_sends (w : World) (planetId : string) (cam : CameraState) :
  let w' := exec (updateCamera planetId cam) w in
  app w' = app w
  ∧ (clientRef (app w) = false ∨ user (client w) = None → w' = w)
  ∧ (∀ me, clientRef (app w) = true → user (client w) = Some me →
       w' = exec (send (CameraUpdateMessage planetId cam (user_id me))) w
       ∧ frames w' ++ waiting w'
         ≡ₚ (frames w ++ waiting w) ++ [stringify (CameraUpdateMessage planetId cam (user_id me))]).
Proof.
  intros w'. unfold w', updateCamera, sendCamera, getCurrentUser.
  rewrite (exec_bind _ _ (clientRef (app w))) by done.
  change (exec (gets _) w) with w.
  destruct (clientRef (app w)) eqn:Href; simpl.
  - rewrite (exec_bind _ _ (user (client w))) by done.
    change (exec (gets _) w) with w.
    destruct (user (client w)) as [me|] eqn:Hme.
    + split; [apply send_app|]. split; [by intros [|]|].
      intros me' _ [= <-]. split; [done|].
      exact (send_conserves (CameraUpdateMessage planetId cam (user_id me)) w).
    + split; [done|]. split; [done|]. by intros me' _ [=].
  - split; [done|]. split; [done|]. by intros me' [=].
Qed.

End Viewer.

(** *** Mounting and unmounting *)

Section Mounting.
Context `{Platform}.







End Mounting.

(** *** [PlanetSelectionBadge] *)

Section Badge.
Import Multiplayer.

Lemma slice0_length {A} (xs : list A) end_ : (length (slice0 xs end_) ≤ length xs)%nat.
Proof. unfold slice0. case_bool_decide; rewrite length_take; lia. Qed.

Lemma slice0_elem {A} (xs : list A) end_ x : x ∈ slice0 xs end_ → x ∈ xs.
Proof.
  unfold slice0. case_bool_decide; intros (i & Hi & _)%elem_of_take;
    by eapply list_elem_of_lookup_2.
Qed.

Lemma slice0_nonneg {A} (xs : list A) end_ :
  0 ≤ end_ → Z.of_nat (length (slice0 xs end_)) = Z.min end_ (Z.of_nat (length xs)).
Proof.
  intros Hend. unfold slice0. rewrite bool_decide_eq_false_2 by lia.
  rewrite length_take. lia.
Qed.

Lemma usersById_lookup peers id u :
  usersById peers !! id = Some u → u ∈ peers ∧ user_id u = id.
Proof.
  unfold usersById.
  assert (Hgen : ∀ acc : gmap string UserPresence,
    foldl (λ m u0, <[user_id u0 := u0]> m) acc peers !! id = Some u →
    (u ∈ peers ∧ user_id u = id) ∨ acc !! id = Some u).
  { induction peers as [|p peers IH]; intros acc Hl; simpl in *; [by right|].
    destruct (IH _ Hl) as [[Hin Hid]|Hacc].
    - left. split; [by right|done].
    - destruct (decide (user_id p = id)) as [Heq|Hne].
      + rewrite Heq, lookup_insert_eq in Hacc. injection Hacc as ->.
        left. split; [left|done].
      + rewrite lookup_insert_ne in Hacc by done. by right. }
  intros Hl. by destruct (Hgen ∅ Hl) as [?|?].
Qed.

Lemma usersById_known peers id :
  (∃ u, u ∈ peers ∧ user_id u = id) → is_Some (usersById peers !! id).
Proof.
  unfold usersById.
  assert (Hgen : ∀ acc : gmap string UserPresence,
    (∃ u, u ∈ peers ∧ user_id u = id) ∨ is_Some (acc !! id) →
    is_Some (foldl (λ m u0, <[user_id u0 := u0]> m) acc peers !! id)).
  { induction peers as [|p peers IH]; intros acc Hk; simpl.
    - destruct Hk as [(u & Hin & _)|?]; [by apply not_elem_of_nil in Hin|done].
    - apply IH. destruct Hk as [(u & Hin & Hid)|Hacc].
      + apply elem_of_cons in Hin as [->|Hin].
        * right. rewrite Hid, lookup_insert_eq. by eexists.
        * left. by exists u.
      + right. destruct (decide (user_id p = id)) as [Heq|Hne].
        * rewrite Heq, lookup_insert_eq. by eexists.
        * by rewrite lookup_insert_ne. }
  intros Hk. apply Hgen. by left.
Qed.

Lemma omap_length_le {A B} (f : A → option B) (l : list A) :
  (length (omap f l) ≤ length l)%nat.
Proof. induction l as [|x l IH]; csimpl; [done|]. destruct (f x); csimpl; lia. Qed.

Lemma omap_length_all {A B} (f : A → option B) (l : list A) :
  (∀ x, x ∈ l → is_Some (f x)) → length (omap f l) = length l.
Proof.
  induction l as [|x l IH]; intros Hall; csimpl; [done|].
  destruct (Hall x) as [y Hy]; [left|]. rewrite Hy. csimpl.
  rewrite IH; [done|]. intros z Hz. apply Hall. by right.
Qed.

(** X27. [PlanetSelectionBadge] renders nothing exactly when nobody selects
    the planet.  Otherwise the ids it makes visible and the count it shows
    after [+] add up to the number of selecting users; every avatar is a peer
    that selects the planet; and a visible id that is no peer's id gets no
    avatar and is not counted either, so avatars and count add up to the
    number of selecting users only when the visible ids are all peers. *)
Theorem badge_accounts_for_selection (peers : list UserPresence) (selectedBy : list UserId)
    (maxVisible : Z) :
  (PlanetSelectionBadge peers selectedBy maxVisible = None ↔ selectedBy = [])
  ∧ ∀ b, PlanetSelectionBadge peers selectedBy maxVisible = Some b →
      Z.of_nat (length (slice0 selectedBy maxVisible)) + default 0 (more b)
        = Z.of_nat (length selectedBy)
      ∧ (length (avatars b) ≤ length (slice0 selectedBy maxVisible))%nat
      ∧ (∀ u, u ∈ avatars b → u ∈ peers ∧ user_id u ∈ selectedBy)
      ∧ ((∀ id, id ∈ selectedBy → ∃ u, u ∈ peers ∧ user_id u = id) →
         Z.of_nat (length (avatars b)) + default 0 (more b) = Z.of_nat (length selectedBy))
      ∧ (0 ≤ maxVisible → Z.of_nat (length (avatars b)) ≤ maxVisible).
Proof.
  unfold PlanetSelectionBadge. split.
  - case_bool_decide as Hlen; [|split; [done|by intros ->]].
    split; [intros _; by apply nil_length_inv|done].
  - intros b. case_bool_decide as Hlen; [done|]. intros [= <-]. simpl.
    pose proof (slice0_length selectedBy maxVisible) as Hvis.
    assert (Hmore : Z.of_nat (length (slice0 selectedBy maxVisible))
      + default 0
          (if bool_decide
                (0 < Z.max 0 (Z.of_nat (length selectedBy)
                              - Z.of_nat (length (slice0 selectedBy maxVisible))))
           then Some (Z.max 0 (Z.of_nat (length selectedBy)
                               - Z.of_nat (length (slice0 selectedBy maxVisible))))
           else None)
      = Z.of_nat (length selectedBy)).
    { case_bool_decide; simpl; lia. }
    split; [exact Hmore|]. split; [apply omap_length_le|]. split; [|split].
    + intros u [id [Hid Hl]]%list_elem_of_omap.
      apply usersById_lookup in Hl as [Hin <-]. split; [done|].
      by eapply slice0_elem.
    + intros Hknown. rewrite omap_length_all; [exact Hmore|].
      intros id Hid. apply usersById_known, Hknown. by eapply slice0_elem.
    + intros Hmax. pose proof (omap_length_le (λ id, usersById peers !! id)
        (slice0 selectedBy maxVisible)) as Hle.
      rewrite Nat2Z.inj_le, slice0_nonneg in Hle by done. lia.
Qed.

End Badge.

(** *** Conflicts nobody waits for *)

Section Conflicts.
Context `{Platform}.

Lemma classic_outstanding planetId w : outstanding planetId w ∨ ¬ outstanding planetId w.
Proof.
  unfold outstanding.
  destruct (user (client w)) as [me|]; [|right; by intros [[? [=]] _]].
  destruct (decide (lastSelectAttemptRef (app w) = Some planetId)) as [Href|Href];
    [|right; by intros (_ & ? & _)].
  destruct (truthy planetId); [|right; by intros (_ & _ & ?)].
  left. split; [by eexists|done].
Qed.

Lemma conflict_ignored planetId lockedBy reason w :
  ¬ outstanding planetId w →
  provider_callback h_conflict (OnMessage (ConflictMessage planetId lockedBy reason)) w
  = quiet (app w).
Proof.
  intros Hno. simpl. destruct (user (client w)) as [me|] eqn:Hme; [|done].
  destruct (lastSelectAttemptRef (app w)) as [attempt|] eqn:Href; [|done].
  destruct (truthy attempt) eqn:Htruthy; [|done]. simpl.
  case_bool_decide as Heq; [|done]. subst attempt.
  destruct Hno. unfold outstanding. rewrite Hme. split; [by eexists|done].
Qed.

Lemma notify_conflict_ignored set planetId lockedBy reason w :
  ¬ outstanding planetId w →
  app (exec (notify set (OnMessage (ConflictMessage planetId lockedBy reason))) w) = app w
  ∧ client (exec (notify set (OnMessage (ConflictMessage planetId lockedBy reason))) w)
    = client w.
Proof.
  match goal with |- context [notify _ ?t0] => set (t := t0) end.
  revert w. induction set as [|h set IH]; intros w Hno; [done|].
  rewrite notify_cons.
  assert (Hquiet : invoke h t w
    = (Normal tt, with_app (app w) (with_invoked (λ l, l ++ [(h, t)]) w))).
  { apply invoke_quiet. destruct (decide (h = h_conflict)) as [->|Hh].
    - by apply conflict_ignored.
    - by apply conflict_others. }
  unfold exec at 2 4. rewrite Hquiet. cbn [snd].
  destruct (IH (with_app (app w) (with_invoked (λ l, l ++ [(h, t)]) w)))
    as [Ha Hc]; [exact Hno|].
  by rewrite Ha, Hc.
Qed.

Lemma registry_bystander Hs : Bystander (λ w, handlers (client w) = Hs).
Proof. constructor; [constructor|..]; intros ? ? Hw; exact Hw. Qed.

Lemma registry_invariant Hs :
  Invariant (λ w, handlers (client w) = Hs) (λ _, True) (λ _ _, True).
Proof.
  constructor; [apply bystander_steady, registry_bystander|intros; apply any_call_ok|done..].
Qed.

Lemma dispatch_handlers msg w : handlers (client (exec (dispatch msg) w)) = handlers (client w).
Proof. by apply (keeps_dispatch _ _ _ (registry_invariant (handlers (client w))) msg w). Qed.

(** X28. A [conflict] message changes nothing of the provider or of the user
    unless a select attempt for its planet is outstanding: no user, no
    recorded attempt, an attempt for another planet or for the empty id all
    leave the state as it is.  And a conflict is handled once: delivering the
    same message a second time changes nothing more, because the first
    delivery clears the recorded attempt. *)
Theorem conflict_is_handled_once (w : World) (planetId lockedBy : string)
    (reason : option string) (set : list Hid) :
  handlers (client w) !! "conflict" = Some set → h_conflict ∈ set →
  let conflict := ConflictMessage planetId lockedBy reason in
  let w1 := exec (dispatch conflict) w in
  (¬ outstanding planetId w → app w1 = app w ∧ user (client w1) = user (client w))
  ∧ ¬ outstanding planetId w1
  ∧ app (exec (dispatch conflict) w1) = app w1
  ∧ user (client (exec (dispatch conflict) w1)) = user (client w1).
Proof.
  intros Hset Hin conflict w1.
  assert (Hignored : ∀ w0, handlers (client w0) !! "conflict" = Some set →
    ¬ outstanding planetId w0 →
    app (exec (dispatch conflict) w0) = app w0
    ∧ client (exec (dispatch conflict) w0) = client w0).
  { intros w0 Hset0 Hno. rewrite (dispatch_notify _ "conflict" set) by done.
    by apply notify_conflict_ignored. }
  assert (Hno1 : ¬ outstanding planetId w1).
  { destruct (classic_outstanding planetId w) as [(Huser & Href & Htruthy)|Hno].
    - destruct Huser as [me Hme]. intros (_ & Href1 & _).
      unfold w1 in Href1.
      rewrite (dispatch_conflict set planetId lockedBy reason me w) in Href1 by done.
      done.
    - destruct (Hignored w Hset Hno) as [Ha Hc]. fold w1 in Ha, Hc.
      unfold outstanding. by rewrite Ha, Hc. }
  assert (Hset1 : handlers (client w1) !! "conflict" = Some set).
  { unfold w1. by rewrite dispatch_handlers. }
  split; [|split; [done|]].
  - intros Hno. destruct (Hignored w Hset Hno) as [Ha Hc]. fold w1 in Ha, Hc.
    by rewrite Ha, Hc.
  - destruct (Hignored w1 Hset1 Hno1) as [Ha Hc]. by rewrite Ha, Hc.
Qed.

End Conflicts.

Section ProviderRuns.
#[local] Existing Instance quiet_platform.

Lemma selectPlanet_rolls_back_on_conflict_witness :
  let w := mounted in
  let w2 := selecting "Kepler-22b" in
  let planetId := "Kepler-22b" in
  let w1 := exec (selectPlanet planetId) w in
  let w3 := exec (dispatch (ConflictMessage planetId "u2" (Some "locked"))) w2 in
  let entry := default [] (selectedPlanets (app w) !! planetId) in
  let kept := filter (λ u, u ≠ user_id me) (default [] (selectedPlanets (app w2) !! planetId)) in
  (selectPlanet planetId w).1 = Normal true
  ∧ selectedPlanets (app w1) !! planetId =
      Some (if bool_decide (user_id me ∈ entry) then entry else entry ++ [user_id me])
  ∧ (∀ other, other ≠ planetId →
       selectedPlanets (app w1) !! other = selectedPlanets (app w) !! other)
  ∧ lastSelectAttemptRef (app w1) = Some planetId
  ∧ selectedPlanets (app w3) !! planetId = (if kept is [] then None else Some kept)
  ∧ (∀ other, other ≠ planetId →
       selectedPlanets (app w3) !! other = selectedPlanets (app w2) !! other)
  ∧ conflict_rolls_back (user_id me) planetId "u2" (Some "locked") w2.
Proof.
  intros w w2 planetId.
  apply (selectPlanet_rolls_back_on_conflict w w2 me
           (merge_presence me
              {| p_id := None; p_name := None; p_color := None; p_joinedAt := None;
                 p_selectedPlanetId := Some (Some "Kepler-22b"); p_isViewingPlanet := None |}
              1700000000000)
           planetId "u2" (Some "locked") [h_conflict]).
  - reflexivity.
  - vm_compute; reflexivity.
  - vm_compute; reflexivity.
  - vm_compute; reflexivity.
  - vm_compute; reflexivity.
  - left.
  - discriminate.
Defined.

(** C2, at the failing input.  On a mounted provider with a user,
    [selectPlanet] of the empty planet id answers [true], puts self into the
    entry of that id, records the id as the attempt and hands [select] to
    [send].  The conflict for the same id then arrives and changes nothing:
    self stays in the entry, [lastConflict] stays [null] and the attempt
    stays recorded, because the handler tests the recorded attempt for
    truthiness before it compares it.  For a non-empty id the same steps roll
    the selection back. *)
Theorem empty_planetId_conflict_not_rolled_back :
  let w1 := selecting "" in
  let w2 := exec (dispatch (ConflictMessage "" "u2" None)) w1 in
  (selectPlanet "" mounted).1 = Normal true
  ∧ user (client w1) = Some
      (merge_presence me
         {| p_id := None; p_name := None; p_color := None; p_joinedAt := None;
            p_selectedPlanetId := Some (Some ""); p_isViewingPlanet := None |}
         1700000000000)
  ∧ selectedPlanets (app w1) !! "" = Some [user_id me]
  ∧ lastSelectAttemptRef (app w1) = Some ""
  ∧ messageQueue (client w1) = [SelectPlanetMessage "" (user_id me)]
  ∧ handlers (client w1) !! "conflict" = Some [h_conflict]
  ∧ app w2 = app w1
  ∧ selectedPlanets (app w2) !! "" = Some [user_id me]
  ∧ lastConflict (app w2) = None
  ∧ lastSelectAttemptRef (app w2) = Some ""
  ∧ ¬ conflict_rolls_back (user_id me) "" "u2" None w1
  ∧ conflict_rolls_back (user_id me) "Kepler-22b" "u2" None (selecting "Kepler-22b").
Proof.
  intros w1 w2.
  do 10 (split; [vm_compute; reflexivity|]).
  split.
  - intros [_ Hconflict]. vm_compute in Hconflict. discriminate Hconflict.
  - split; [|vm_compute; reflexivity].
    vm_compute. intros Hin. by apply not_elem_of_nil in Hin.
Qed.

Lemma selection_state_replaces_witness :
  let selected : gmap string (list string) :=
    {[ "Kepler-22b" := ["u1"; "u2"]; "TRAPPIST-1e" := ["u3"] ]} in
  let w := selecting "Proxima b" in
  let w' := exec (dispatch (SelectionStateMessage selected)) w in
  (handlers (client w) !! "selection_state" = Some [h_selection_state]
   ∧ selectedPlanets (app w) !! "Proxima b" = Some [user_id me])
  ∧ selectedPlanets (app w') = selected
  ∧ (∀ planetId, selectedPlanets (app w') !! planetId = selected !! planetId).
Proof.
  intros selected w. split; [split; vm_compute; reflexivity|].
  apply (selection_state_replaces w selected [h_selection_state]).
  - vm_compute; reflexivity.
  - left.
Defined.

End ProviderRuns.

Section ProviderExtras.
#[local] Existing Instance quiet_platform.

Lemma presence_replaces_peers_witness :
  let w := mounted in
  let users := [probe_peer; me] in
  handlers (client w) !! "presence" = Some [h_presence]
  ∧ app (exec (dispatch (PresenceUpdateMessage users)) w) = setPeers users (app w)
  ∧ peers (app (exec (dispatch (PresenceUpdateMessage users)) w)) = users.
Proof.
  intros w users. split; [vm_compute; reflexivity|].
  apply (presence_replaces_peers w users [h_presence]).
  - vm_compute; reflexivity.
  - left.
Defined.

Lemma camera_message_sets_one_camera_witness :
  let w := mounted in
  let before := camerasInPlanet (app w) in
  let after := camerasInPlanet
    (app (exec (dispatch (ServerCameraUpdateMessage "Kepler-22b" probe_camera "u2")) w)) in
  handlers (client w) !! "camera" = Some [h_camera]
  ∧ (∃ inner, after !! "Kepler-22b" = Some inner
              ∧ inner !! "u2" = Some probe_camera
              ∧ ∀ other, other ≠ "u2" →
                  inner !! other = default ∅ (before !! "Kepler-22b") !! other)
  ∧ (∀ other, other ≠ "Kepler-22b" → after !! other = before !! other).
Proof.
  intros w. split; [vm_compute; reflexivity|].
  apply (camera_message_sets_one_camera w "Kepler-22b" "u2" probe_camera [h_camera]).
  - vm_compute; reflexivity.
  - left.
Defined.

Lemma viewer_cameras_replaces_planet_witness :
  let w := mounted in
  let cameras : gmap string CameraState := {[ "u2" := probe_camera ]} in
  let before := camerasInPlanet (app w) in
  let after := camerasInPlanet
    (app (exec (dispatch (ViewerCamerasMessage "Kepler-22b" cameras)) w)) in
  handlers (client w) !! "viewer_cameras" = Some [h_viewer_cameras]
  ∧ after !! "Kepler-22b" = Some cameras
  ∧ (∀ other, other ≠ "Kepler-22b" → after !! other = before !! other).
Proof.
  intros w cameras. split; [vm_compute; reflexivity|].
  apply (viewer_cameras_replaces_planet w "Kepler-22b" cameras [h_viewer_cameras]).
  - vm_compute; reflexivity.
  - left.
Defined.

Lemma error_message_sets_connection_error_witness :
  let w := mounted in
  let w' := exec (dispatch (ErrorMessage (Some "select") None "")) w in
  handlers (client w) !! "error" = Some [h_error_message]
  ∧ connectionError (app w')
    = Some (if bool_decide ("" = "") then "Realtime error" else "")
  ∧ Multiplayer.status (connectedFlag (app w')) (connectionError (app w'))
    = Multiplayer.StatusError
  ∧ connectedFlag (app w') = connectedFlag (app w).
Proof.
  intros w. split; [vm_compute; reflexivity|].
  apply (error_message_sets_connection_error w (Some "select") None "" [h_error_message]).
  - vm_compute; reflexivity.
  - left.
Defined.

Lemma connection_status_follows_socket_witness :
  ∃ w' s, deliver (ESockOpen 1) overtaken = Some w'
    ∧ sockets overtaken !! 1%nat = Some s
    ∧ on_resolve s = AwaitReconnect
    ∧ ws (client overtaken) = Some 2%nat
    ∧ connectionError (app w') = None
    ∧ connectedFlag (app w') = false
    ∧ Multiplayer.status (connectedFlag (app w')) (connectionError (app w'))
      = Multiplayer.StatusConnecting.
Proof.
  set (w' := default mounted (deliver (ESockOpen 1) overtaken)).
  assert (Hdel : deliver (ESockOpen 1) overtaken = Some w') by (vm_compute; reflexivity).
  assert (Hin : h_connected ∈ on_connected (eventHandlers (client overtaken))) by left.
  assert (Hs1 : sockets overtaken !! 1%nat
    = Some {| readyState := CONNECTING; sent := []; on_resolve := AwaitReconnect |})
    by (vm_compute; reflexivity).
  assert (Hws : ws (client overtaken) = Some 2%nat) by (vm_compute; reflexivity).
  assert (Hclosed : transport_open overtaken = None) by (vm_compute; reflexivity).
  destruct (connection_status_follows_socket overtaken w' 1) as (Hopen & _).
  destruct (Hopen Hdel Hin) as (s & Hs & Herr & Hflag & _ & Hconnecting & _).
  rewrite Hs1 in Hs. injection Hs as <-.
  exists w', {| readyState := CONNECTING; sent := []; on_resolve := AwaitReconnect |}.
  split; [exact Hdel|]. split; [exact Hs1|]. split; [reflexivity|]. split; [exact Hws|].
  split; [exact Herr|]. split.
  - rewrite Hflag. vm_compute; reflexivity.
  - apply Hconnecting; [reflexivity| |exact Hclosed]. rewrite Hws. discriminate.
Defined.

Lemma select_then_unselect_witness :
  let w := mounted in
  let planetId := "Kepler-22b" in
  let w2 := exec (unselectPlanet planetId) (exec (selectPlanet planetId) w) in
  let kept := filter (λ u, u ≠ user_id me)
                (default [] (selectedPlanets (app w) !! planetId)) in
  (clientRef (app w) = true ∧ user (client w) = Some me)
  ∧ selectedPlanets (app w2) !! planetId = (if kept is [] then None else Some kept)
  ∧ (∀ other, other ≠ planetId →
       selectedPlanets (app w2) !! other = selectedPlanets (app w) !! other)
  ∧ (∃ u, user (client w2) = Some u ∧ selectedPlanetId u = None ∧ user_id u = user_id me)
  ∧ lastSelectAttemptRef (app w2) = Some planetId
  ∧ frames w2 ++ waiting w2
    ≡ₚ (frames w ++ waiting w)
       ++ [stringify (SelectPlanetMessage planetId (user_id me));
           stringify (UnselectPlanetMessage planetId (user_id me))]
  ∧ (transport_open w = None →
     messageQueue (client w2)
     = messageQueue (client w)
       ++ [SelectPlanetMessage planetId (user_id me);
           UnselectPlanetMessage planetId (user_id me)]
     ∧ sockets w2 = sockets w)
  ∧ (∀ i, transport_open w = Some i → (∀ d, socket_send_throws i d = false) →
     sent <$> sockets w2 !! i
     = (λ s, sent s ++ [stringify (SelectPlanetMessage planetId (user_id me));
                        stringify (UnselectPlanetMessage planetId (user_id me))])
       <$> sockets w !! i
     ∧ messageQueue (client w2) = messageQueue (client w)).
Proof.
  intros w planetId. split; [split; [reflexivity|vm_compute; reflexivity]|].
  apply (select_then_unselect w me planetId).
  - reflexivity.
  - vm_compute; reflexivity.
Defined.

Lemma join_then_leave_viewer_witness :
  let w := mounted in
  let planetId := "Kepler-22b" in
  let w1 := exec (joinPlanetViewer planetId) w in
  let w2 := exec (leavePlanetViewer None) w1 in
  let inner := delete (user_id me) (default ∅ (camerasInPlanet (app w) !! planetId)) in
  (∃ u, user (client w1) = Some u ∧ isViewingPlanet u = Some planetId)
  ∧ (∃ u, user (client w2) = Some u ∧ isViewingPlanet u = None ∧ user_id u = user_id me)
  ∧ frames w2 ++ waiting w2
    ≡ₚ (frames w ++ waiting w)
       ++ [stringify (JoinViewerMessage planetId (user_id me));
           stringify (LeaveViewerMessage planetId (user_id me))]
  ∧ camerasInPlanet (app w2) !! planetId
    = (if bool_decide (size inner = 0%nat) then None else Some inner)
  ∧ (∀ cameras, camerasInPlanet (app w2) !! planetId = Some cameras →
       cameras !! user_id me = None)
  ∧ (∀ other, other ≠ planetId →
       camerasInPlanet (app w2) !! other = camerasInPlanet (app w) !! other)
  ∧ (transport_open w = None →
     messageQueue (client w2)
     = messageQueue (client w)
       ++ [JoinViewerMessage planetId (user_id me); LeaveViewerMessage planetId (user_id me)]
     ∧ sockets w2 = sockets w)
  ∧ (∀ i, transport_open w = Some i → (∀ d, socket_send_throws i d = false) →
     sent <$> sockets w2 !! i
     = (λ s, sent s ++ [stringify (JoinViewerMessage planetId (user_id me));
                        stringify (LeaveViewerMessage planetId (user_id me))])
       <$> sockets w !! i
     ∧ messageQueue (client w2) = messageQueue (client w)).
Proof.
  intros w planetId.
  apply (join_then_leave_viewer w me planetId).
  - reflexivity.
  - vm_compute; reflexivity.
  - discriminate.
Defined.

Lemma leave_without_planet_is_silent_witness :
  (isViewingPlanet me = None ∧ user (client mounted) = Some me)
  ∧ exec (leavePlanetViewer (Some "")) mounted =
    with_client
      (set_user (Some (merge_presence me (viewing_presence None) (clock mounted)))) mounted.
Proof.
  split; [split; vm_compute; reflexivity|].
  apply (leave_without_planet_is_silent mounted me (Some "")).
  - reflexivity.
  - vm_compute; reflexivity.
  - reflexivity.
  - reflexivity.
Defined.


Lemma conflict_is_handled_once_witness :
  let w := selecting "Kepler-22b" in
  let conflict := ConflictMessage "Kepler-22b" "u2" (Some "locked") in
  let w1 := exec (dispatch conflict) w in
  (¬ outstanding "Kepler-22b" w → app w1 = app w ∧ user (client w1) = user (client w))
  ∧ ¬ outstanding "Kepler-22b" w1
  ∧ app (exec (dispatch conflict) w1) = app w1
  ∧ user (client (exec (dispatch conflict) w1)) = user (client w1).
Proof.
  apply (conflict_is_handled_once (selecting "Kepler-22b") "Kepler-22b" "u2" (Some "locked")
           [h_conflict]).
  - vm_compute; reflexivity.
  - left.
Defined.

End ProviderExtras.
